(** * MCP 2025-11 protocol layer of claude-flow: job manager, version
      negotiation, tool loader and tool-call dispatch.

    A shallow embedding of
      - src/mcp/async/job-manager-mcp25.js   (MCPAsyncJobManager),
      - src/mcp/protocol/version-negotiation.js (VersionNegotiator),
      - src/mcp/tools/loader.js              (DynamicToolLoader),
      - src/mcp/server-mcp-2025.js           (MCP2025Server.handleToolCall),
    followed by the properties of these components.

    JavaScript objects that are shared by reference (a job record held both
    by [this.jobs] and by the running [executeJob] closure, a loaded tool
    instance) live in an explicit heap and are named by references.  Clock
    readings ([new Date()], [Date.now()]) and generated identifiers
    ([uuidv4()]) are inputs of the operation that reads them.  Logging has
    no effect on the modelled state and is left out. *)

From Stdlib Require Import ZArith String Ascii List Lia Permutation OrderedTypeEx.
From stdpp Require Import base option gmap list strings sorting.
Import ListNotations.

(* ===================================================================== *)
(** * Async job manager (job-manager-mcp25.js)                             *)
(* ===================================================================== *)

Module JobManager.

(** The five values the [status] field of a job takes. *)
Inductive JobStatus := Queued | Running | Success | Error | Cancelled.

#[export] Instance JobStatus_eq_dec : EqDecision JobStatus.
Proof. solve_decision. Defined.

(** Status as it is reported to a client in a handle or a result. *)
Inductive ResponseStatus := st_success | st_error | st_in_progress.

(** Tool arguments, results and request context are opaque to the manager. *)
Definition Json := string.

(** What [executeJob] keeps of a thrown error. *)
Record ErrorInfo := {
  message : option string;
  stack : option string;
  code : option string
}.

Record MCPToolRequest := {
  req_request_id : string;
  req_tool_id : string;
  req_arguments : option Json;
  req_mode : option string;
  req_context : option Json
}.

Record Job := {
  request_id : string;
  job_id : string;
  tool_id : string;
  arguments : option Json;
  mode : option string;
  status : JobStatus;
  progress : Z;
  progress_message : option string;
  context : option Json;
  created_at : Z;
  started_at : option Z;
  completed_at : option Z;
  result : option Json;
  error : option ErrorInfo
}.

(** Field assignments [job.f = v]. *)
Definition set_status (s : JobStatus) (j : Job) : Job :=
  {| request_id := request_id j; job_id := job_id j; tool_id := tool_id j;
     arguments := arguments j; mode := mode j; status := s;
     progress := progress j; progress_message := progress_message j;
     context := context j; created_at := created_at j;
     started_at := started_at j; completed_at := completed_at j;
     result := result j; error := error j |}.

Definition set_started_at (t : Z) (j : Job) : Job :=
  {| request_id := request_id j; job_id := job_id j; tool_id := tool_id j;
     arguments := arguments j; mode := mode j; status := status j;
     progress := progress j; progress_message := progress_message j;
     context := context j; created_at := created_at j;
     started_at := Some t; completed_at := completed_at j;
     result := result j; error := error j |}.

Definition set_completed_at (t : Z) (j : Job) : Job :=
  {| request_id := request_id j; job_id := job_id j; tool_id := tool_id j;
     arguments := arguments j; mode := mode j; status := status j;
     progress := progress j; progress_message := progress_message j;
     context := context j; created_at := created_at j;
     started_at := started_at j; completed_at := Some t;
     result := result j; error := error j |}.

Definition set_progress (p : Z) (j : Job) : Job :=
  {| request_id := request_id j; job_id := job_id j; tool_id := tool_id j;
     arguments := arguments j; mode := mode j; status := status j;
     progress := p; progress_message := progress_message j;
     context := context j; created_at := created_at j;
     started_at := started_at j; completed_at := completed_at j;
     result := result j; error := error j |}.

Definition set_progress_message (msg : option string) (j : Job) : Job :=
  {| request_id := request_id j; job_id := job_id j; tool_id := tool_id j;
     arguments := arguments j; mode := mode j; status := status j;
     progress := progress j; progress_message := msg;
     context := context j; created_at := created_at j;
     started_at := started_at j; completed_at := completed_at j;
     result := result j; error := error j |}.

Definition set_result (v : Json) (j : Job) : Job :=
  {| request_id := request_id j; job_id := job_id j; tool_id := tool_id j;
     arguments := arguments j; mode := mode j; status := status j;
     progress := progress j; progress_message := progress_message j;
     context := context j; created_at := created_at j;
     started_at := started_at j; completed_at := completed_at j;
     result := Some v; error := error j |}.

Definition set_error (e : ErrorInfo) (j : Job) : Job :=
  {| request_id := request_id j; job_id := job_id j; tool_id := tool_id j;
     arguments := arguments j; mode := mode j; status := status j;
     progress := progress j; progress_message := progress_message j;
     context := context j; created_at := created_at j;
     started_at := started_at j; completed_at := completed_at j;
     result := result j; error := Some e |}.

(** Constructor argument [config = {}]: every field may be absent. *)
Record ConfigInput := {
  in_maxJobs : option Z;
  in_jobTTL : option Z;
  in_defaultPollInterval : option Z
}.

Record Config := {
  maxJobs : Z;
  jobTTL : Z;
  defaultPollInterval : Z
}.

(** [x || d] on an optional number: [undefined] and [0] are falsy. *)
Definition or_default (x : option Z) (d : Z) : Z :=
  match x with
  | Some v => if (v =? 0)%Z then d else v
  | None => d
  end.

(** The manager: [heap] holds the job objects, [jobs] is [this.jobs]
    (job id to object), [persistence] is [MemoryJobPersistence.jobs], which
    stores a copy ([{...job}]) made at the time of each [save]. *)
Record Manager := {
  heap : gmap nat Job;
  next_ref : nat;
  jobs : gmap string nat;
  persistence : gmap string Job;
  config : Config
}.

(** [new MCPAsyncJobManager(null, logger, config)]. *)
Definition new_manager (c : ConfigInput) : Manager :=
  {| heap := ∅; next_ref := 0; jobs := ∅; persistence := ∅;
     config := {| maxJobs := or_default (in_maxJobs c) 1000;
                  jobTTL := or_default (in_jobTTL c) 86400000;
                  defaultPollInterval := or_default (in_defaultPollInterval c) 5 |} |}.

(** ** State and exception monad of the manager's methods *)

Inductive Outcome (A : Type) :=
| Return (a : A)
| Throw (msg : string).
Arguments Return {A} a.
Arguments Throw {A} msg.

Definition Eff (A : Type) : Type := Manager → Outcome A * Manager.

Definition ret {A} (a : A) : Eff A := λ m, (Return a, m).
Definition throw {A} (msg : string) : Eff A := λ m, (Throw msg, m).
Definition bind {A B} (c : Eff A) (k : A → Eff B) : Eff B :=
  λ m, match c m with
       | (Return a, m') => k a m'
       | (Throw msg, m') => (Throw msg, m')
       end.
Definition get_manager : Eff Manager := λ m, (Return m, m).

Declare Scope eff_scope.
Delimit Scope eff_scope with eff.
Notation "x ←! c ; k" := (bind c (λ x, k))
  (at level 20, c at level 100, k at level 200, right associativity) : eff_scope.
Notation "c ;! k" := (bind c (λ _, k))
  (at level 20, k at level 200, right associativity) : eff_scope.

(** Allocation of a fresh job object (an object literal). *)
Definition alloc (j : Job) : Eff nat := λ m,
  (Return (next_ref m),
   {| heap := <[next_ref m := j]> (heap m); next_ref := S (next_ref m);
      jobs := jobs m; persistence := persistence m; config := config m |}).

(** Reading through a reference; a reference that names no object plays
    the part of [undefined], on which a property access throws. *)
Definition deref (r : nat) : Eff Job := λ m,
  match heap m !! r with
  | Some j => (Return j, m)
  | None => (Throw "TypeError", m)
  end.

(** In-place update of the object behind [r]. *)
Definition assign (r : nat) (f : Job → Job) : Eff unit := λ m,
  match heap m !! r with
  | Some j =>
      (Return tt,
       {| heap := <[r := f j]> (heap m); next_ref := next_ref m;
          jobs := jobs m; persistence := persistence m; config := config m |})
  | None => (Throw "TypeError", m)
  end.

(** [this.jobs.get], [this.jobs.set], [this.jobs.delete]. *)
Definition jobs_get (id : string) : Eff (option nat) := λ m, (Return (jobs m !! id), m).

Definition jobs_set (id : string) (r : nat) : Eff unit := λ m,
  (Return tt,
   {| heap := heap m; next_ref := next_ref m; jobs := <[id := r]> (jobs m);
      persistence := persistence m; config := config m |}).

Definition jobs_delete (id : string) : Eff unit := λ m,
  (Return tt,
   {| heap := heap m; next_ref := next_ref m; jobs := delete id (jobs m);
      persistence := persistence m; config := config m |}).

(** [MemoryJobPersistence]: [save] stores a copy under [job.job_id],
    [load] returns a copy or [null], [delete] removes the entry. *)
Definition persistence_save (r : nat) : Eff unit := λ m,
  match heap m !! r with
  | Some j =>
      (Return tt,
       {| heap := heap m; next_ref := next_ref m; jobs := jobs m;
          persistence := <[job_id j := j]> (persistence m); config := config m |})
  | None => (Throw "TypeError", m)
  end.

Definition persistence_load (id : string) : Eff (option Job) :=
  λ m, (Return (persistence m !! id), m).

Definition persistence_delete (id : string) : Eff unit := λ m,
  (Return tt,
   {| heap := heap m; next_ref := next_ref m; jobs := jobs m;
      persistence := delete id (persistence m); config := config m |}).

Definition persistence_list : Eff (list Job) :=
  λ m, (Return ((map_to_list (persistence m)).*2), m).

(** ** The manager's methods *)

Record AsyncJobHandle := {
  h_request_id : string;
  h_job_id : string;
  h_status : ResponseStatus;
  h_poll_after : Z;
  h_progress : option (Z * option string)
}.

Record ErrorPayload := {
  e_code : string;
  e_message : string;
  e_details : option ErrorInfo
}.

Record ToolCallResult := {
  r_request_id : string;
  r_status : ResponseStatus;
  r_result : option Json;
  r_duration_ms : option Z;
  r_error : option ErrorPayload;
  r_progress : option (Z * option string)
}.

(** The object literal of [submitJob], lines 48-58. *)
Definition new_job (request : MCPToolRequest) (uuid : string) (now : Z) : Job :=
  {| request_id := req_request_id request; job_id := uuid;
     tool_id := req_tool_id request; arguments := req_arguments request;
     mode := req_mode request; status := Queued; progress := 0;
     progress_message := None; context := req_context request;
     created_at := now; started_at := None; completed_at := None;
     result := None; error := None |}.

Section Methods.
Local Open Scope eff_scope.

(** [executeJob] up to its first suspension (lines 143-145): the job is
    marked running and saved before control returns to the caller. *)
Definition executeJob_start (r : nat) (now : Z) : Eff unit :=
  assign r (set_status Running) ;!
  assign r (set_started_at now) ;!
  persistence_save r.

(** The [onProgress] callback handed to the executor (lines 152-160). *)
Definition onProgress (r : nat) (percent : Z) (msg : option string) : Eff unit :=
  assign r (set_progress (Z.min 100 (Z.max 0 percent))) ;!
  assign r (set_progress_message msg) ;!
  persistence_save r.

(** Continuation of [executeJob] when the executor's promise is fulfilled
    with [v] (lines 162-166). *)
Definition executeJob_resolve (r : nat) (v : Json) (now : Z) : Eff unit :=
  assign r (set_status Success) ;!
  assign r (set_result v) ;!
  assign r (set_progress 100) ;!
  assign r (set_completed_at now) ;!
  persistence_save r.

(** Continuation of [executeJob] when the executor's promise is rejected
    with [e] (the [catch] block, lines 173-180). *)
Definition executeJob_reject (r : nat) (e : ErrorInfo) (now : Z) : Eff unit :=
  assign r (set_status Error) ;!
  assign r (set_error e) ;!
  assign r (set_completed_at now) ;!
  persistence_save r.

(** [submitJob], lines 45-59: capacity check, job literal, first save. *)
Definition submitJob_persist (request : MCPToolRequest) (uuid : string) (now : Z)
  : Eff nat :=
  m ←! get_manager ;
  if (Z.of_nat (size (jobs m)) >=? maxJobs (config m))%Z
  then throw "Job queue full. Please try again later."
  else
    r ←! alloc (new_job request uuid now) ;
    persistence_save r ;!
    ret r.

(** [submitJob], line 60. *)
Definition submitJob_register (r : nat) : Eff unit :=
  job ←! deref r ;
  jobs_set (job_id job) r.

(** [submitJob], lines 67-72. *)
Definition submitJob_handle (r : nat) : Eff AsyncJobHandle :=
  job ←! deref r ;
  m ←! get_manager ;
  ret {| h_request_id := request_id job; h_job_id := job_id job;
         h_status := st_in_progress;
         h_poll_after := defaultPollInterval (config m);
         h_progress := None |}.

(** [submitJob(request, executor)].  [uuid] is the value of [uuidv4()],
    [t_created] and [t_started] the two clock readings.  [executeJob] is
    called without [await], so it runs to its first suspension and the
    handle is returned while the executor is still pending. *)
Definition submitJob (request : MCPToolRequest) (uuid : string)
    (t_created t_started : Z) : Eff AsyncJobHandle :=
  r ←! submitJob_persist request uuid t_created ;
  submitJob_register r ;!
  executeJob_start r t_started ;!
  submitJob_handle r.

(** The status expression shared by [pollJob] and [resumeJob]. *)
Definition response_status (s : JobStatus) : ResponseStatus :=
  if decide (s = Success) then st_success
  else if decide (s = Error) then st_error
  else st_in_progress.

(** [pollJob(job_id)], lines 74-93. *)
Definition pollJob (id : string) : Eff AsyncJobHandle :=
  loaded ←! persistence_load id ;
  match loaded with
  | None => throw ("Job not found: " +:+ id)
  | Some job =>
      m ←! get_manager ;
      let st := response_status (status job) in
      ret {| h_request_id := request_id job; h_job_id := job_id job;
             h_status := st;
             h_poll_after :=
               match st with
               | st_in_progress => defaultPollInterval (config m)
               | _ => 0
               end;
             h_progress :=
               match st with
               | st_in_progress => Some (progress job, progress_message job)
               | _ => None
               end |}
  end.

(** [a || d] on an optional string. *)
Definition str_or (a : option string) (d : string) : string :=
  match a with
  | Some s => if decide (s = "") then d else s
  | None => d
  end.

(** [resumeJob(job_id)], lines 94-121.  [tokens_used] is never assigned
    to a job and is left out of the metadata. *)
Definition resumeJob (id : string) : Eff ToolCallResult :=
  loaded ←! persistence_load id ;
  match loaded with
  | None => throw ("Job not found: " +:+ id)
  | Some job =>
      let st := response_status (status job) in
      if decide (status job = Success) then
        ret {| r_request_id := request_id job; r_status := st;
               r_result := result job;
               r_duration_ms :=
                 match completed_at job, started_at job with
                 | Some c, Some s => Some (c - s)%Z
                 | _, _ => None
                 end;
               r_error := None; r_progress := None |}
      else if decide (status job = Error) then
        ret {| r_request_id := request_id job; r_status := st;
               r_result := None; r_duration_ms := None;
               r_error :=
                 Some {| e_code := "EXECUTION_ERROR";
                         e_message :=
                           str_or (e ← error job; message e) "Job execution failed";
                         e_details := error job |};
               r_progress := None |}
      else
        ret {| r_request_id := request_id job; r_status := st;
               r_result := None; r_duration_ms := None; r_error := None;
               r_progress := Some (progress job, progress_message job) |}
  end.

(** [cancelJob(job_id)], lines 122-138. *)
Definition cancelJob (id : string) (now : Z) : Eff bool :=
  found ←! jobs_get id ;
  match found with
  | None => ret false
  | Some r =>
      job ←! deref r ;
      if decide (status job = Success ∨ status job = Error) then ret false
      else
        assign r (set_status Cancelled) ;!
        assign r (set_completed_at now) ;!
        persistence_save r ;!
        ret true
  end.

(** The test of the sweep, line 194. *)
Definition expired (now : Z) (ttl : Z) (job : Job) : bool :=
  ((now - created_at job) >? ttl)%Z && bool_decide (status job ≠ Running).

(** The loop of [cleanupExpiredJobs] over the listed copies. *)
Fixpoint cleanup_loop (now : Z) (listed : list Job) (cleaned : Z) : Eff Z :=
  match listed with
  | [] => ret cleaned
  | job :: rest =>
      m ←! get_manager ;
      if expired now (jobTTL (config m)) job then
        persistence_delete (job_id job) ;!
        jobs_delete (job_id job) ;!
        cleanup_loop now rest (cleaned + 1)%Z
      else cleanup_loop now rest cleaned
  end.

(** [cleanupExpiredJobs()], lines 188-206. *)
Definition cleanupExpiredJobs (now : Z) : Eff Z :=
  listed ←! persistence_list ;
  cleanup_loop now listed 0%Z.

End Methods.

(** ** Runs of the manager

    What can happen to a manager between two observations: a client call,
    a sweep of the timer, or an event of an executor that was started for
    the job object [r].  A run lists calls that are awaited one after the
    other; the only suspension during which other steps take place is the
    wait of [executeJob] for its executor, which is why its start and its
    two continuations are steps of their own. *)
Inductive Op :=
| OpSubmit (request : MCPToolRequest) (uuid : string) (t_created t_started : Z)
| OpPoll (id : string)
| OpResume (id : string)
| OpCancel (id : string) (now : Z)
| OpProgress (r : nat) (percent : Z) (msg : option string)
| OpResolve (r : nat) (v : Json) (now : Z)
| OpReject (r : nat) (e : ErrorInfo) (now : Z)
| OpCleanup (now : Z).

Definition step (op : Op) (m : Manager) : Manager :=
  match op with
  | OpSubmit request uuid t1 t2 => (submitJob request uuid t1 t2 m).2
  | OpPoll id => (pollJob id m).2
  | OpResume id => (resumeJob id m).2
  | OpCancel id now => (cancelJob id now m).2
  | OpProgress r percent msg => (onProgress r percent msg m).2
  | OpResolve r v now => (executeJob_resolve r v now m).2
  | OpReject r e now => (executeJob_reject r e now m).2
  | OpCleanup now => (cleanupExpiredJobs now m).2
  end.

Definition run (ops : list Op) (m : Manager) : Manager :=
  foldl (λ acc op, step op acc) m ops.

(** The identifiers [uuidv4()] handed out during a run. *)
Definition submitted_ids (ops : list Op) : list string :=
  omap (λ op, match op with OpSubmit _ uuid _ _ => Some uuid | _ => None end) ops.

(** The manager once the object behind [r] has become [j'] and
    [persistence.save] has stored its copy. *)
Definition updated (m : Manager) (r : nat) (j' : Job) : Manager :=
  {| heap := <[r := j']> (heap m); next_ref := next_ref m; jobs := jobs m;
     persistence := <[job_id j' := j']> (persistence m); config := config m |}.

(** Every identifier the manager holds, as a key of [this.jobs], as a key
    of the persistence or inside a job object, is among [ids], and the
    configuration is [c]. *)
Definition ids_within (ids : string → Prop) (c : Config) (m : Manager) : Prop :=
  (∀ id r, jobs m !! id = Some r → ids id) ∧
  (∀ id j, persistence m !! id = Some j → ids id) ∧
  (∀ r j, heap m !! r = Some j → ids (job_id j)) ∧
  config m = c.

(** [c] keeps the invariant and only returns values satisfying [Q]. *)
Definition keeps (ids : string → Prop) (c0 : Config) {A} (c : Eff A)
    (Q : A → Prop) : Prop :=
  ∀ m, ids_within ids c0 m →
       ids_within ids c0 (c m).2 ∧ ∀ a, (c m).1 = Return a → Q a.

(** Sample inputs. *)
Definition sample_request : MCPToolRequest :=
  {| req_request_id := "req-1"; req_tool_id := "system/status";
     req_arguments := Some "{}"; req_mode := Some "async";
     req_context := None |}.

Definition no_config : ConfigInput :=
  {| in_maxJobs := None; in_jobTTL := None; in_defaultPollInterval := None |}.

Definition one_job_config : ConfigInput :=
  {| in_maxJobs := Some 1%Z; in_jobTTL := None; in_defaultPollInterval := None |}.

(** A job is submitted at time 10, started at 11 and cancelled at 20 while
    its executor is still pending. *)
Definition cancelled_run : list Op :=
  [OpSubmit sample_request "job-1" 10 11; OpCancel "job-1" 20].

Definition cancelled_job : Job :=
  {| request_id := "req-1"; job_id := "job-1"; tool_id := "system/status";
     arguments := Some "{}"; mode := Some "async"; status := Cancelled;
     progress := 0; progress_message := None; context := None;
     created_at := 10; started_at := Some 11%Z; completed_at := Some 20%Z;
     result := None; error := None |}.

Definition sample_error : ErrorInfo :=
  {| message := Some "boom"; stack := None; code := None |}.

End JobManager.

(* ===================================================================== *)
(** * Version negotiation (version-negotiation.js)                         *)
(* ===================================================================== *)

Module VersionNegotiation.

(** A client handshake as it arrives: any field may be missing, and
    [capabilities] is [None] when it is not an array. *)
Record Handshake := {
  mcp_version : option string;
  transport : option string;
  capabilities : option (list string);
  client_id : option string
}.

Record NegotiationResult := {
  success : bool;
  agreed_version : string;
  agreed_capabilities : list string;
  error : option string
}.

(** The fields of a [VersionNegotiator]; [serverCapabilities] changes
    through [addCapability] and [removeCapability]. *)
Record VersionNegotiator := {
  supportedVersions : list string;
  serverVersion : string;
  serverCapabilities : list string
}.

Definition new_negotiator : VersionNegotiator :=
  {| supportedVersions := ["2025-11"; "2024-11"];
     serverVersion := "2025-11";
     serverCapabilities := ["async"; "registry"; "code_exec"; "stream"] |}.

(** Truthiness of an optional string: [undefined] and [""] are falsy. *)
Definition truthy (s : option string) : bool :=
  match s with
  | Some v => negb (String.eqb v "")
  | None => false
  end.

(** [String.prototype.split] with a one-character separator. *)
Fixpoint split (sep : ascii) (s : string) : list string :=
  match s with
  | EmptyString => [EmptyString]
  | String c rest =>
      if Ascii.eqb c sep then EmptyString :: split sep rest
      else match split sep rest with
           | w :: ws => String c w :: ws
           | [] => [String c EmptyString]
           end
  end.

Definition digit_of (c : ascii) : option Z :=
  let n := Z.of_nat (nat_of_ascii c) in
  if ((48 <=? n) && (n <=? 57))%Z then Some (n - 48)%Z else None.

Fixpoint digits_value (acc : Z) (s : string) : option Z :=
  match s with
  | EmptyString => Some acc
  | String c rest =>
      match digit_of c with
      | Some d => digits_value (10 * acc + d)%Z rest
      | None => None
      end
  end.

(** [Number(s)] on the strings [parseVersion] meets in a calendar token:
    a run of decimal digits is its value and the empty string is 0; [None]
    is [NaN].  Signs, fractions, exponents, radix prefixes and white space,
    which JavaScript also reads, are answered [NaN] here; the properties
    below apply [Number] to digit strings only. *)
Definition Number (s : string) : option Z := digits_value 0 s.

(** A [Date] built by [new Date(year, monthIndex, 1)], observed through
    [getFullYear] and [getMonth] only.  Years 0 to 99 denote 1900 to 1999
    and the month index carries into the year. *)
Inductive JSDate :=
| InvalidDate
| Date (fullYear month : Z).

Definition new_Date (year monthIndex : option Z) : JSDate :=
  match year, monthIndex with
  | Some y, Some mi =>
      let y' := if ((0 <=? y) && (y <=? 99))%Z then (1900 + y)%Z else y in
      Date (y' + mi / 12)%Z (mi mod 12)%Z
  | _, _ => InvalidDate
  end.

(** [parseVersion(version)], lines 101-104. *)
Definition parseVersion (version : string) : JSDate :=
  let parts := map Number (split "-" version) in
  let year := mjoin (parts !! 0%nat) in
  let month := mjoin (parts !! 1%nat) in
  new_Date year ((λ mo, mo - 1)%Z <$> month).

(** [getMonthsDifference(date1, date2)], lines 105-108; [None] is [NaN]. *)
Definition getMonthsDifference (date1 date2 : JSDate) : option Z :=
  match date1, date2 with
  | Date y1 m1, Date y2 m2 =>
      let months := ((y2 - y1) * 12)%Z in
      Some (months + m2 - m1)%Z
  | _, _ => None
  end.

Record VersionCheck := {
  compatible : bool;
  version : string;
  vc_error : option string
}.

(** [Math.abs(monthsDiff) > 1]; a comparison with [NaN] is false. *)
Definition abs_exceeds_1 (monthsDiff : option Z) : bool :=
  match monthsDiff with
  | Some d => (Z.abs d >? 1)%Z
  | None => false
  end.

(** [checkVersionCompatibility(clientVersion)], lines 61-97. *)
Definition checkVersionCompatibility (n : VersionNegotiator) (clientVersion : string)
  : VersionCheck :=
  if decide (clientVersion = serverVersion n) then
    {| compatible := true; version := clientVersion; vc_error := None |}
  else if decide (clientVersion ∈ supportedVersions n) then
    {| compatible := true; version := clientVersion; vc_error := None |}
  else
    let clientDate := parseVersion clientVersion in
    let serverDate := parseVersion (serverVersion n) in
    let monthsDiff := getMonthsDifference clientDate serverDate in
    if abs_exceeds_1 monthsDiff then
      {| compatible := false; version := serverVersion n;
         vc_error := Some ("Version mismatch: client " +:+ clientVersion +:+
                           ", server " +:+ serverVersion n +:+
                           ". Difference exceeds 1 cycle.") |}
    else
      {| compatible := true; version := serverVersion n; vc_error := None |}.

(** [negotiateCapabilities(clientCapabilities)], lines 98-100. *)
Definition negotiateCapabilities (n : VersionNegotiator)
    (clientCapabilities : list string) : list string :=
  filter (λ cap, cap ∈ serverCapabilities n) clientCapabilities.

(** [isValidHandshake(handshake)], lines 58-60. *)
Definition isValidHandshake (h : Handshake) : bool :=
  truthy (mcp_version h) && truthy (transport h) &&
  bool_decide (is_Some (capabilities h)).

(** [negotiate(clientHandshake)], lines 24-57. *)
Definition negotiate (n : VersionNegotiator) (h : Handshake) : NegotiationResult :=
  if negb (isValidHandshake h) then
    {| success := false; agreed_version := serverVersion n;
       agreed_capabilities := []; error := Some "Invalid handshake structure" |}
  else
    let versionResult := checkVersionCompatibility n (default "" (mcp_version h)) in
    if negb (compatible versionResult) then
      {| success := false; agreed_version := serverVersion n;
         agreed_capabilities := []; error := vc_error versionResult |}
    else
      {| success := true; agreed_version := version versionResult;
         agreed_capabilities :=
           negotiateCapabilities n (default [] (capabilities h));
         error := None |}.

(** [addCapability] and [removeCapability], lines 129-145. *)
Definition addCapability (n : VersionNegotiator) (capability : string)
  : VersionNegotiator :=
  if decide (capability ∈ serverCapabilities n) then n
  else {| supportedVersions := supportedVersions n;
          serverVersion := serverVersion n;
          serverCapabilities := serverCapabilities n ++ [capability] |}.

Fixpoint remove_first (capability : string) (l : list string) : list string :=
  match l with
  | [] => []
  | c :: rest => if decide (c = capability) then rest
                 else c :: remove_first capability rest
  end.

Definition removeCapability (n : VersionNegotiator) (capability : string)
  : VersionNegotiator :=
  {| supportedVersions := supportedVersions n;
     serverVersion := serverVersion n;
     serverCapabilities := remove_first capability (serverCapabilities n) |}.

(** ** Calendar reading of a version token

    The reading of a version as a [YYYY-MM] calendar token, written
    independently of [parseVersion]: four digits, a dash, two digits, read
    as a year and a month. *)
Definition calendar_token (v : string) : option (Z * Z) :=
  match v with
  | String y1 (String y2 (String y3 (String y4
      (String dash (String m1 (String m2 EmptyString)))))) =>
      if Ascii.eqb dash "-" then
        a ← digit_of y1; b ← digit_of y2; c ← digit_of y3; d ← digit_of y4;
        e ← digit_of m1; f ← digit_of m2;
        Some (1000 * a + 100 * b + 10 * c + d, 10 * e + f)%Z
      else None
  | _ => None
  end.

(** Signed number of months from the client's token to the server's. *)
Definition months_between (client server : Z * Z) : Z :=
  ((server.1 - client.1) * 12 + (server.2 - client.2))%Z.

(** Distance, in months, of a client version from the server's version. *)
Definition release_distance (n : VersionNegotiator) (v : string) : option Z :=
  c ← calendar_token v;
  s ← calendar_token (serverVersion n);
  Some (Z.abs (months_between c s)).

(** Sample handshakes: the scenario of the protocol description, and a
    client of the explicitly supported older version. *)
Definition current_client : Handshake :=
  {| mcp_version := Some "2025-11"; transport := Some "stdio";
     capabilities := Some ["async"]; client_id := None |}.

Definition old_client : Handshake :=
  {| mcp_version := Some "2024-11"; transport := Some "stdio";
     capabilities := Some ["async"]; client_id := None |}.

Definition early_client : Handshake :=
  {| mcp_version := Some "2025-10"; transport := Some "stdio";
     capabilities := Some ["stream"; "async"]; client_id := None |}.

Definition stale_client : Handshake :=
  {| mcp_version := Some "2025-06"; transport := Some "http";
     capabilities := Some ["async"]; client_id := None |}.

End VersionNegotiation.

(* ===================================================================== *)
(** * Dynamic tool loader (tools/loader.js)                                *)
(* ===================================================================== *)

Module ToolLoader.

(** An entry of [metadataCache]: the [toolMetadata] export of a tool file
    extended by [scanTools] with [category] and [filePath].  Every tool
    file gives [name] and [description]; [tags] and [detailLevel] may be
    absent. *)
Record ToolMetadata := {
  name : string;
  description : string;
  category : string;
  detailLevel : option string;
  tags : option (list string);
  filePath : string
}.

Record SearchQuery := {
  q_category : option string;
  q_tags : option (list string);
  q_namePattern : option string;
  q_detailLevel : option string
}.

(** [s.includes(pattern)] on strings: [pattern] occurs in [s]. *)
Fixpoint includes (s pattern : string) : bool :=
  String.prefix pattern s ||
  match s with
  | EmptyString => false
  | String _ rest => includes rest pattern
  end.

(** [pattern] is a substring of [s]. *)
Definition occurs_in (pattern s : string) : Prop :=
  ∃ before after, s = before +:+ pattern +:+ after.

(** A fully loaded tool, as returned by a creator function. *)
Record MCPTool := {
  tool_name : string;
  tool_description : string;
  inputSchema : string;
  outputSchema : option string
}.

(** What calling an exported function with the logger does. *)
Inductive CreatorOutcome :=
| Creates (tool : MCPTool)
| CreatesNullish
| CreatorThrows.

(** A value exported by a tool module ([Object.values(module)]). *)
Inductive Export :=
| ExpFunction (fname : string) (call : CreatorOutcome)
| ExpValue.

(** The loader: [metadataCache] in insertion order, [toolCache] from a
    tool name to the reference of its instance, the instances created so
    far, and the record of [import(path)] calls and creator invocations. *)
Record Loader := {
  metadataCache : list (string * ToolMetadata);
  toolCache : gmap string nat;
  instances : list MCPTool;
  imported : list string;
  created : list string
}.

(** [Map.prototype.get] on the insertion-ordered entries. *)
Fixpoint map_get {V} (key : string) (entries : list (string * V)) : option V :=
  match entries with
  | [] => None
  | (k, v) :: rest => if decide (k = key) then Some v else map_get key rest
  end.

(** The test of [find] in [loadTool], line 503. *)
Definition is_creator (exp : Export) : bool :=
  match exp with
  | ExpFunction fname _ => String.prefix "create" fname
  | ExpValue => false
  end.

Section Loader.

(** [String.prototype.toLowerCase] and [String.prototype.localeCompare]
    (negative, zero or positive) of the host, and the module system:
    [import_module path] lists the exports of the file, or is [None] when
    the dynamic import is rejected. *)
Variable toLowerCase : string → string.
Variable localeCompare : string → string → Z.
Variable import_module : string → option (list Export).

(** The four [continue] tests of [searchTools], lines 535-553. *)
Definition skip_category (query : SearchQuery) (metadata : ToolMetadata) : bool :=
  match q_category query with
  | Some c => negb (String.eqb c "") && negb (String.eqb (category metadata) c)
  | None => false
  end.

Definition skip_detailLevel (query : SearchQuery) (metadata : ToolMetadata) : bool :=
  match q_detailLevel query with
  | Some d => negb (String.eqb d "") &&
              negb (bool_decide (detailLevel metadata = Some d))
  | None => false
  end.

Definition skip_tags (query : SearchQuery) (metadata : ToolMetadata) : bool :=
  match q_tags query with
  | Some (tag :: more) =>
      let toolTags := default [] (tags metadata) in
      let hasAllTags :=
        forallb (λ t, bool_decide (t ∈ toolTags)) (tag :: more) in
      negb hasAllTags
  | _ => false
  end.

Definition skip_namePattern (query : SearchQuery) (metadata : ToolMetadata) : bool :=
  match q_namePattern query with
  | Some p =>
      negb (String.eqb p "") &&
      (let pattern := toLowerCase p in
       negb (includes (toLowerCase (name metadata)) pattern) &&
       negb (includes (toLowerCase (description metadata)) pattern))
  | None => false
  end.

(** One iteration of the loop of [searchTools]. *)
Definition scan_entry (query : SearchQuery) (results : list ToolMetadata)
    (metadata : ToolMetadata) : list ToolMetadata :=
  if skip_category query metadata then results
  else if skip_detailLevel query metadata then results
  else if skip_tags query metadata then results
  else if skip_namePattern query metadata then results
  else results ++ [metadata].

(** The entry passes all four tests and reaches [results.push]. *)
Definition pushed (query : SearchQuery) (metadata : ToolMetadata) : bool :=
  negb (skip_category query metadata) &&
  negb (skip_detailLevel query metadata) &&
  negb (skip_tags query metadata) &&
  negb (skip_namePattern query metadata).

(** [results.sort((a, b) => a.name.localeCompare(b.name))].  The sort of
    an array is stable; a stable insertion sort gives the order any stable
    sort gives under a consistent comparator. *)
Fixpoint sort_insert (x : ToolMetadata) (sorted : list ToolMetadata)
  : list ToolMetadata :=
  match sorted with
  | [] => [x]
  | y :: rest =>
      if (localeCompare (name y) (name x) <=? 0)%Z
      then y :: sort_insert x rest
      else x :: sorted
  end.

Definition sort (results : list ToolMetadata) : list ToolMetadata :=
  foldl (λ sorted x, sort_insert x sorted) [] results.

(** [searchTools(query)], lines 532-558. *)
Definition searchTools (l : Loader) (query : SearchQuery) : list ToolMetadata :=
  sort (foldl (scan_entry query) [] ((metadataCache l).*2)).

(** [loadTool(toolName, logger)], lines 483-528.  The result is the
    reference of the tool instance, or [None] for [null]. *)
Definition loadTool (toolName : string) (l : Loader) : option nat * Loader :=
  match toolCache l !! toolName with
  | Some cached => (Some cached, l)
  | None =>
      match map_get toolName (metadataCache l) with
      | None => (None, l)
      | Some metadata =>
          let l1 := {| metadataCache := metadataCache l; toolCache := toolCache l;
                       instances := instances l;
                       imported := imported l ++ [filePath metadata];
                       created := created l |} in
          match import_module (filePath metadata) with
          | None => (None, l1)
          | Some exports =>
              match List.find is_creator exports with
              | Some (ExpFunction fname call) =>
                  let l2 := {| metadataCache := metadataCache l1;
                               toolCache := toolCache l1;
                               instances := instances l1;
                               imported := imported l1;
                               created := created l1 ++ [fname] |} in
                  match call with
                  | Creates tool =>
                      let r := length (instances l2) in
                      (Some r,
                       {| metadataCache := metadataCache l2;
                          toolCache := <[toolName := r]> (toolCache l2);
                          instances := instances l2 ++ [tool];
                          imported := imported l2;
                          created := created l2 |})
                  | CreatesNullish => (None, l2)
                  | CreatorThrows => (None, l2)
                  end
              | _ => (None, l1)
              end
          end
      end
  end.

(** What a query asks of an entry, in the words of the interface: a
    string filter is given when the field holds a non-empty string, a tag
    filter when it holds tags; every given filter must hold. *)
Definition satisfies (query : SearchQuery) (metadata : ToolMetadata) : Prop :=
  (∀ c, q_category query = Some c → c ≠ "" → category metadata = c) ∧
  (∀ d, q_detailLevel query = Some d → d ≠ "" →
        detailLevel metadata = Some d) ∧
  (∀ ts tag, q_tags query = Some ts → tag ∈ ts →
             tag ∈ default [] (tags metadata)) ∧
  (∀ p, q_namePattern query = Some p → p ≠ "" →
        occurs_in (toLowerCase p) (toLowerCase (name metadata)) ∨
        occurs_in (toLowerCase p) (toLowerCase (description metadata))).

(** The order of the names under the comparator. *)
Definition name_le (a b : ToolMetadata) : Prop :=
  (localeCompare (name a) (name b) <= 0)%Z.

(** [clearCache()], lines 586-591. *)
Definition clearCache (l : Loader) : Loader :=
  {| metadataCache := metadataCache l; toolCache := ∅;
     instances := instances l; imported := imported l; created := created l |}.

End Loader.

(** ** A host for the examples: ASCII lower-casing and comparison by code
    units. *)
Definition lower_ascii (c : ascii) : ascii :=
  let n := nat_of_ascii c in
  if (65 <=? n)%nat && (n <=? 90)%nat then ascii_of_nat (n + 32) else c.

Fixpoint ascii_toLowerCase (s : string) : string :=
  match s with
  | EmptyString => EmptyString
  | String c rest => String (lower_ascii c) (ascii_toLowerCase rest)
  end.

Definition codeunit_compare (a b : string) : Z :=
  match String.compare a b with
  | Lt => (-1)%Z
  | Eq => 0%Z
  | Gt => 1%Z
  end.

Definition status_metadata : ToolMetadata :=
  {| name := "system/status";
     description := "Get system health status and metrics";
     category := "system"; detailLevel := Some "standard";
     tags := None; filePath := "tools/system/status.js" |}.

Definition search_metadata : ToolMetadata :=
  {| name := "tools/search";
     description := "Search and discover tools with progressive disclosure";
     category := "system"; detailLevel := Some "standard";
     tags := Some ["discovery"; "search"; "tools"];
     filePath := "tools/system/search.js" |}.

Definition spawn_metadata : ToolMetadata :=
  {| name := "agents/spawn"; description := "Spawn a new agent";
     category := "agents"; detailLevel := Some "standard";
     tags := Some ["agents"; "search"]; filePath := "tools/agents/spawn.js" |}.

Definition sample_loader : Loader :=
  {| metadataCache := [("tools/search", search_metadata);
                       ("system/status", status_metadata);
                       ("agents/spawn", spawn_metadata)];
     toolCache := ∅; instances := []; imported := []; created := [] |}.

Definition status_tool : MCPTool :=
  {| tool_name := "system/status"; tool_description := "Get system health status";
     inputSchema := "{}"; outputSchema := None |}.

Definition sample_import (path : string) : option (list Export) :=
  if decide (path = "tools/system/status.js")
  then Some [ExpValue; ExpFunction "createSystemStatusTool" (Creates status_tool)]
  else None.

Definition system_query : SearchQuery :=
  {| q_category := Some "system"; q_tags := Some ["search"; "tools"];
     q_namePattern := Some "DISCOVER"; q_detailLevel := None |}.

End ToolLoader.

(* ===================================================================== *)
(** * Tool-call dispatch (server-mcp-2025.js)                              *)
(* ===================================================================== *)

Module Server.

Import JobManager.

Record Session := {
  clientId : string;
  s_version : string;
  s_capabilities : list string;
  isLegacy : bool
}.

(** A tool-call request in either shape: the modern fields and the legacy
    [name], [method] and [params]. *)
Record ToolCallRequest := {
  c_request_id : string;
  c_tool_id : option string;
  c_arguments : option Json;
  c_mode : option string;
  c_context : option Json;
  c_name : option string;
  c_method : option string;
  c_params : option Json
}.

(** The outcome of awaiting [tool.handler(args, context)]. *)
Inductive HandlerOutcome :=
| Resolves (v : Json)
| Rejects (msg : string).

(** A tool as the registry returns it. *)
Record Tool := {
  t_inputSchema : string;
  t_outputSchema : option string;
  handler : option Json → string → HandlerOutcome
}.

Record Validation := {
  valid : bool;
  errors : list string
}.

Inductive ToolCallResponse :=
| SyncResponse (request_id : string) (status : ResponseStatus) (result : Json)
    (duration_ms : Z)
| JobHandle (h : AsyncJobHandle)
| LegacyResponse (result : Json) (status : ResponseStatus).

(** The server state a tool call reads and writes: the sessions, the job
    manager ([None] when async jobs are disabled) and the validation
    switch. *)
Record MCP2025Server := {
  sessions : gmap string Session;
  jobManager : option Manager;
  validation_enabled : bool
}.

Definition with_jobManager (s : MCP2025Server) (m : Manager) : MCP2025Server :=
  {| sessions := sessions s; jobManager := Some m;
     validation_enabled := validation_enabled s |}.

(** [a || b] on optional strings. *)
Definition or_else (a b : option string) : option string :=
  match a with
  | Some s => if decide (s = "") then b else a
  | None => b
  end.

(** A string field that passes a truthiness test. *)
Definition present (a : option string) : option string := or_else a None.

Section Dispatch.

(** The tool registry ([toolRegistry.getTool]) and the schema validator
    ([validateInput] applied to the upgraded input schema) are
    collaborators of the dispatch.  Output validation only logs and is not
    part of the result. *)
Variable getTool : string → option Tool.
Variable validateInput : string → option Json → Validation.

(** [handleLegacyToolCall(request, sessionId)], lines 156-175. *)
Definition handleLegacyToolCall (request : ToolCallRequest) (sessionId : string)
  : Outcome ToolCallResponse :=
  let toolId := or_else (c_name request) (c_method request) in
  let args := match c_arguments request with
              | Some a => Some a
              | None => match c_params request with
                        | Some p => Some p
                        | None => Some "{}"
                        end
              end in
  match toolId ≫= getTool with
  | None => Throw ("Tool not found: " +:+ default "undefined" toolId)
  | Some tool =>
      match handler tool args sessionId with
      | Resolves v => Return (LegacyResponse v st_success)
      | Rejects msg => Throw msg
      end
  end.

(** [handleToolCall(request, sessionId)], lines 95-155.  [uuid] and the
    clock readings are consumed by whichever branch runs. *)
Definition handleToolCall (s : MCP2025Server) (request : ToolCallRequest)
    (sessionId : string) (uuid : string) (t0 t1 : Z)
  : Outcome ToolCallResponse * MCP2025Server :=
  let session := sessions s !! sessionId in
  if default false (isLegacy <$> session) then
    (handleLegacyToolCall request sessionId, s)
  else
    match present (c_tool_id request) with
    | None => (Throw "Missing tool_id in request", s)
    | Some tool_id =>
        match getTool tool_id with
        | None => (Throw ("Tool not found: " +:+ tool_id), s)
        | Some tool =>
            let validation := validateInput (t_inputSchema tool) (c_arguments request) in
            if validation_enabled s && negb (valid validation) then
              (Throw ("Invalid input: " +:+ String.concat ", " (errors validation)), s)
            else
              let hasAsyncCapability :=
                default false
                  ((λ sess, bool_decide ("async" ∈ s_capabilities sess)) <$> session) in
              let isAsyncRequest :=
                bool_decide (c_mode request = Some "async") && hasAsyncCapability in
              match isAsyncRequest, jobManager s with
              | true, Some m =>
                  let submitted :=
                    submitJob
                      {| req_request_id := c_request_id request;
                         req_tool_id := tool_id;
                         req_arguments := c_arguments request;
                         req_mode := c_mode request;
                         req_context := c_context request |}
                      uuid t0 t1 m in
                  (match submitted.1 with
                   | Return h => Return (JobHandle h)
                   | Throw msg => Throw msg
                   end, with_jobManager s submitted.2)
              | _, _ =>
                  match handler tool (c_arguments request) sessionId with
                  | Resolves result =>
                      (Return (SyncResponse (c_request_id request) st_success result
                                 (t1 - t0)%Z), s)
                  | Rejects msg => (Throw msg, s)
                  end
              end
        end
    end.

End Dispatch.

(** ** A sample server: one session that negotiated only [stream], one
    tool, async jobs enabled. *)
Definition echo_tool : Tool :=
  {| t_inputSchema := "{}"; t_outputSchema := None;
     handler := λ args _, Resolves (default "null" args) |}.

Definition sample_getTool (tool_id : string) : option Tool :=
  if decide (tool_id = "system/echo") then Some echo_tool else None.

Definition accept_all (schema : string) (input : option Json) : Validation :=
  {| valid := true; errors := [] |}.

Definition sample_server : MCP2025Server :=
  {| sessions := {[ "session-1" :=
                      {| clientId := "client-1"; s_version := "2025-11";
                         s_capabilities := ["stream"]; isLegacy := false |} ]};
     jobManager := Some (new_manager no_config);
     validation_enabled := true |}.

Definition async_request : ToolCallRequest :=
  {| c_request_id := "req-7"; c_tool_id := Some "system/echo";
     c_arguments := Some "{}"; c_mode := Some "async"; c_context := None;
     c_name := None; c_method := None; c_params := None |}.

End Server.

(* ===================================================================== *)
(** * Job manager: listing, the sweep and the shape of a step              *)
(* ===================================================================== *)

Module JobQueries.

Import JobManager.

(** The string a status is in the source. *)
Definition status_name (s : JobStatus) : string :=
  match s with
  | Queued => "queued"
  | Running => "running"
  | Success => "success"
  | Error => "error"
  | Cancelled => "cancelled"
  end.

(** The argument of [list(filter)]: both fields are optional. *)
Record ListFilter := {
  f_status : option string;
  f_limit : option Z
}.

(** [array.slice(0, n)] for an integer [n]: a negative [n] counts from
    the end. *)
Definition slice0 {A} (n : Z) (l : list A) : list A :=
  if (n <? 0)%Z then take (Z.to_nat (Z.of_nat (length l) + n)) l
  else take (Z.to_nat n) l.

(** [MemoryJobPersistence.list(filter)], lines 16-25, applied to
    [values = Array.from(this.jobs.values())].  The stored values are an
    argument because the persistence of this embedding does not keep the
    insertion order of the [Map]. *)
Definition list_jobs (flt : option ListFilter) (values : list Job) : list Job :=
  let jobs1 :=
    match flt ≫= f_status with
    | Some s =>
        if decide (s = "") then values
        else filter (λ j, status_name (status j) = s) values
    | None => values
    end in
  match flt ≫= f_limit with
  | Some n => if (n =? 0)%Z then jobs1 else slice0 n jobs1
  | None => jobs1
  end.

(** ** The sweep in closed form *)

(** [persistence.delete(id)] followed by [this.jobs.delete(id)]. *)
Definition delete_job (id : string) (m : Manager) : Manager :=
  {| heap := heap m; next_ref := next_ref m; jobs := delete id (jobs m);
     persistence := delete id (persistence m); config := config m |}.

Fixpoint remove_ids (ids : list string) (m : Manager) : Manager :=
  match ids with
  | [] => m
  | id :: rest => remove_ids rest (delete_job id m)
  end.

(** The persisted copies the sweep at time [now] selects. *)
Definition expired_jobs (now : Z) (m : Manager) : list Job :=
  filter (λ j, expired now (jobTTL (config m)) j = true)
         ((map_to_list (persistence m)).*2).

(** ** The shape of a step *)

(** What a method other than [submitJob] does to the one job it writes. *)
Inductive job_change (j : Job) : Job → Prop :=
| change_progress percent msg :
    job_change j (set_progress_message msg
                    (set_progress (Z.min 100 (Z.max 0 percent)) j))
| change_resolve v now :
    job_change j (set_completed_at now
                    (set_progress 100 (set_result v (set_status Success j))))
| change_reject e now :
    job_change j (set_completed_at now (set_error e (set_status Error j)))
| change_cancel now :
    status j ≠ Success → status j ≠ Error →
    job_change j (set_completed_at now (set_status Cancelled j)).

(** The manager after a [submitJob] below the ceiling. *)
Definition submitted (m : Manager) (request : MCPToolRequest) (uuid : string)
    (t_created t_started : Z) : Manager :=
  let job := set_started_at t_started
               (set_status Running (new_job request uuid t_created)) in
  {| heap := <[next_ref m := job]> (heap m); next_ref := S (next_ref m);
     jobs := <[uuid := next_ref m]> (jobs m);
     persistence := <[uuid := job]> (persistence m); config := config m |}.

(** Every step leaves the manager as it was, rewrites and saves one job
    object, adds a started job under an identifier of [ids], or deletes
    identifiers from both maps. *)
Inductive step_shape (ids : list string) (m : Manager) : Manager → Prop :=
| shape_same : step_shape ids m m
| shape_change r j j' :
    heap m !! r = Some j → job_change j j' → step_shape ids m (updated m r j')
| shape_submit request uuid t1 t2 :
    uuid ∈ ids → step_shape ids m (submitted m request uuid t1 t2)
| shape_sweep removed : step_shape ids m (remove_ids removed m).

(** ** Invariants of runs *)

(** What every job record of a run satisfies. *)
Definition well_formed (j : Job) : Prop :=
  (0 <= progress j <= 100)%Z ∧
  is_Some (started_at j) ∧
  (status j = Success → is_Some (result j) ∧ is_Some (completed_at j)) ∧
  (status j = Error → is_Some (error j) ∧ is_Some (completed_at j)) ∧
  (status j = Cancelled → is_Some (completed_at j)) ∧
  status j ≠ Queued.

Definition all_jobs (P : Job → Prop) (m : Manager) : Prop :=
  (∀ r j, heap m !! r = Some j → P j) ∧
  (∀ id j, persistence m !! id = Some j → P j).

(** Every copy is persisted under its own identifier. *)
Definition keyed (m : Manager) : Prop :=
  ∀ id j, persistence m !! id = Some j → job_id j = id.

(** The job map and the persistence agree: an identifier of [this.jobs]
    names an object of that identifier whose persisted copy is equal to
    it; distinct objects have distinct identifiers; references are below
    the allocation counter. *)
Definition in_sync (m : Manager) : Prop :=
  (∀ id r, jobs m !! id = Some r →
           ∃ j, heap m !! r = Some j ∧ job_id j = id ∧
                persistence m !! id = Some j) ∧
  (∀ r1 r2 j1 j2, heap m !! r1 = Some j1 → heap m !! r2 = Some j2 →
                  job_id j1 = job_id j2 → r1 = r2) ∧
  (∀ r j, heap m !! r = Some j → r < next_ref m).

(** A second job under the manager's first sample request. *)
Definition two_jobs_run : list Op :=
  [OpSubmit sample_request "job-1" 10 11;
   OpProgress 0 150 (Some "almost");
   OpSubmit sample_request "job-2" 12 13;
   OpResolve 0 "done" 30].

(** The executor of the first job reports 150 percent. *)
Definition overshoot_run : list Op :=
  [OpSubmit sample_request "job-1" 10 11; OpProgress 0 150 (Some "almost")].

(** A day and a half after [two_jobs_run]: job-1 has finished, job-2 is
    still running. *)
Definition sweep_time : Z := 129600000.

(** The first job of [two_jobs_run] at its end. *)
Definition finished_job : Job :=
  {| request_id := "req-1"; job_id := "job-1"; tool_id := "system/status";
     arguments := Some "{}"; mode := Some "async"; status := Success;
     progress := 100; progress_message := Some "almost"; context := None;
     created_at := 10; started_at := Some 11%Z; completed_at := Some 30%Z;
     result := Some "done"; error := None |}.

Definition running_filter : option ListFilter :=
  Some {| f_status := Some "running"; f_limit := Some 1%Z |}.

End JobQueries.

(* ===================================================================== *)
(** * Backward compatibility and the handshake                             *)
(* ===================================================================== *)

Module Compatibility.

Import VersionNegotiation.

(** The [capabilities] field of an incoming request: missing, an array, or
    some other value, of which only the truthiness matters. *)
Inductive CapabilitiesField :=
| caps_absent
| caps_array (caps : list string)
| caps_other (is_truthy : bool).

(** A handshake request as it arrives, in the legacy or the modern shape:
    the fields either shape may carry. *)
Record ClientRequest := {
  q_mcp_version : option string;
  q_version : option string;
  q_clientId : option string;
  q_client_id : option string;
  q_transport : option string;
  q_capabilities : CapabilitiesField;
  q_name : option string
}.

(** [isLegacyRequest(request)], lines 152-154, as a truth value. *)
Definition isLegacyRequest (request : ClientRequest) : bool :=
  negb (truthy (q_mcp_version request)) || truthy (q_version request).

(** [a || d] on an optional string. *)
Definition or_string (a : option string) (d : string) : string :=
  match a with
  | Some s => if String.eqb s "" then d else s
  | None => d
  end.

Record ConvertedHandshake := {
  handshake : Handshake;
  metadata_name : string;
  metadata_version : string
}.

(** [convertToModern(legacyRequest)], lines 155-167. *)
Definition convertToModern (legacyRequest : ClientRequest) : ConvertedHandshake :=
  {| handshake :=
       {| mcp_version := Some "2025-11";
          client_id := Some (or_string (q_clientId legacyRequest) "legacy-client");
          transport := Some (or_string (q_transport legacyRequest) "stdio");
          capabilities :=
            match q_capabilities legacyRequest with
            | caps_absent => Some []
            | caps_array caps => Some caps
            | caps_other true => None
            | caps_other false => Some []
            end |};
     metadata_name := or_string (q_name legacyRequest) "Legacy Client";
     metadata_version := or_string (q_version legacyRequest) "1.0.0" |}.

(** The request read as a modern handshake, when it is not converted. *)
Definition as_handshake (request : ClientRequest) : Handshake :=
  {| mcp_version := q_mcp_version request;
     client_id := q_client_id request;
     transport := q_transport request;
     capabilities :=
       match q_capabilities request with
       | caps_array caps => Some caps
       | _ => None
       end |}.

(** A response object: its own properties; a property may hold
    [undefined], which is [None]. *)
Definition get (response : gmap string (option string)) (key : string)
  : option string :=
  mjoin (response !! key).

(** [convertToLegacy(modernResponse, requestedLegacy)], lines 168-179: the
    spread of the modern response comes last and wins. *)
Definition convertToLegacy (modernResponse : gmap string (option string))
    (requestedLegacy : bool) : gmap string (option string) :=
  if negb requestedLegacy then modernResponse
  else
    modernResponse ∪
    <["version" := get modernResponse "mcp_version"]>
      (<["serverId" := get modernResponse "server_id"]>
         (<["capabilities" := get modernResponse "capabilities"]> ∅)).

(** Runtime changes of the advertised capabilities. *)
Inductive CapabilityChange :=
| Add (capability : string)
| Remove (capability : string).

Definition change (n : VersionNegotiator) (c : CapabilityChange) : VersionNegotiator :=
  match c with
  | Add capability => addCapability n capability
  | Remove capability => removeCapability n capability
  end.

Definition changes (cs : list CapabilityChange) (n : VersionNegotiator)
  : VersionNegotiator :=
  foldl change n cs.

(** The version string holds a dash. *)
Fixpoint has_dash (v : string) : bool :=
  match v with
  | EmptyString => false
  | String c rest => Ascii.eqb c "-" || has_dash rest
  end.

(** Sample requests. *)
Definition legacy_request : ClientRequest :=
  {| q_mcp_version := None; q_version := Some "1.2.0";
     q_clientId := Some "old-cli"; q_client_id := None;
     q_transport := None; q_capabilities := caps_array ["stream"; "tools"];
     q_name := None |}.

Definition odd_legacy_request : ClientRequest :=
  {| q_mcp_version := None; q_version := Some "1.2.0";
     q_clientId := None; q_client_id := None;
     q_transport := None; q_capabilities := caps_other true;
     q_name := None |}.

Definition modern_request : ClientRequest :=
  {| q_mcp_version := Some "2025-11"; q_version := None;
     q_clientId := None; q_client_id := Some "client-9";
     q_transport := Some "http"; q_capabilities := caps_array ["stream"];
     q_name := None |}.

Definition latest_client : Handshake :=
  {| mcp_version := Some "latest"; transport := Some "stdio";
     capabilities := Some ["async"]; client_id := None |}.

End Compatibility.

Module Handshaking.

Import JobManager Server VersionNegotiation Compatibility.

Record ServerHandshake := {
  sh_mcp_version : string;
  sh_server_id : string;
  sh_transport : string;
  sh_capabilities : list string;
  sh_name : string;
  sh_version : string;
  sh_description : string
}.

(** [createServerHandshake(serverId, transport, metadata)], lines 109-117
    of the negotiator. *)
Definition createServerHandshake (n : VersionNegotiator) (serverId transport : string)
    (name version description : string) : ServerHandshake :=
  {| sh_mcp_version := serverVersion n; sh_server_id := serverId;
     sh_transport := transport; sh_capabilities := serverCapabilities n;
     sh_name := name; sh_version := version; sh_description := description |}.

(** [handleHandshake(clientHandshake, sessionId)], lines 59-94 of the
    server.  The negotiator and the configuration fields it reads
    ([supportLegacyClients], [serverId], [transport]) are arguments. *)
Definition handleHandshake (n : VersionNegotiator) (supportLegacyClients : bool)
    (serverId transport : string) (s : MCP2025Server)
    (clientHandshake : ClientRequest) (sessionId : string)
  : Outcome ServerHandshake * MCP2025Server :=
  let isLegacy := isLegacyRequest clientHandshake in
  let handshake :=
    if isLegacy && supportLegacyClients
    then Compatibility.handshake (convertToModern clientHandshake)
    else as_handshake clientHandshake in
  let negotiation := negotiate n handshake in
  if negb (success negotiation) then
    (Throw ("Version negotiation failed: " +:+
            default "undefined" (VersionNegotiation.error negotiation)), s)
  else
    let serverHandshake :=
      createServerHandshake n serverId transport "Claude Flow" "2.7.32"
        "Enterprise AI orchestration with MCP 2025-11 support" in
    (Return {| sh_mcp_version := agreed_version negotiation;
               sh_server_id := sh_server_id serverHandshake;
               sh_transport := sh_transport serverHandshake;
               sh_capabilities := agreed_capabilities negotiation;
               sh_name := sh_name serverHandshake;
               sh_version := sh_version serverHandshake;
               sh_description := sh_description serverHandshake |},
     {| sessions :=
          <[sessionId :=
              {| clientId := or_string (client_id handshake) "unknown";
                 s_version := agreed_version negotiation;
                 s_capabilities := agreed_capabilities negotiation;
                 isLegacy := isLegacy |}]> (sessions s);
        jobManager := jobManager s;
        validation_enabled := validation_enabled s |}).

(** The wrappers [pollJob], [resumeJob] and [cancelJob] of the server,
    lines 176-193. *)
Definition with_manager {A} (s : MCP2025Server) (call : Eff A)
  : Outcome A * MCP2025Server :=
  match jobManager s with
  | None => (Throw "Async jobs not enabled", s)
  | Some m => ((call m).1, with_jobManager s (call m).2)
  end.

Definition server_pollJob (s : MCP2025Server) (job_id : string) :=
  with_manager s (pollJob job_id).

Definition server_resumeJob (s : MCP2025Server) (job_id : string) :=
  with_manager s (resumeJob job_id).

Definition server_cancelJob (s : MCP2025Server) (job_id : string) (now : Z) :=
  with_manager s (cancelJob job_id now).

(** A server without sessions, with the job manager of the default
    configuration. *)
Definition empty_server : MCP2025Server :=
  {| sessions := ∅; jobManager := Some (new_manager no_config);
     validation_enabled := true |}.

Definition async_session_server : MCP2025Server :=
  {| sessions := {[ "session-2" :=
                      {| clientId := "client-2"; s_version := "2025-11";
                         s_capabilities := ["async"]; isLegacy := false |} ]};
     jobManager := Some (new_manager no_config);
     validation_enabled := true |}.

Definition no_jobs_server : MCP2025Server :=
  {| sessions := sessions async_session_server; jobManager := None;
     validation_enabled := false |}.

Definition legacy_session_server : MCP2025Server :=
  {| sessions := {[ "session-3" :=
                      {| clientId := "old-cli"; s_version := "2025-11";
                         s_capabilities := []; isLegacy := true |} ]};
     jobManager := Some (new_manager no_config);
     validation_enabled := true |}.

Definition legacy_call : ToolCallRequest :=
  {| c_request_id := "req-9"; c_tool_id := None;
     c_arguments := None; c_mode := Some "async"; c_context := None;
     c_name := None; c_method := Some "system/echo"; c_params := Some "[1]" |}.

Definition reject_all (schema : string) (input : option Json) : Validation :=
  {| valid := false; errors := ["bad input"] |}.

End Handshaking.

(* ===================================================================== *)
(** * Tool loader: scanning, statistics and reloading                      *)
(* ===================================================================== *)

Module ToolCatalog.

Import ToolLoader.

(** A directory entry read with [withFileTypes]. *)
Record Dirent := {
  d_name : string;
  d_isDirectory : bool
}.

(** The loader with the fields [scanTools] adds to the picture. *)
Record ScanLoader := {
  loader : Loader;
  toolsDir : string;
  scanComplete : bool
}.

(** [Map.prototype.set] on the insertion-ordered entries: a present key
    keeps its place. *)
Fixpoint map_set {V} (key : string) (v : V) (entries : list (string * V))
  : list (string * V) :=
  match entries with
  | [] => [(key, v)]
  | (k, x) :: rest =>
      if decide (k = key) then (k, v) :: rest else (k, x) :: map_set key v rest
  end.

Definition with_metadata (l : Loader) (entries : list (string * ToolMetadata))
  : Loader :=
  {| metadataCache := entries; toolCache := toolCache l;
     instances := instances l; imported := imported l; created := created l |}.

Definition with_import (l : Loader) (path : string) : Loader :=
  {| metadataCache := metadataCache l; toolCache := toolCache l;
     instances := instances l; imported := imported l ++ [path];
     created := created l |}.

(** A name that starts with an underscore. *)
Definition hidden (name : string) : bool := String.prefix "_" name.

Section Scan.

(** The file system and the module system: [readdir] of the tools
    directory with file types and of a category directory ([None] when it
    throws), [path.join] and [path.extname], and the [toolMetadata] export
    of a file ([None] when the import is rejected, [Some None] when the
    module has no such export). *)
Variable readdir_entries : string → option (list Dirent).
Variable readdir_names : string → option (list string).
Variable join : string → string → string.
Variable extname : string → string.
Variable import_toolMetadata : string → option (option ToolMetadata).

(** The test of [validToolFiles], lines 426-429. *)
Definition valid_tool_file (f : string) : bool :=
  let ext := extname f in
  (String.eqb ext ".ts" || String.eqb ext ".js") && negb (hidden f).

(** The body of the inner loop, lines 431-458. *)
Definition scan_file (category categoryPath : string) (l : Loader)
    (toolFile : string) : Loader :=
  let toolPath := join categoryPath toolFile in
  let l1 := with_import l toolPath in
  match import_toolMetadata toolPath with
  | Some (Some exported) =>
      let metadata :=
        {| name := name exported; description := description exported;
           category := category; detailLevel := detailLevel exported;
           tags := tags exported; filePath := toolPath |} in
      with_metadata l1 (map_set (name metadata) metadata (metadataCache l1))
  | Some None => l1
  | None => l1
  end.

(** The body of the outer loop, lines 422-465. *)
Definition scan_category (dir : string) (l : Loader) (categoryEntry : Dirent)
  : Loader :=
  let category := d_name categoryEntry in
  let categoryPath := join dir category in
  match readdir_names categoryPath with
  | Some toolFiles =>
      foldl (scan_file category categoryPath) l (List.filter valid_tool_file toolFiles)
  | None => l
  end.

(** [scanTools()], lines 406-482: the result is the metadata cache. *)
Definition scanTools (sl : ScanLoader)
  : JobManager.Outcome (list (string * ToolMetadata)) * ScanLoader :=
  if scanComplete sl then (JobManager.Return (metadataCache (loader sl)), sl)
  else
    match readdir_entries (toolsDir sl) with
    | None => (JobManager.Throw "readdir failed", sl)
    | Some entries =>
        let categories :=
          List.filter (λ e, d_isDirectory e && negb (hidden (d_name e))) entries in
        let l' := foldl (scan_category (toolsDir sl)) (loader sl) categories in
        (JobManager.Return (metadataCache l'),
         {| loader := l'; toolsDir := toolsDir sl; scanComplete := true |})
    end.

(** What the scan of the directory [dir] with the entries [entries]
    guarantees of a cache entry. *)
Definition scanned_entry (dir : string) (entries : list Dirent)
    (kv : string * ToolMetadata) : Prop :=
  kv.1 = name kv.2 ∧
  (∃ e, e ∈ entries ∧ d_isDirectory e = true ∧ hidden (d_name e) = false ∧
        category kv.2 = d_name e) ∧
  (∃ f exported,
     filePath kv.2 = join (join dir (category kv.2)) f ∧
     hidden f = false ∧ (extname f = ".ts" ∨ extname f = ".js") ∧
     import_toolMetadata (filePath kv.2) = Some (Some exported) ∧
     name exported = name kv.2 ∧ description exported = description kv.2 ∧
     tags exported = tags kv.2 ∧ detailLevel exported = detailLevel kv.2).

(** What a scan never changes: the loaded tools. *)
Definition same_tools (l l' : Loader) : Prop :=
  toolCache l' = toolCache l ∧ instances l' = instances l ∧ created l' = created l.

(** [reload()], lines 592-598. *)
Definition reload (sl : ScanLoader)
  : JobManager.Outcome unit * ScanLoader :=
  let cleared :=
    {| loader := {| metadataCache := []; toolCache := ∅;
                    instances := instances (loader sl);
                    imported := imported (loader sl);
                    created := created (loader sl) |};
       toolsDir := toolsDir sl; scanComplete := false |} in
  match scanTools cleared with
  | (JobManager.Return _, sl') => (JobManager.Return tt, sl')
  | (JobManager.Throw msg, sl') => (JobManager.Throw msg, sl')
  end.

End Scan.

(** ** Names and statistics *)

(** [Array.prototype.sort()] on strings: ascending by code units. *)
Fixpoint insert_string (x : string) (sorted : list string) : list string :=
  match sorted with
  | [] => [x]
  | y :: rest =>
      if String.leb y x then y :: insert_string x rest else x :: sorted
  end.

Definition sort_strings (l : list string) : list string :=
  foldl (λ sorted x, insert_string x sorted) [] l.

(** [getToolMetadata(toolName)] and [getAllToolNames()], lines 529-531 and
    559-561. *)
Definition getToolMetadata (l : Loader) (toolName : string) : option ToolMetadata :=
  map_get toolName (metadataCache l).

Definition getAllToolNames (l : Loader) : list string :=
  sort_strings ((metadataCache l).*1).

(** One iteration of [getToolsByCategory]: [has], [set] of an empty array,
    [get] and [push]. *)
Fixpoint push_to_category (category : string) (metadata : ToolMetadata)
    (byCategory : list (string * list ToolMetadata))
  : list (string * list ToolMetadata) :=
  match byCategory with
  | [] => [(category, [metadata])]
  | (c, tools) :: rest =>
      if decide (c = category) then (c, tools ++ [metadata]) :: rest
      else (c, tools) :: push_to_category category metadata rest
  end.

(** [getToolsByCategory()], lines 562-572. *)
Definition getToolsByCategory (l : Loader) : list (string * list ToolMetadata) :=
  foldl (λ byCategory metadata,
           push_to_category (category metadata) metadata byCategory)
        [] ((metadataCache l).*2).

Record LoaderStats := {
  totalTools : nat;
  cachedTools : nat;
  categories : list string;
  toolsByCategory : gmap string nat;
  stats_scanComplete : bool
}.

(** [getStats()], lines 573-585. *)
Definition getStats (sl : ScanLoader) : LoaderStats :=
  let byCategory := getToolsByCategory (loader sl) in
  {| totalTools := length (metadataCache (loader sl));
     cachedTools := size (toolCache (loader sl));
     categories := sort_strings (byCategory.*1);
     toolsByCategory :=
       list_to_map (map (λ '(cat, tools), (cat, length tools)) byCategory);
     stats_scanComplete := scanComplete sl |}.

(** The entries of a category, in the order of the cache. *)
Definition in_category (c : string) (values : list ToolMetadata) : list ToolMetadata :=
  filter (λ metadata, category metadata = c) values.

(** The groups are those of [values]: one for each category that occurs,
    holding its entries. *)
Definition grouped (values : list ToolMetadata)
    (groups : list (string * list ToolMetadata)) : Prop :=
  NoDup groups.*1 ∧
  ∀ c, map_get c groups =
         if decide (in_category c values = []) then None
         else Some (in_category c values).

Section Loading.
Variable import_module : string → option (list Export).

(** Loads one after the other. *)
Definition load_all (names : list string) (l : Loader) : Loader :=
  foldl (λ acc toolName, (loadTool import_module toolName acc).2) l names.

End Loading.

(** ** A sample tools directory *)

Definition sample_entries (dir : string) : option (list Dirent) :=
  if decide (dir = "tools")
  then Some [ {| d_name := "system"; d_isDirectory := true |};
              {| d_name := "_internal"; d_isDirectory := true |};
              {| d_name := "README.md"; d_isDirectory := false |};
              {| d_name := "agents"; d_isDirectory := true |} ]
  else None.

Definition sample_names (dir : string) : option (list string) :=
  if decide (dir = "tools/system")
  then Some ["status.js"; "_template.js"; "search.js"; "notes.txt"]
  else None.

Definition sample_join (a b : string) : string := a +:+ "/" +:+ b.

(** The extension of a plain file name: from its last dot, when that dot
    is not the first character. *)
Fixpoint last_dot_suffix (s : string) : option string :=
  match s with
  | EmptyString => None
  | String c rest =>
      match last_dot_suffix rest with
      | Some ext => Some ext
      | None => if Ascii.eqb c "." then Some s else None
      end
  end.

Definition sample_extname (f : string) : string :=
  match f with
  | EmptyString => ""
  | String c rest => default "" (last_dot_suffix rest)
  end.

Definition sample_toolMetadata (path : string) : option (option ToolMetadata) :=
  if decide (path = "tools/system/status.js") then
    Some (Some {| name := "system/status";
                  description := "Get system health status and metrics";
                  category := "declared"; detailLevel := Some "standard";
                  tags := None; filePath := "" |})
  else if decide (path = "tools/system/search.js") then Some None
  else None.

Definition fresh_loader : ScanLoader :=
  {| loader := {| metadataCache := []; toolCache := ∅; instances := [];
                  imported := []; created := [] |};
     toolsDir := "tools"; scanComplete := false |}.

Definition scanned_loader : ScanLoader :=
  {| loader := sample_loader; toolsDir := "tools"; scanComplete := true |}.

End ToolCatalog.


(* ========================================================================= *)
(** * The search tool

    [src/dist-cjs/src/mcp/tools/system/search.js]: the handler of the
    tool [tools/search] made by [createSearchToolsTool(loader, logger)],
    lines 133-209. *)
(* ========================================================================= *)

Module SearchTool.
Import ToolLoader ToolCatalog.

(** The input of the handler.  [limit] is an integer here. *)
Record SearchInput := {
  i_query : option string;
  i_category : option string;
  i_tags : option (list string);
  i_detailLevel : option string;
  i_limit : option Z
}.

(** One element of [results], by the three object shapes the loop
    pushes.  The field [examples] of the third shape is read from
    [tool.metadata], which [MCPTool] does not carry, and is left out. *)
Inductive SearchResult :=
| NameOnly (r_name : string)
| Basic (r_name r_description r_category : string)
        (r_tags : option (list string))
| Full (r_name r_description r_category : string)
       (r_tags : option (list string)) (r_inputSchema : string).

Definition result_name (r : SearchResult) : string :=
  match r with
  | NameOnly n => n
  | Basic n _ _ _ => n
  | Full n _ _ _ _ => n
  end.

(** The value returned, without [tokenSavings], which is computed from the
    length of [JSON.stringify(results)]. *)
Record SearchResponse := {
  success : bool;
  tools : list SearchResult;
  totalMatches : nat;
  r_detailLevel : string
}.

(** [validatedInput.limit || 20]. *)
Definition limit_or_20 (limit : option Z) : Z :=
  match limit with
  | Some n => if (n =? 0)%Z then 20%Z else n
  | None => 20%Z
  end.

Section Handler.
Variable toLowerCase : string → string.
Variable localeCompare : string → string → Z.
Variable import_module : string → option (list Export).

(** The query handed to [loader.searchTools], lines 144-148. *)
Definition search_query (input : SearchInput) : SearchQuery :=
  {| q_category := i_category input; q_tags := i_tags input;
     q_namePattern := i_query input; q_detailLevel := None |}.

(** The body of the loop, lines 156-179. *)
Definition push_result (detail : string)
    (acc : list SearchResult * Loader) (meta : ToolMetadata) :
    list SearchResult * Loader :=
  let '(results, l) := acc in
  if decide (detail = "names-only") then (results ++ [NameOnly (name meta)], l)
  else if decide (detail = "basic") then
    (results ++ [Basic (name meta) (description meta) (category meta) (tags meta)], l)
  else if decide (detail = "full") then
    match loadTool import_module (name meta) l with
    | (Some ref, l') =>
        match instances l' !! ref with
        | Some tool =>
            (results ++ [Full (tool_name tool) (tool_description tool)
                              (category meta) (tags meta) (inputSchema tool)], l')
        | None => (results, l')
        end
    | (None, l') => (results, l')
    end
  else (results, l).

Definition handler (input : SearchInput) (l : Loader) : SearchResponse * Loader :=
  let detail := JobManager.str_or (i_detailLevel input) "basic" in
  let limit := limit_or_20 (i_limit input) in
  let metadata := searchTools toLowerCase localeCompare l (search_query input) in
  let limitedMetadata := JobQueries.slice0 limit metadata in
  let '(results, l') := foldl (push_result detail) ([], l) limitedMetadata in
  ({| success := true; tools := results; totalMatches := length metadata;
      r_detailLevel := detail |}, l').

(** What a load of [toolName] would import and create: the first
    exported function, when calling it gives a tool. *)
Definition creator_of (l : Loader) (toolName : string) : option (string * MCPTool) :=
  metadata ← map_get toolName (metadataCache l);
  exports ← import_module (filePath metadata);
  match find is_creator exports with
  | Some (ExpFunction fname (Creates tool)) => Some (fname, tool)
  | _ => None
  end.

(** Every reference in the tool cache is that of an instance. *)
Definition refs_valid (l : Loader) : Prop :=
  ∀ toolName ref, toolCache l !! toolName = Some ref → ref < length (instances l).

(** The instance a name is cached under, if any. *)
Definition cached_tool (l : Loader) (toolName : string) : option MCPTool :=
  toolCache l !! toolName ≫= λ ref, instances l !! ref.

(** The element pushed for [meta] at level [full], given the loader after
    the load. *)
Definition full_result (l : Loader) (meta : ToolMetadata) : option SearchResult :=
  tool ← cached_tool l (name meta);
  Some (Full (tool_name tool) (tool_description tool) (category meta) (tags meta)
             (inputSchema tool)).

End Handler.

(** ** Sample inputs *)

Definition names_input : SearchInput :=
  {| i_query := None; i_category := Some "system"; i_tags := None;
     i_detailLevel := Some "names-only"; i_limit := Some 1%Z |}.

Definition full_input : SearchInput :=
  {| i_query := None; i_category := Some "system"; i_tags := None;
     i_detailLevel := Some "full"; i_limit := None |}.

End SearchTool.

(* ========================================================================= *)
(** * The cache of compiled schemas

    [src/unnamed/part_004] ([schema-validator-2025.js]): the class
    [SchemaValidator], whose [validateInput] the server calls before it
    dispatches a tool call.  [getValidator], lines 90-110, and
    [cleanupCache], lines 156-171, with [clearCache]. *)
(* ========================================================================= *)

Module SchemaValidation.

Section Cache.
Context {Schema Validator : Type}.

(** [JSON.stringify(schema)], the key of the cache. *)
Variable stringify : Schema → string.

(** An entry of [schemaCache]; [timestamp] is a reading of [Date.now()]. *)
Record CacheEntry := {
  schema : Schema;
  validate : Validator;
  timestamp : Z
}.

(** [schemaCache], from [JSON.stringify(schema)] to the entry. *)
#[local] Abbreviation SchemaCache := (gmap string CacheEntry).

(** [cacheTTL = 3600000]. *)
Definition cacheTTL : Z := 3600000.

(** Lines 96-109: [compiled] is the outcome of [this.ajv.compile(schema)],
    [None] when it throws; the error is logged and thrown again, which is
    the result [None] here. *)
Definition compile_and_store (compiled : option Validator) (t_set : Z)
    (s : Schema) (cache : SchemaCache) : option Validator * SchemaCache :=
  match compiled with
  | Some v =>
      (Some v, <[stringify s := {| schema := s; validate := v; timestamp := t_set |}]> cache)
  | None => (None, cache)
  end.

(** [getValidator(schema)].  [t_check] is the reading of [Date.now()] in
    the test of line 93 and [t_set] the one of line 101. *)
Definition getValidator (compiled : option Validator) (t_check t_set : Z)
    (s : Schema) (cache : SchemaCache) : option Validator * SchemaCache :=
  match cache !! stringify s with
  | Some cached =>
      if (t_check - timestamp cached <? cacheTTL)%Z then (Some (validate cached), cache)
      else compile_and_store compiled t_set s cache
  | None => compile_and_store compiled t_set s cache
  end.

(** [cleanupCache()]: the loop over the entries, which deletes the
    entries older than [cacheTTL] and counts them.  The number and the
    cache left do not depend on the order of the iteration. *)
Definition cleanup_entry (now : Z) (key : string) (entry : CacheEntry)
    (acc : nat * SchemaCache) : nat * SchemaCache :=
  if (cacheTTL <? now - timestamp entry)%Z then (S acc.1, delete key acc.2)
  else acc.

Definition cleanupCache (now : Z) (cache : SchemaCache) : nat * SchemaCache :=
  map_fold (cleanup_entry now) (0, cache) cache.

(** [clearCache()]. *)
Definition clearCache (cache : SchemaCache) : SchemaCache := ∅.

(** The tests of lines 93 and 160 on an entry. *)
Definition served (now : Z) (entry : CacheEntry) : Prop :=
  (now - timestamp entry < cacheTTL)%Z.

Definition stale (now : Z) (entry : CacheEntry) : Prop :=
  (cacheTTL < now - timestamp entry)%Z.

#[export] Instance served_dec now entry : Decision (served now entry) :=
  Z_lt_dec (now - timestamp entry) cacheTTL.

#[export] Instance stale_dec now entry : Decision (stale now entry) :=
  Z_lt_dec cacheTTL (now - timestamp entry).

End Cache.

(** ** A sample cache: schemas as their JSON text, validators by number *)

Definition sample_stringify (s : string) : string := s.

Definition sample_cache : gmap string (@CacheEntry string nat) :=
  (getValidator sample_stringify (Some 7) 0 1000 "{}" ∅).2.

End SchemaValidation.
(* ===================================================================== *)
(** * Properties of the job manager                                        *)
(* ===================================================================== *)

Module JobManagerProps.

Import JobManager.

Ltac eff_unfold :=
  unfold executeJob_start, executeJob_resolve, executeJob_reject, onProgress,
    cancelJob, pollJob, resumeJob, submitJob, submitJob_persist,
    submitJob_register, submitJob_handle,
    bind, ret, throw, get_manager, alloc, deref, assign, jobs_get, jobs_set,
    jobs_delete, persistence_save, persistence_load, persistence_delete,
    persistence_list; simpl.

Ltac eff_step :=
  repeat (first [ rewrite lookup_insert_eq | rewrite insert_insert_eq ]; simpl).

Lemma executeJob_start_eq m r j now :
  heap m !! r = Some j →
  executeJob_start r now m =
    (Return tt, updated m r (set_started_at now (set_status Running j))).
Proof.
  intros Hj. eff_unfold. rewrite Hj; simpl. eff_step. reflexivity.
Qed.

Lemma onProgress_eq m r j percent msg :
  heap m !! r = Some j →
  onProgress r percent msg m =
    (Return tt,
     updated m r (set_progress_message msg
                    (set_progress (Z.min 100 (Z.max 0 percent)) j))).
Proof.
  intros Hj. eff_unfold. rewrite Hj; simpl. eff_step. reflexivity.
Qed.

Lemma executeJob_resolve_eq m r j v now :
  heap m !! r = Some j →
  executeJob_resolve r v now m =
    (Return tt,
     updated m r (set_completed_at now
                    (set_progress 100 (set_result v (set_status Success j))))).
Proof.
  intros Hj. eff_unfold. rewrite Hj; simpl. eff_step. reflexivity.
Qed.

Lemma executeJob_reject_eq m r j e now :
  heap m !! r = Some j →
  executeJob_reject r e now m =
    (Return tt,
     updated m r (set_completed_at now (set_error e (set_status Error j)))).
Proof.
  intros Hj. eff_unfold. rewrite Hj; simpl. eff_step. reflexivity.
Qed.

Lemma cancelJob_unknown m id now :
  jobs m !! id = None → cancelJob id now m = (Return false, m).
Proof. intros Hid. eff_unfold. rewrite Hid. reflexivity. Qed.

Lemma cancelJob_finished m id r j now :
  jobs m !! id = Some r → heap m !! r = Some j →
  status j = Success ∨ status j = Error →
  cancelJob id now m = (Return false, m).
Proof.
  intros Hid Hj Hst. eff_unfold. rewrite Hid; simpl. rewrite Hj; simpl.
  destruct (decide _) as [_|Hn]; [reflexivity | tauto].
Qed.

Lemma cancelJob_effective m id r j now :
  jobs m !! id = Some r → heap m !! r = Some j →
  status j ≠ Success → status j ≠ Error →
  cancelJob id now m =
    (Return true, updated m r (set_completed_at now (set_status Cancelled j))).
Proof.
  intros Hid Hj Hs He. eff_unfold. rewrite Hid; simpl. rewrite Hj; simpl.
  destruct (decide _) as [[?|?]|_]; [tauto | tauto |].
  rewrite Hj; simpl. eff_step. reflexivity.
Qed.

(** ** A small program logic for invariants of runs *)

Section Keeps.
Context (ids : string → Prop) (c0 : Config).

Lemma keeps_ret {A} (a : A) (Q : A → Prop) : Q a → keeps ids c0 (ret a) Q.
Proof. intros HQ m Hm; split; [exact Hm | intros a' [= <-]; exact HQ]. Qed.

Lemma keeps_throw {A} msg (Q : A → Prop) : keeps ids c0 (throw msg) Q.
Proof. intros m Hm; split; [exact Hm | intros a' [=]]. Qed.

Lemma keeps_bind {A B} (c : Eff A) (k : A → Eff B) (Q : A → Prop) (R : B → Prop) :
  keeps ids c0 c Q → (∀ a, Q a → keeps ids c0 (k a) R) →
  keeps ids c0 (bind c k) R.
Proof.
  intros Hc Hk m Hm. unfold bind.
  destruct (Hc m Hm) as [Hinv Hres].
  destruct (c m) as [[a|msg] m']; simpl in *.
  - apply Hk; [apply Hres; reflexivity | exact Hinv].
  - split; [exact Hinv | intros ? [=]].
Qed.

Lemma keeps_weaken {A} (c : Eff A) (Q R : A → Prop) :
  keeps ids c0 c Q → (∀ a, Q a → R a) → keeps ids c0 c R.
Proof.
  intros Hc HQR m Hm. destruct (Hc m Hm) as [? Hres].
  split; [assumption | intros a Ha; apply HQR, Hres, Ha].
Qed.

Lemma keeps_get_manager :
  keeps ids c0 get_manager (λ m, config m = c0).
Proof.
  intros m Hm; split; [exact Hm | intros a [= <-]; apply Hm].
Qed.

Lemma keeps_deref r : keeps ids c0 (deref r) (λ j, ids (job_id j)).
Proof.
  intros m Hm. unfold deref.
  destruct (heap m !! r) as [j|] eqn:Hj; simpl;
    (split; [exact Hm|]); [intros a [= <-] | intros a [=]].
  destruct Hm as (_ & _ & Hh & _). eapply Hh, Hj.
Qed.

Lemma keeps_alloc j : ids (job_id j) → keeps ids c0 (alloc j) (λ _, True).
Proof.
  intros Hid m (Hj & Hp & Hh & Hc). split; [|done].
  unfold alloc; simpl. repeat split; simpl; try assumption.
  intros r j'. rewrite lookup_insert. case_decide.
  - intros [= <-]; exact Hid.
  - apply Hh.
Qed.

Lemma keeps_assign r f :
  (∀ j, job_id (f j) = job_id j) → keeps ids c0 (assign r f) (λ _, True).
Proof.
  intros Hf m Hm. split; [|done]. unfold assign.
  destruct (heap m !! r) as [j|] eqn:Hj; simpl; [|exact Hm].
  destruct Hm as (Hjobs & Hp & Hh & Hc). repeat split; simpl; try assumption.
  intros r' j'. rewrite lookup_insert. case_decide.
  - intros [= <-]. rewrite Hf. eapply Hh, Hj.
  - apply Hh.
Qed.

Lemma keeps_jobs_get id : keeps ids c0 (jobs_get id) (λ _, True).
Proof. intros m Hm; split; [exact Hm | done]. Qed.

Lemma keeps_jobs_set id r : ids id → keeps ids c0 (jobs_set id r) (λ _, True).
Proof.
  intros Hid m (Hjobs & Hp & Hh & Hc). split; [|done].
  unfold jobs_set; repeat split; simpl; try assumption.
  intros id' r'. rewrite lookup_insert. case_decide.
  - intros _; subst; exact Hid.
  - apply Hjobs.
Qed.

Lemma keeps_jobs_delete id : keeps ids c0 (jobs_delete id) (λ _, True).
Proof.
  intros m (Hjobs & Hp & Hh & Hc). split; [|done].
  unfold jobs_delete; repeat split; simpl; try assumption.
  intros id' r' Hl. apply lookup_delete_Some in Hl as [_ Hl]. eapply Hjobs, Hl.
Qed.

Lemma keeps_persistence_save r : keeps ids c0 (persistence_save r) (λ _, True).
Proof.
  intros m Hm. split; [|done]. unfold persistence_save.
  destruct (heap m !! r) as [j|] eqn:Hj; simpl; [|exact Hm].
  destruct Hm as (Hjobs & Hp & Hh & Hc). repeat split; simpl; try assumption.
  intros id' j'. rewrite lookup_insert. case_decide.
  - intros _; subst. eapply Hh, Hj.
  - apply Hp.
Qed.

Lemma keeps_persistence_load id : keeps ids c0 (persistence_load id) (λ _, True).
Proof. intros m Hm; split; [exact Hm | done]. Qed.

Lemma keeps_persistence_delete id :
  keeps ids c0 (persistence_delete id) (λ _, True).
Proof.
  intros m (Hjobs & Hp & Hh & Hc). split; [|done].
  unfold persistence_delete; repeat split; simpl; try assumption.
  intros id' j' Hl. apply lookup_delete_Some in Hl as [_ Hl]. eapply Hp, Hl.
Qed.

Lemma keeps_persistence_list : keeps ids c0 persistence_list (λ _, True).
Proof. intros m Hm; split; [exact Hm | done]. Qed.

End Keeps.

(** ** Every method keeps the identifiers within the submitted ones *)

Ltac keeps_step :=
  lazymatch goal with
  | |- keeps _ _ (bind _ _) _ => eapply keeps_bind; [| intros ? ?]
  | |- keeps _ _ (assign _ _) _ => apply keeps_assign; intros ?; reflexivity
  | |- keeps _ _ (persistence_save _) _ => apply keeps_persistence_save
  | |- keeps _ _ (persistence_load _) _ => apply keeps_persistence_load
  | |- keeps _ _ (persistence_delete _) _ => apply keeps_persistence_delete
  | |- keeps _ _ persistence_list _ => apply keeps_persistence_list
  | |- keeps _ _ (jobs_get _) _ => apply keeps_jobs_get
  | |- keeps _ _ (jobs_delete _) _ => apply keeps_jobs_delete
  | |- keeps _ _ (deref _) _ => apply keeps_deref
  | |- keeps _ _ get_manager _ => apply keeps_get_manager
  | |- keeps _ _ (throw _) _ => apply keeps_throw
  | |- keeps _ _ (ret _) _ => apply keeps_ret; try exact I
  end.

Section MethodsKeep.
Context (ids : string → Prop) (c0 : Config).

Lemma keeps_executeJob_start r now :
  keeps ids c0 (executeJob_start r now) (λ _, True).
Proof. unfold executeJob_start. repeat keeps_step. Qed.

Lemma keeps_onProgress r percent msg :
  keeps ids c0 (onProgress r percent msg) (λ _, True).
Proof. unfold onProgress. repeat keeps_step. Qed.

Lemma keeps_executeJob_resolve r v now :
  keeps ids c0 (executeJob_resolve r v now) (λ _, True).
Proof. unfold executeJob_resolve. repeat keeps_step. Qed.

Lemma keeps_executeJob_reject r e now :
  keeps ids c0 (executeJob_reject r e now) (λ _, True).
Proof. unfold executeJob_reject. repeat keeps_step. Qed.

Lemma keeps_submitJob request uuid t1 t2 :
  ids uuid → keeps ids c0 (submitJob request uuid t1 t2) (λ _, True).
Proof.
  intros Hid. unfold submitJob, submitJob_persist, submitJob_register,
    submitJob_handle.
  keeps_step.
  - keeps_step; [keeps_step|]. simpl.
    destruct (_ >=? _)%Z; [keeps_step|].
    keeps_step; [apply keeps_alloc; exact Hid|].
    repeat keeps_step.
  - keeps_step.
    + keeps_step; [keeps_step|]. simpl. apply keeps_jobs_set. assumption.
    + keeps_step; [apply keeps_executeJob_start|]. repeat keeps_step.
Qed.

Lemma keeps_pollJob id : keeps ids c0 (pollJob id) (λ _, True).
Proof.
  unfold pollJob. keeps_step; [keeps_step|]. simpl.
  destruct a; repeat keeps_step.
Qed.

Lemma keeps_resumeJob id : keeps ids c0 (resumeJob id) (λ _, True).
Proof.
  unfold resumeJob. keeps_step; [keeps_step|]. simpl.
  destruct a; [|keeps_step].
  repeat case_decide; keeps_step.
Qed.

Lemma keeps_cancelJob id now : keeps ids c0 (cancelJob id now) (λ _, True).
Proof.
  unfold cancelJob. keeps_step; [keeps_step|]. simpl.
  destruct a; [|keeps_step].
  keeps_step; [keeps_step|]. simpl.
  case_decide; repeat keeps_step.
Qed.

Lemma keeps_cleanup_loop now listed cleaned :
  keeps ids c0 (cleanup_loop now listed cleaned) (λ _, True).
Proof.
  revert cleaned. induction listed as [|job rest IH]; intros cleaned; simpl.
  - keeps_step.
  - keeps_step; [keeps_step|]. simpl.
    destruct (expired _ _ _); [|apply IH].
    repeat keeps_step. apply IH.
Qed.

Lemma keeps_cleanupExpiredJobs now :
  keeps ids c0 (cleanupExpiredJobs now) (λ _, True).
Proof.
  unfold cleanupExpiredJobs. keeps_step; [keeps_step|]. simpl.
  apply keeps_cleanup_loop.
Qed.

Lemma step_ids_within op m :
  (∀ id, id ∈ submitted_ids [op] → ids id) →
  ids_within ids c0 m → ids_within ids c0 (step op m).
Proof.
  intros Hsub Hm. destruct op; simpl.
  - apply keeps_submitJob; [|exact Hm]. apply Hsub. simpl. set_solver.
  - apply keeps_pollJob, Hm.
  - apply keeps_resumeJob, Hm.
  - apply keeps_cancelJob, Hm.
  - apply keeps_onProgress, Hm.
  - apply keeps_executeJob_resolve, Hm.
  - apply keeps_executeJob_reject, Hm.
  - apply keeps_cleanupExpiredJobs, Hm.
Qed.

Lemma run_ids_within ops m :
  (∀ id, id ∈ submitted_ids ops → ids id) →
  ids_within ids c0 m → ids_within ids c0 (run ops m).
Proof.
  revert m. induction ops as [|op ops IH]; intros m Hsub Hm; [exact Hm|].
  simpl. apply IH.
  - intros id Hid. apply Hsub. unfold submitted_ids in *. simpl.
    destruct op; simpl; rewrite ?elem_of_cons; auto.
  - apply step_ids_within; [|exact Hm].
    intros id Hid. apply Hsub. unfold submitted_ids in *. simpl in *.
    destruct op; simpl in *; try (apply elem_of_nil in Hid; contradiction).
    apply elem_of_cons. left. apply elem_of_cons in Hid as [?|Hid]; [assumption|].
    apply elem_of_nil in Hid; contradiction.
Qed.

End MethodsKeep.

Lemma new_manager_ids_within ids c :
  ids_within ids (config (new_manager c)) (new_manager c).
Proof.
  repeat split; simpl; intros ? ?; rewrite lookup_empty; discriminate.
Qed.

(** After any run from a new manager, only submitted identifiers are
    known, and the configuration is the one the constructor computed. *)
Lemma run_from_new c ops :
  ids_within (λ id, id ∈ submitted_ids ops) (config (new_manager c))
    (run ops (new_manager c)).
Proof.
  apply run_ids_within; [auto | apply new_manager_ids_within].
Qed.

(** ** Polling *)

(** [pollJob] reads the persisted copy and changes nothing. *)
Lemma pollJob_readonly m id : (pollJob id m).2 = m.
Proof.
  eff_unfold. destruct (persistence m !! id); reflexivity.
Qed.

Lemma pollJob_unknown m id :
  persistence m !! id = None →
  pollJob id m = (Throw ("Job not found: " +:+ id), m).
Proof. intros Hid. eff_unfold. rewrite Hid. reflexivity. Qed.

Lemma resumeJob_unknown m id :
  persistence m !! id = None →
  resumeJob id m = (Throw ("Job not found: " +:+ id), m).
Proof. intros Hid. eff_unfold. rewrite Hid. reflexivity. Qed.

(** A finished job ([success] or [error]) is reported with
    [poll_after = 0] and without a progress snapshot. *)
Lemma pollJob_finished m id j :
  persistence m !! id = Some j →
  status j = Success ∨ status j = Error →
  ∃ h, pollJob id m = (Return h, m) ∧ h_poll_after h = 0%Z ∧
       h_progress h = None ∧
       h_status h = (if decide (status j = Success) then st_success else st_error).
Proof.
  intros Hid Hst. eff_unfold. rewrite Hid; simpl.
  eexists; split; [reflexivity|].
  unfold response_status.
  destruct Hst as [-> | ->]; simpl; auto.
Qed.

(** A job still [queued] or [running] is reported in progress, with the
    configured polling hint and its progress. *)
Lemma pollJob_active m id j :
  persistence m !! id = Some j →
  status j = Queued ∨ status j = Running →
  ∃ h, pollJob id m = (Return h, m) ∧ h_status h = st_in_progress ∧
       h_poll_after h = defaultPollInterval (config m) ∧
       h_progress h = Some (progress j, progress_message j).
Proof.
  intros Hid Hst. eff_unfold. rewrite Hid; simpl.
  eexists; split; [reflexivity|].
  unfold response_status.
  destruct Hst as [-> | ->]; simpl; auto.
Qed.

(** The polling hint of a manager built by the constructor is positive
    unless a negative interval was configured. *)
Lemma new_manager_poll_interval c ops :
  (∀ v, in_defaultPollInterval c = Some v → 0 <= v)%Z →
  (0 < defaultPollInterval (config (run ops (new_manager c))))%Z.
Proof.
  intros Hc. destruct (run_from_new c ops) as (_ & _ & _ & ->). simpl.
  unfold or_default. destruct (in_defaultPollInterval c) as [v|]; [|lia].
  specialize (Hc v eq_refl). destruct (Z.eqb_spec v 0); lia.
Qed.

(** C4, at a cancelled job: [pollJob] reports it as still in progress, with
    the polling hint of a live job instead of 0 and with a progress
    snapshot. *)
Theorem pollJob_cancelled m id j :
  persistence m !! id = Some j →
  status j = Cancelled →
  pollJob id m =
    (Return {| h_request_id := request_id j; h_job_id := job_id j;
               h_status := st_in_progress;
               h_poll_after := defaultPollInterval (config m);
               h_progress := Some (progress j, progress_message j) |}, m).
Proof.
  intros Hid Hst. eff_unfold. rewrite Hid; simpl.
  unfold response_status. rewrite Hst. reflexivity.
Qed.

(** ** Cancellation *)

(** A job still [queued] or [running] is cancelled: the call answers
    [true], the job becomes [cancelled] and is stamped. *)
Lemma cancelJob_active m id r j now :
  jobs m !! id = Some r → heap m !! r = Some j →
  status j = Queued ∨ status j = Running →
  ∃ m' j', cancelJob id now m = (Return true, m') ∧
           heap m' !! r = Some j' ∧ persistence m' !! job_id j = Some j' ∧
           status j' = Cancelled ∧ completed_at j' = Some now.
Proof.
  intros Hid Hj Hst.
  rewrite (cancelJob_effective m id r j now) by (try assumption; intros E; rewrite E in Hst; destruct Hst; discriminate).
  do 2 eexists; split; [reflexivity|]. simpl.
  rewrite !lookup_insert_eq. auto.
Qed.

(** C2, at a job that is already cancelled: [cancelJob] answers [true]
    again and overwrites [completed_at], in the job object and in its
    persisted copy. *)
Theorem cancelJob_cancelled_again m id r j now :
  jobs m !! id = Some r → heap m !! r = Some j →
  status j = Cancelled →
  let m' := (cancelJob id now m).2 in
  (cancelJob id now m).1 = Return true ∧
  completed_at <$> heap m' !! r = Some (Some now) ∧
  completed_at <$> persistence m' !! job_id j = Some (Some now).
Proof.
  intros Hid Hj Hst.
  rewrite (cancelJob_effective m id r j now) by (try assumption; rewrite Hst; discriminate).
  simpl. rewrite !lookup_insert_eq. auto.
Qed.

(** ** Completion of the executor after a cancellation *)

(** C1, at a cancelled job whose executor settles afterwards: the
    continuation of [executeJob] turns the job into [success] (or [error]),
    stores the result (or the error) and overwrites [completed_at], in the
    job object and in its persisted copy. *)
Theorem executor_settles_after_cancel m r j v e now :
  heap m !! r = Some j →
  status j = Cancelled →
  let m1 := (executeJob_resolve r v now m).2 in
  let m2 := (executeJob_reject r e now m).2 in
  (∃ j1, heap m1 !! r = Some j1 ∧ persistence m1 !! job_id j = Some j1 ∧
         status j1 = Success ∧ result j1 = Some v ∧ completed_at j1 = Some now) ∧
  (∃ j2, heap m2 !! r = Some j2 ∧ persistence m2 !! job_id j = Some j2 ∧
         status j2 = Error ∧ error j2 = Some e ∧ completed_at j2 = Some now).
Proof.
  intros Hj Hst.
  rewrite (executeJob_resolve_eq m r j v now Hj).
  rewrite (executeJob_reject_eq m r j e now Hj).
  simpl. split; eexists; rewrite !lookup_insert_eq; auto.
Qed.

(** ** Submission *)

(** C7: at the ceiling [submitJob] throws and leaves the manager as it
    was; below it the job is first persisted as [queued] under the
    identifier [uuidv4()] returned, then registered and started, and the
    handle is returned while the job is [running], with no completion
    stamp and no result; when the identifier is fresh the job map has one
    more entry. *)
Theorem submitJob_capacity m request uuid t1 t2 :
  ((Z.of_nat (size (jobs m)) >= maxJobs (config m))%Z →
   submitJob request uuid t1 t2 m =
     (Throw "Job queue full. Please try again later.", m)) ∧
  ((Z.of_nat (size (jobs m)) < maxJobs (config m))%Z →
   let r := next_ref m in
   let job0 := new_job request uuid t1 in
   let job1 := set_started_at t2 (set_status Running job0) in
   let m0 := (submitJob_persist request uuid t1 m).2 in
   let m' := (submitJob request uuid t1 t2 m).2 in
   (submitJob_persist request uuid t1 m).1 = Return r ∧
   persistence m0 !! uuid = Some job0 ∧ status job0 = Queued ∧
   jobs m0 = jobs m ∧
   (submitJob request uuid t1 t2 m).1 =
     Return {| h_request_id := req_request_id request; h_job_id := uuid;
               h_status := st_in_progress;
               h_poll_after := defaultPollInterval (config m);
               h_progress := None |} ∧
   jobs m' !! uuid = Some r ∧ heap m' !! r = Some job1 ∧
   persistence m' !! uuid = Some job1 ∧
   status job1 = Running ∧ completed_at job1 = None ∧ result job1 = None ∧
   (jobs m !! uuid = None → size (jobs m') = S (size (jobs m)))).
Proof.
  split.
  - intros Hfull. eff_unfold.
    destruct (Z.geb_spec (Z.of_nat (size (jobs m))) (maxJobs (config m)));
      [reflexivity | lia].
  - intros Hroom. eff_unfold.
    destruct (Z.geb_spec (Z.of_nat (size (jobs m))) (maxJobs (config m)));
      [lia|]. simpl.
    eff_step.
    erewrite executeJob_start_eq by (simpl; apply lookup_insert_eq).
    unfold updated; simpl. eff_step.
    repeat split; try reflexivity.
    intros Hfresh. apply map_size_insert_None, Hfresh.
Qed.

(** ** Unknown identifiers *)

(** C10: for an identifier that no [submitJob] of the run was given by
    [uuidv4()], [cancelJob] answers [false] and leaves the manager as it
    was, while [pollJob] and [resumeJob] throw "Job not found: <id>". *)
Theorem unknown_job_id c ops id now :
  id ∉ submitted_ids ops →
  let m := run ops (new_manager c) in
  cancelJob id now m = (Return false, m) ∧
  pollJob id m = (Throw ("Job not found: " +:+ id), m) ∧
  resumeJob id m = (Throw ("Job not found: " +:+ id), m).
Proof.
  intros Hid m.
  destruct (run_from_new c ops) as (Hjobs & Hpers & _ & _). fold m in Hjobs, Hpers.
  assert (jobs m !! id = None) as Hj.
  { destruct (jobs m !! id) eqn:E; [|reflexivity]. exfalso. eapply Hid, Hjobs, E. }
  assert (persistence m !! id = None) as Hp.
  { destruct (persistence m !! id) eqn:E; [|reflexivity]. exfalso. eapply Hid, Hpers, E. }
  split; [apply cancelJob_unknown, Hj|].
  split; [apply pollJob_unknown, Hp | apply resumeJob_unknown, Hp].
Qed.

(** ** The scenarios behind the properties above *)

Lemma pollJob_cancelled_witness :
  let m := run cancelled_run (new_manager no_config) in
  pollJob "job-1" m =
    (Return {| h_request_id := "req-1"; h_job_id := "job-1";
               h_status := st_in_progress; h_poll_after := 5;
               h_progress := Some (0%Z, None) |}, m).
Proof.
  intros m.
  rewrite (pollJob_cancelled m "job-1" cancelled_job);
    [reflexivity | vm_compute; reflexivity | reflexivity].
Defined.

Lemma cancelJob_cancelled_again_witness :
  let m := run cancelled_run (new_manager no_config) in
  let m' := (cancelJob "job-1" 25 m).2 in
  (cancelJob "job-1" 25 m).1 = Return true ∧
  completed_at <$> heap m' !! 0%nat = Some (Some 25%Z) ∧
  completed_at <$> persistence m' !! "job-1" = Some (Some 25%Z).
Proof.
  intros m.
  apply (cancelJob_cancelled_again m "job-1" 0%nat cancelled_job 25);
    [vm_compute; reflexivity | vm_compute; reflexivity | reflexivity].
Defined.

Lemma executor_settles_after_cancel_witness :
  let m := run cancelled_run (new_manager no_config) in
  (∃ j1, heap (executeJob_resolve 0 "done" 30 m).2 !! 0%nat = Some j1 ∧
         persistence (executeJob_resolve 0 "done" 30 m).2 !! "job-1" = Some j1 ∧
         status j1 = Success ∧ result j1 = Some "done" ∧
         completed_at j1 = Some 30%Z) ∧
  (∃ j2, heap (executeJob_reject 0 sample_error 30 m).2 !! 0%nat = Some j2 ∧
         persistence (executeJob_reject 0 sample_error 30 m).2 !! "job-1" = Some j2 ∧
         status j2 = Error ∧ error j2 = Some sample_error ∧
         completed_at j2 = Some 30%Z).
Proof.
  intros m.
  apply (executor_settles_after_cancel m 0%nat cancelled_job "done" sample_error 30);
    [vm_compute; reflexivity | reflexivity].
Defined.

Lemma submitJob_capacity_witness :
  let full := run [OpSubmit sample_request "job-1" 10 11] (new_manager one_job_config) in
  submitJob sample_request "job-2" 12 13 full =
    (Throw "Job queue full. Please try again later.", full) ∧
  (submitJob sample_request "job-1" 10 11 (new_manager no_config)).1 =
    Return {| h_request_id := "req-1"; h_job_id := "job-1";
              h_status := st_in_progress; h_poll_after := 5;
              h_progress := None |}.
Proof.
  intros full. split.
  - apply (proj1 (submitJob_capacity full sample_request "job-2" 12 13)).
    vm_compute. discriminate.
  - assert ((Z.of_nat (size (jobs (new_manager no_config)))
             < maxJobs (config (new_manager no_config)))%Z) as Hroom
      by (vm_compute; reflexivity).
    destruct (proj2 (submitJob_capacity (new_manager no_config) sample_request
                       "job-1" 10 11) Hroom) as (_ & _ & _ & _ & Hh & _).
    exact Hh.
Defined.

Lemma unknown_job_id_witness :
  let m := run [OpSubmit sample_request "job-1" 10 11] (new_manager no_config) in
  cancelJob "job-2" 20 m = (Return false, m) ∧
  pollJob "job-2" m = (Throw "Job not found: job-2", m) ∧
  resumeJob "job-2" m = (Throw "Job not found: job-2", m).
Proof.
  apply (unknown_job_id no_config [OpSubmit sample_request "job-1" 10 11] "job-2" 20).
  simpl. intros Hin. apply list_elem_of_singleton in Hin. discriminate.
Defined.

End JobManagerProps.

(* ===================================================================== *)
(** * Properties of version negotiation                                    *)
(* ===================================================================== *)

Module VersionNegotiationProps.

Import VersionNegotiation.

Lemma digit_of_range c d : digit_of c = Some d → (0 <= d <= 9)%Z.
Proof.
  unfold digit_of.
  destruct (_ && _) eqn:E; [|discriminate]. intros [= <-].
  apply andb_true_iff in E as [E1 E2]. lia.
Qed.

Lemma digit_of_not_dash c d : digit_of c = Some d → Ascii.eqb c "-" = false.
Proof.
  intros Hd. destruct (Ascii.eqb_spec c "-") as [->|]; [|reflexivity].
  vm_compute in Hd. discriminate.
Qed.

(** On a calendar token [parseVersion] builds the date of the first day
    of that month. *)
Lemma parseVersion_token v y mo :
  calendar_token v = Some (y, mo) →
  parseVersion v = new_Date (Some y) (Some (mo - 1)%Z).
Proof.
  destruct v as [|y1 [|y2 [|y3 [|y4 [|dash [|m1 [|m2 [|]]]]]]]];
    try discriminate.
  simpl. destruct (Ascii.eqb_spec dash "-") as [->|]; [|discriminate].
  destruct (digit_of y1) as [a|] eqn:Ha; [|discriminate].
  destruct (digit_of y2) as [b|] eqn:Hb; [|discriminate].
  destruct (digit_of y3) as [c|] eqn:Hc; [|discriminate].
  destruct (digit_of y4) as [d|] eqn:Hd; [|discriminate].
  destruct (digit_of m1) as [e|] eqn:He; [|discriminate].
  destruct (digit_of m2) as [f|] eqn:Hf; [|discriminate].
  simpl. intros [= <- <-].
  unfold parseVersion. cbn [split].
  rewrite (digit_of_not_dash _ _ Ha), (digit_of_not_dash _ _ Hb),
    (digit_of_not_dash _ _ Hc), (digit_of_not_dash _ _ Hd),
    (digit_of_not_dash _ _ He), (digit_of_not_dash _ _ Hf).
  change (Ascii.eqb "-" "-") with true. cbn [map lookup list_lookup].
  unfold Number. cbn [digits_value].
  rewrite Ha, Hb, Hc, Hd, He, Hf. cbn [digits_value mjoin option_join fmap option_fmap option_map].
  replace (10 * (10 * (10 * (10 * 0 + a) + b) + c) + d)%Z
    with (1000 * a + 100 * b + 10 * c + d)%Z by lia.
  replace (10 * (10 * 0 + e) + f - 1)%Z with (10 * e + f - 1)%Z by lia.
  reflexivity.
Qed.

Lemma calendar_token_bounds v y mo :
  calendar_token v = Some (y, mo) → (0 <= y <= 9999 ∧ 0 <= mo <= 99)%Z.
Proof.
  destruct v as [|y1 [|y2 [|y3 [|y4 [|dash [|m1 [|m2 [|]]]]]]]];
    try discriminate.
  simpl. destruct (Ascii.eqb dash "-"); [|discriminate].
  destruct (digit_of y1) as [a|] eqn:Ha; [|discriminate].
  destruct (digit_of y2) as [b|] eqn:Hb; [|discriminate].
  destruct (digit_of y3) as [c|] eqn:Hc; [|discriminate].
  destruct (digit_of y4) as [d|] eqn:Hd; [|discriminate].
  destruct (digit_of m1) as [e|] eqn:He; [|discriminate].
  destruct (digit_of m2) as [f|] eqn:Hf; [|discriminate].
  simpl. intros [= <- <-].
  apply digit_of_range in Ha, Hb, Hc, Hd, He, Hf. lia.
Qed.

(** The month difference [checkVersionCompatibility] computes for a
    calendar token against November 2025: the calendar distance, except
    that a year below 100 is taken in the twentieth century. *)
Lemma getMonthsDifference_token v y mo :
  calendar_token v = Some (y, mo) →
  getMonthsDifference (parseVersion v) (Date 2025 10) =
    Some (months_between ((if (y <=? 99)%Z then 1900 + y else y)%Z, mo) (2025, 11)%Z).
Proof.
  intros Hv. pose proof (calendar_token_bounds _ _ _ Hv) as [Hy Hmo].
  rewrite (parseVersion_token _ _ _ Hv). unfold new_Date, getMonthsDifference.
  f_equal. unfold months_between; simpl fst; simpl snd.
  replace (0 <=? y)%Z with true by (symmetry; apply Z.leb_le; lia).
  rewrite andb_true_l.
  pose proof (Z.div_mod (mo - 1) 12 ltac:(lia)).
  destruct (y <=? 99)%Z; lia.
Qed.

(** C3, as the code has it: a valid handshake whose version is a calendar
    token outside the supported list fails, with a non-empty error, when
    the token is more than one month from the server's version, and
    succeeds with the server's version as agreed version when it is within
    one month. *)
Theorem negotiate_by_distance n h v d :
  serverVersion n = "2025-11" →
  isValidHandshake h = true →
  mcp_version h = Some v →
  release_distance n v = Some d →
  v ∉ supportedVersions n →
  ((1 < d)%Z →
     success (negotiate n h) = false ∧
     ∃ e, error (negotiate n h) = Some e ∧ e ≠ "") ∧
  ((d <= 1)%Z →
     success (negotiate n h) = true ∧
     agreed_version (negotiate n h) = serverVersion n ∧
     error (negotiate n h) = None).
Proof.
  intros Hserver Hvalid Hv Hd Hout.
  unfold release_distance in Hd. rewrite Hserver in Hd.
  destruct (calendar_token v) as [[y mo]|] eqn:Htok; [|discriminate].
  change (calendar_token "2025-11") with (Some (2025, 11)%Z) in Hd.
  simpl in Hd. injection Hd as <-.
  pose proof (calendar_token_bounds _ _ _ Htok) as [Hy Hmo].
  pose proof (getMonthsDifference_token _ _ _ Htok) as Hdiff.
  unfold negotiate. rewrite Hvalid, Hv. cbn [negb default from_option id].
  unfold checkVersionCompatibility.
  destruct (decide (v = serverVersion n)) as [Heq|Hne].
  { (* the server's own version: at distance 0 *)
    rewrite Heq, Hserver in Htok. injection Htok as <- <-.
    split; [intros Hfar; vm_compute in Hfar; discriminate|].
    intros _. simpl. rewrite Heq. auto. }
  destruct (decide (v ∈ supportedVersions n)) as [Hin|_]; [contradiction|].
  rewrite Hserver.
  change (parseVersion "2025-11") with (Date 2025 10).
  rewrite Hdiff. unfold abs_exceeds_1, months_between in *.
  simpl fst in *; simpl snd in *.
  split; intros Hdist.
  - replace (Z.abs _ >? 1)%Z with true.
    + simpl. split; [reflexivity|]. eexists; split; [reflexivity | discriminate].
    + symmetry. apply Z.gtb_lt. destruct (y <=? 99)%Z eqn:E; [|lia].
      apply Z.leb_le in E. lia.
  - replace (Z.abs _ >? 1)%Z with false.
    + simpl. auto.
    + symmetry. rewrite Z.gtb_ltb. apply Z.ltb_ge.
      destruct (y <=? 99)%Z eqn:E; [|lia].
      apply Z.leb_le in E. lia.
Qed.

(** C3 without the exception of the supported list does not hold: the
    supported older version 2024-11 is twelve months from the server's
    version, and the negotiation succeeds with the client's version. *)
Lemma old_supported_version_accepted :
  isValidHandshake old_client = true ∧
  mcp_version old_client = Some "2024-11" ∧
  release_distance new_negotiator "2024-11" = Some 12%Z ∧
  negotiate new_negotiator old_client =
    {| success := true; agreed_version := "2024-11";
       agreed_capabilities := ["async"]; error := None |}.
Proof. repeat split. Qed.

Lemma negotiate_by_distance_witness :
  (success (negotiate new_negotiator stale_client) = false ∧
   ∃ e, error (negotiate new_negotiator stale_client) = Some e ∧ e ≠ "") ∧
  (success (negotiate new_negotiator early_client) = true ∧
   agreed_version (negotiate new_negotiator early_client) = "2025-11" ∧
   error (negotiate new_negotiator early_client) = None).
Proof.
  assert (∀ v : string, v ≠ "2025-11" → v ≠ "2024-11" →
            v ∉ supportedVersions new_negotiator) as Hout.
  { intros v H1 H2 Hin. simpl in Hin.
    apply elem_of_cons in Hin as [?|Hin]; [contradiction|].
    apply list_elem_of_singleton in Hin. contradiction. }
  split.
  - apply (proj1 (negotiate_by_distance new_negotiator stale_client "2025-06" 5
                    eq_refl eq_refl eq_refl eq_refl
                    (Hout "2025-06" ltac:(discriminate) ltac:(discriminate)))).
    reflexivity.
  - apply (proj2 (negotiate_by_distance new_negotiator early_client "2025-10" 1
                    eq_refl eq_refl eq_refl eq_refl
                    (Hout "2025-10" ltac:(discriminate) ltac:(discriminate)))).
    discriminate.
Defined.

(** ** Capabilities *)

Lemma negotiateCapabilities_elem n A c :
  c ∈ negotiateCapabilities n A ↔ c ∈ A ∧ c ∈ serverCapabilities n.
Proof. unfold negotiateCapabilities. rewrite list_elem_of_filter. tauto. Qed.

Lemma negotiateCapabilities_Permutation n n' A A' :
  A ≡ₚ A' → serverCapabilities n ≡ₚ serverCapabilities n' →
  negotiateCapabilities n A ≡ₚ negotiateCapabilities n' A'.
Proof.
  intros HA HB. unfold negotiateCapabilities.
  rewrite (list_filter_iff (λ cap, cap ∈ serverCapabilities n)
             (λ cap, cap ∈ serverCapabilities n')).
  - apply filter_Permutation, HA.
  - intros cap. rewrite HB. reflexivity.
Qed.

Lemma negotiate_success_capabilities n h A :
  capabilities h = Some A → success (negotiate n h) = true →
  agreed_capabilities (negotiate n h) = negotiateCapabilities n A.
Proof.
  intros HA. unfold negotiate.
  destruct (negb (isValidHandshake h)); [discriminate|].
  destruct (negb (compatible _)); [discriminate|].
  simpl. rewrite HA. reflexivity.
Qed.

(** C5: the agreed capabilities are exactly the client capabilities that
    the server also has; reordering either list only reorders them, so
    their element set stays the same; and a successful negotiation returns
    them as [agreed_capabilities]. *)
Theorem agreed_capabilities_intersection n A :
  (∀ c, c ∈ negotiateCapabilities n A ↔ c ∈ A ∧ c ∈ serverCapabilities n) ∧
  (∀ n' A',
     A ≡ₚ A' → serverCapabilities n ≡ₚ serverCapabilities n' →
     negotiateCapabilities n A ≡ₚ negotiateCapabilities n' A' ∧
     ∀ c, c ∈ negotiateCapabilities n A ↔ c ∈ negotiateCapabilities n' A') ∧
  (∀ h, capabilities h = Some A → success (negotiate n h) = true →
        agreed_capabilities (negotiate n h) = negotiateCapabilities n A).
Proof.
  split; [intros c; apply negotiateCapabilities_elem|]. split.
  - intros n' A' HAA HBB.
    pose proof (negotiateCapabilities_Permutation n n' A A' HAA HBB) as HP.
    split; [exact HP | intros c; rewrite HP; reflexivity].
  - intros h. apply negotiate_success_capabilities.
Qed.

Lemma agreed_capabilities_intersection_witness :
  agreed_capabilities (negotiate new_negotiator early_client) = ["stream"; "async"] ∧
  negotiateCapabilities new_negotiator ["stream"; "async"] ≡ₚ
    negotiateCapabilities new_negotiator ["async"; "stream"].
Proof.
  destruct (agreed_capabilities_intersection new_negotiator ["stream"; "async"])
    as (_ & Hperm & Hagreed).
  split.
  - rewrite (Hagreed early_client eq_refl eq_refl). reflexivity.
  - apply (Hperm new_negotiator ["async"; "stream"]); [apply perm_swap | reflexivity].
Defined.

End VersionNegotiationProps.

(* ===================================================================== *)
(** * Properties of the tool loader                                        *)
(* ===================================================================== *)

Module ToolLoaderProps.

Import ToolLoader.

(** ** Substrings *)

Lemma prefix_spec p s : String.prefix p s = true ↔ ∃ after, s = p +:+ after.
Proof.
  revert s. induction p as [|c p IH]; intros s; simpl.
  - destruct s; split; eauto.
  - destruct s as [|c' s]; simpl.
    + split; [discriminate|]. intros [after Heq].
      change ("" = String c (p +:+ after)) in Heq. discriminate.
    + destruct (ascii_dec c c') as [->|Hne].
      * rewrite IH. split; intros [after Heq]; exists after.
        -- subst. reflexivity.
        -- change (String c' s = String c' (p +:+ after)) in Heq. congruence.
      * split; [discriminate|]. intros [after Heq].
        change (String c' s = String c (p +:+ after)) in Heq. congruence.
Qed.

Lemma includes_spec s p : includes s p = true ↔ occurs_in p s.
Proof.
  unfold occurs_in. induction s as [|c s IH]; cbn [includes].
  - rewrite orb_false_r, prefix_spec. split.
    + intros [after Heq]. exists "", after. exact Heq.
    + intros [before [after Heq]]. destruct before as [|c' before]; [eauto|].
      change ("" = String c' (before +:+ p +:+ after)) in Heq. discriminate.
  - rewrite orb_true_iff, prefix_spec, IH. split.
    + intros [[after Heq] | (before & after & Heq)].
      * exists "", after. exact Heq.
      * exists (String c before), after. subst. reflexivity.
    + intros (before & after & Heq). destruct before as [|c' before].
      * left. exists after. exact Heq.
      * right. exists before, after.
        change (String c s = String c' (before +:+ p +:+ after)) in Heq.
        congruence.
Qed.

Section Search.
Context (toLowerCase : string → string) (localeCompare : string → string → Z).

#[local] Abbreviation pushed := (pushed toLowerCase).
#[local] Abbreviation satisfies := (satisfies toLowerCase).
#[local] Abbreviation searchTools := (searchTools toLowerCase localeCompare).
#[local] Abbreviation sort := (sort localeCompare).
#[local] Abbreviation sort_insert := (sort_insert localeCompare).
#[local] Abbreviation name_le := (name_le localeCompare).

(** ** The four tests against the wording of the filters *)

Lemma skip_category_spec q m :
  skip_category q m = false ↔
  ∀ c, q_category q = Some c → c ≠ "" → category m = c.
Proof.
  unfold skip_category. destruct (q_category q) as [c|]; [|by split].
  destruct (String.eqb_spec c ""), (String.eqb_spec (category m) c); simpl;
    split; try done.
  - intros _ ? [= <-] ?. done.
  - intros _ ? [= <-] ?. done.
  - intros _ ? [= <-] ?. done.
  - intros H. exfalso. by specialize (H c eq_refl n).
Qed.

Lemma skip_detailLevel_spec q m :
  skip_detailLevel q m = false ↔
  ∀ d, q_detailLevel q = Some d → d ≠ "" → detailLevel m = Some d.
Proof.
  unfold skip_detailLevel. destruct (q_detailLevel q) as [d|]; [|by split].
  destruct (String.eqb_spec d ""); simpl.
  - split; [|done]. intros _ ? [= <-] ?. done.
  - rewrite negb_false_iff, bool_decide_eq_true. split.
    + intros H ? [= <-] _. exact H.
    + intros H. by apply H.
Qed.

Lemma skip_tags_spec q m :
  skip_tags q m = false ↔
  ∀ ts tag, q_tags q = Some ts → tag ∈ ts → tag ∈ default [] (tags m).
Proof.
  unfold skip_tags. destruct (q_tags q) as [[|t ts]|].
  - split; [|done]. intros _ ? ? [= <-] Hin. by apply elem_of_nil in Hin.
  - rewrite negb_false_iff, forallb_forall. split.
    + intros H ? tag [= <-] Hin.
      apply list_elem_of_In, H in Hin. by apply bool_decide_eq_true in Hin.
    + intros H tag Hin. apply bool_decide_eq_true.
      apply (H (t :: ts)); [done | by apply list_elem_of_In].
  - by split.
Qed.

Lemma skip_namePattern_spec q m :
  skip_namePattern toLowerCase q m = false ↔
  ∀ p, q_namePattern q = Some p → p ≠ "" →
       occurs_in (toLowerCase p) (toLowerCase (name m)) ∨
       occurs_in (toLowerCase p) (toLowerCase (description m)).
Proof.
  unfold skip_namePattern. destruct (q_namePattern q) as [p|]; [|by split].
  destruct (String.eqb_spec p ""); simpl.
  - split; [|done]. intros _ ? [= <-] ?. done.
  - destruct (includes (toLowerCase (name m)) _) eqn:E1; simpl.
    { split; [|done]. intros _ ? [= <-] _. left. by apply includes_spec. }
    destruct (includes (toLowerCase (description m)) _) eqn:E2; simpl.
    { split; [|done]. intros _ ? [= <-] _. right. by apply includes_spec. }
    split; [done|]. intros H.
    destruct (H p eq_refl n) as [Hin|Hin]; apply includes_spec in Hin; congruence.
Qed.

(** An entry is pushed exactly when it satisfies the query. *)
Lemma pushed_spec q m : pushed q m = true ↔ satisfies q m.
Proof.
  unfold ToolLoader.pushed, ToolLoader.satisfies.
  rewrite !andb_true_iff, !negb_true_iff.
  rewrite skip_category_spec, skip_detailLevel_spec, skip_tags_spec,
    skip_namePattern_spec.
  tauto.
Qed.

(** ** The scan *)

Lemma scan_entry_pushed q results m :
  scan_entry toLowerCase q results m =
    if pushed q m then results ++ [m] else results.
Proof.
  unfold scan_entry, ToolLoader.pushed.
  destruct (skip_category q m), (skip_detailLevel q m), (skip_tags q m),
    (skip_namePattern toLowerCase q m); reflexivity.
Qed.

Lemma scan_filter q entries results :
  foldl (scan_entry toLowerCase q) results entries =
    results ++ filter (λ m, pushed q m = true) entries.
Proof.
  revert results. induction entries as [|m entries IH]; intros results; simpl.
  - by rewrite app_nil_r.
  - rewrite IH, scan_entry_pushed, filter_cons.
    destruct (pushed q m) eqn:E.
    + rewrite decide_True by done. by rewrite <- app_assoc.
    + rewrite decide_False by done. done.
Qed.

(** ** The sort *)

Lemma sort_insert_Permutation x l : sort_insert x l ≡ₚ x :: l.
Proof.
  induction l as [|y l IH]; simpl; [done|].
  destruct (_ <=? 0)%Z; [|done].
  rewrite IH. apply perm_swap.
Qed.

Lemma sort_Permutation_acc l acc :
  foldl (λ sorted x, sort_insert x sorted) acc l ≡ₚ l ++ acc.
Proof.
  revert acc. induction l as [|x l IH]; intros acc; simpl; [done|].
  rewrite IH, sort_insert_Permutation. by rewrite Permutation_middle.
Qed.

Lemma sort_Permutation l : sort l ≡ₚ l.
Proof. unfold ToolLoader.sort. by rewrite sort_Permutation_acc, app_nil_r. Qed.

Section Ordered.
Hypothesis localeCompare_total :
  ∀ a b, (localeCompare a b <= 0 ∨ localeCompare b a <= 0)%Z.
Hypothesis localeCompare_trans :
  ∀ a b c, (localeCompare a b <= 0 → localeCompare b c <= 0 →
            localeCompare a c <= 0)%Z.

Lemma sort_insert_sorted x l :
  StronglySorted name_le l → StronglySorted name_le (sort_insert x l).
Proof.
  induction 1 as [|y l Hl IH Hy]; simpl.
  - repeat constructor.
  - destruct (Z.leb_spec (localeCompare (name y) (name x)) 0) as [Hle|Hgt].
    + constructor; [exact IH|].
      rewrite sort_insert_Permutation. constructor; [exact Hle | exact Hy].
    + assert (name_le x y) as Hxy.
      { unfold ToolLoader.name_le.
        destruct (localeCompare_total (name x) (name y)); [done | lia]. }
      constructor; [by constructor|].
      constructor; [exact Hxy|].
      eapply Forall_impl; [exact Hy|]. intros z Hz.
      unfold ToolLoader.name_le in *. eauto.
Qed.

Lemma sort_sorted_acc l acc :
  StronglySorted name_le acc →
  StronglySorted name_le (foldl (λ sorted x, sort_insert x sorted) acc l).
Proof.
  revert acc. induction l as [|x l IH]; intros acc Hacc; simpl; [done|].
  apply IH, sort_insert_sorted, Hacc.
Qed.

Lemma sort_sorted l : StronglySorted name_le (sort l).
Proof. apply sort_sorted_acc. constructor. Qed.

(** C8: [searchTools] returns the entries of the metadata cache that
    satisfy every given filter, each as often as the cache holds it and no
    other, in the order of their names under [localeCompare]. *)
Theorem searchTools_exactly_the_matches l q :
  (∀ m, m ∈ searchTools l q ↔ m ∈ (metadataCache l).*2 ∧ satisfies q m) ∧
  (∃ kept, kept `sublist_of` (metadataCache l).*2 ∧ searchTools l q ≡ₚ kept) ∧
  StronglySorted name_le (searchTools l q).
Proof.
  unfold ToolLoader.searchTools. rewrite scan_filter, app_nil_l.
  split; [|split].
  - intros m. rewrite sort_Permutation, list_elem_of_filter, pushed_spec. tauto.
  - exists (filter (λ m, pushed q m = true) (metadataCache l).*2).
    split; [apply sublist_filter | apply sort_Permutation].
  - apply sort_sorted.
Qed.

End Ordered.

End Search.

(** ** Comparison by code units is a total preorder *)

Lemma codeunit_compare_le a b :
  (codeunit_compare a b <= 0)%Z ↔ String.compare a b ≠ Gt.
Proof.
  unfold codeunit_compare. destruct (String.compare a b); split; try done; lia.
Qed.

Lemma codeunit_compare_total a b :
  (codeunit_compare a b <= 0 ∨ codeunit_compare b a <= 0)%Z.
Proof.
  rewrite !codeunit_compare_le, (String.compare_antisym a b).
  destruct (String.compare b a); simpl; auto.
Qed.

Lemma codeunit_compare_trans a b c :
  (codeunit_compare a b <= 0 → codeunit_compare b c <= 0 →
   codeunit_compare a c <= 0)%Z.
Proof.
  rewrite !codeunit_compare_le. intros Hab Hbc.
  destruct (String.compare a b) eqn:Eab; [| |done].
  { apply String.compare_eq_iff in Eab as ->. exact Hbc. }
  destruct (String.compare b c) eqn:Ebc; [| |done].
  { apply String.compare_eq_iff in Ebc as <-. by rewrite Eab. }
  apply String_as_OT.cmp_lt in Eab, Ebc.
  pose proof (String_as_OT.lt_trans _ _ _ Eab Ebc) as Hac.
  apply String_as_OT.cmp_lt in Hac. unfold String_as_OT.cmp in Hac.
  by rewrite Hac.
Qed.

Lemma searchTools_exactly_the_matches_witness :
  searchTools ascii_toLowerCase codeunit_compare sample_loader system_query =
    [search_metadata] ∧
  (∀ m, m ∈ searchTools ascii_toLowerCase codeunit_compare sample_loader system_query ↔
        m ∈ (metadataCache sample_loader).*2 ∧
        satisfies ascii_toLowerCase system_query m).
Proof.
  split; [reflexivity|].
  apply (searchTools_exactly_the_matches ascii_toLowerCase codeunit_compare
           codeunit_compare_total codeunit_compare_trans sample_loader system_query).
Defined.

(** ** Loading a tool *)

Section Load.
Context (import_module : string → option (list Export)).

(** A successful load leaves the instance in the tool cache. *)
Lemma loadTool_caches toolName l t l' :
  loadTool import_module toolName l = (Some t, l') →
  toolCache l' !! toolName = Some t.
Proof.
  unfold loadTool.
  destruct (toolCache l !! toolName) as [cached|] eqn:Hc.
  { intros [= <- <-]. exact Hc. }
  destruct (map_get toolName (metadataCache l)) as [metadata|]; [|discriminate].
  destruct (import_module (filePath metadata)) as [exports|]; [|discriminate].
  destruct (find is_creator exports) as [[fname call|]|]; try discriminate.
  destruct call; try discriminate.
  intros [= <- <-]. simpl. apply lookup_insert_eq.
Qed.

(** A load of a cached name answers from the cache and changes nothing. *)
Lemma loadTool_hit toolName l t :
  toolCache l !! toolName = Some t →
  loadTool import_module toolName l = (Some t, l).
Proof. intros Hc. unfold loadTool. by rewrite Hc. Qed.

(** C9: after a load of [toolName] that returned the instance [t], a
    second load returns the same reference and leaves the loader as it
    was: no [import], no call of the creator, no new instance. *)
Theorem loadTool_twice toolName l t l' :
  loadTool import_module toolName l = (Some t, l') →
  loadTool import_module toolName l' = (Some t, l') ∧
  imported (loadTool import_module toolName l').2 = imported l' ∧
  created (loadTool import_module toolName l').2 = created l' ∧
  instances (loadTool import_module toolName l').2 = instances l'.
Proof.
  intros Hfirst. apply loadTool_caches in Hfirst.
  rewrite (loadTool_hit toolName l' t Hfirst). auto.
Qed.

End Load.

Lemma loadTool_twice_witness :
  let l' := (loadTool sample_import "system/status" sample_loader).2 in
  imported l' = ["tools/system/status.js"] ∧
  created l' = ["createSystemStatusTool"] ∧
  loadTool sample_import "system/status" l' = (Some 0%nat, l').
Proof.
  intros l'. split; [reflexivity|]. split; [reflexivity|].
  apply (loadTool_twice sample_import "system/status" sample_loader 0%nat l').
  reflexivity.
Defined.

End ToolLoaderProps.

(* ===================================================================== *)
(** * Properties of the tool-call dispatch                                 *)
(* ===================================================================== *)

Module ServerProps.

Import JobManager Server.

Section Dispatch.
Context (getTool : string → option Tool)
        (validateInput : string → option Json → Validation).

#[local] Abbreviation handleToolCall := (handleToolCall getTool validateInput).

(** Whatever the request asks for, a session without the [async]
    capability never reaches the job manager. *)
Lemma no_job_without_capability s request sessionId sess uuid t0 t1 :
  sessions s !! sessionId = Some sess →
  "async" ∉ s_capabilities sess →
  (handleToolCall s request sessionId uuid t0 t1).2 = s ∧
  ∀ h, (handleToolCall s request sessionId uuid t0 t1).1 ≠ Return (JobHandle h).
Proof.
  intros Hsess Hcap. unfold Server.handleToolCall. rewrite Hsess. simpl.
  rewrite (bool_decide_eq_false_2 _ Hcap), andb_false_r.
  destruct (isLegacy sess).
  { split; [reflexivity|]. intros h. unfold handleLegacyToolCall.
    destruct (_ ≫= getTool) as [tool|]; [|discriminate].
    destruct (handler tool _ _); discriminate. }
  destruct (present (c_tool_id request)) as [tool_id|]; [|by split].
  destruct (getTool tool_id) as [tool|]; [|by split].
  destruct (_ && _); [by split|].
  destruct (handler tool _ _); by split.
Qed.

(** C6: a modern request with mode [async] on a session whose
    capabilities lack [async] is executed at once: when the tool resolves,
    the input is valid and the handler returns [result], the answer is the
    synchronous response with status [success], that result and the
    elapsed time; no job handle is returned and the job manager is left
    untouched. *)
Theorem async_request_without_capability
    s request sessionId sess tool_id tool result uuid t0 t1 :
  sessions s !! sessionId = Some sess →
  isLegacy sess = false →
  "async" ∉ s_capabilities sess →
  c_mode request = Some "async" →
  present (c_tool_id request) = Some tool_id →
  getTool tool_id = Some tool →
  (validation_enabled s = true →
   valid (validateInput (t_inputSchema tool) (c_arguments request)) = true) →
  handler tool (c_arguments request) sessionId = Resolves result →
  handleToolCall s request sessionId uuid t0 t1 =
    (Return (SyncResponse (c_request_id request) st_success result (t1 - t0)%Z), s) ∧
  jobManager (handleToolCall s request sessionId uuid t0 t1).2 = jobManager s.
Proof.
  intros Hsess Hmodern Hcap Hmode Htid Htool Hvalid Hrun.
  assert (handleToolCall s request sessionId uuid t0 t1 =
          (Return (SyncResponse (c_request_id request) st_success result
                     (t1 - t0)%Z), s)) as Heq.
  { unfold Server.handleToolCall. rewrite Hsess. simpl.
    rewrite Hmodern, Htid, Htool.
    rewrite (bool_decide_eq_false_2 _ Hcap), andb_false_r.
    destruct (validation_enabled s).
    - rewrite (Hvalid eq_refl). simpl. by rewrite Hrun.
    - simpl. by rewrite Hrun. }
  rewrite Heq. auto.
Qed.

End Dispatch.

Lemma async_request_without_capability_witness :
  Server.handleToolCall sample_getTool accept_all sample_server async_request
    "session-1" "job-1" 100 130 =
    (Return (SyncResponse "req-7" st_success "{}" 30), sample_server).
Proof.
  apply (async_request_without_capability sample_getTool accept_all
           sample_server async_request "session-1"
           {| clientId := "client-1"; s_version := "2025-11";
              s_capabilities := ["stream"]; isLegacy := false |}
           "system/echo" echo_tool "{}" "job-1" 100 130).
  - vm_compute. reflexivity.
  - reflexivity.
  - simpl. intros Hin. apply list_elem_of_singleton in Hin. discriminate.
  - reflexivity.
  - reflexivity.
  - reflexivity.
  - reflexivity.
  - reflexivity.
Defined.

End ServerProps.

(* ===================================================================== *)
(** * Further properties of the job manager                                *)
(* ===================================================================== *)

Module JobQueriesProps.

Import JobManager JobQueries JobManagerProps.

(** ** Closed forms *)

Lemma submitJob_full m request uuid t1 t2 :
  (Z.of_nat (size (jobs m)) >= maxJobs (config m))%Z →
  submitJob request uuid t1 t2 m =
    (Throw "Job queue full. Please try again later.", m).
Proof.
  intros Hfull. eff_unfold.
  destruct (Z.geb_spec (Z.of_nat (size (jobs m))) (maxJobs (config m)));
    [reflexivity | lia].
Qed.

Lemma submitJob_room m request uuid t1 t2 :
  (Z.of_nat (size (jobs m)) < maxJobs (config m))%Z →
  submitJob request uuid t1 t2 m =
    (Return {| h_request_id := req_request_id request; h_job_id := uuid;
               h_status := st_in_progress;
               h_poll_after := defaultPollInterval (config m);
               h_progress := None |},
     submitted m request uuid t1 t2).
Proof.
  intros Hroom. eff_unfold.
  destruct (Z.geb_spec (Z.of_nat (size (jobs m))) (maxJobs (config m)));
    [lia|]. simpl.
  eff_step.
  erewrite executeJob_start_eq by (simpl; apply lookup_insert_eq).
  unfold updated, submitted; simpl. eff_step. reflexivity.
Qed.

Lemma resumeJob_readonly m id : (resumeJob id m).2 = m.
Proof.
  eff_unfold. destruct (persistence m !! id); [|reflexivity].
  repeat case_decide; reflexivity.
Qed.

Lemma cleanup_loop_eq now listed cleaned m :
  let hit := filter (λ j, expired now (jobTTL (config m)) j = true) listed in
  cleanup_loop now listed cleaned m =
    (Return (cleaned + Z.of_nat (length hit))%Z, remove_ids (job_id <$> hit) m).
Proof.
  revert cleaned m. induction listed as [|job rest IH]; intros cleaned m; simpl.
  - unfold ret. by rewrite Z.add_0_r.
  - unfold bind at 1. unfold get_manager. rewrite filter_cons.
    destruct (expired now (jobTTL (config m)) job) eqn:E.
    + rewrite decide_True by done.
      unfold bind, persistence_delete, jobs_delete; simpl.
      rewrite (IH (cleaned + 1)%Z). simpl.
      replace (cleaned + 1 + Z.of_nat (length (filter (λ j, expired now (jobTTL (config m)) j = true) rest)))%Z
        with (cleaned + Z.pos (Pos.of_succ_nat (length (filter (λ j, expired now (jobTTL (config m)) j = true) rest))))%Z by lia.
      reflexivity.
    + rewrite decide_False by done. apply IH.
Qed.

Lemma cleanupExpiredJobs_eq now m :
  cleanupExpiredJobs now m =
    (Return (Z.of_nat (length (expired_jobs now m))),
     remove_ids (job_id <$> expired_jobs now m) m).
Proof.
  unfold cleanupExpiredJobs, bind, persistence_list.
  rewrite cleanup_loop_eq. reflexivity.
Qed.

(** ** What deleting identifiers does *)

Lemma remove_ids_heap ids m : heap (remove_ids ids m) = heap m.
Proof. revert m. induction ids as [|id ids IH]; intros m; simpl; [done|]. by rewrite IH. Qed.

Lemma remove_ids_config ids m : config (remove_ids ids m) = config m.
Proof. revert m. induction ids as [|id ids IH]; intros m; simpl; [done|]. by rewrite IH. Qed.

Lemma remove_ids_next_ref ids m : next_ref (remove_ids ids m) = next_ref m.
Proof. revert m. induction ids as [|id ids IH]; intros m; simpl; [done|]. by rewrite IH. Qed.

Lemma remove_ids_persistence ids m id :
  persistence (remove_ids ids m) !! id =
    if decide (id ∈ ids) then None else persistence m !! id.
Proof.
  revert m. induction ids as [|i ids IH]; intros m; cbn [remove_ids].
  - destruct (decide (id ∈ [])) as [Hin|_]; [by apply elem_of_nil in Hin | done].
  - rewrite IH. cbn [delete_job persistence].
    destruct (decide (id ∈ ids)) as [Hin|Hnin];
      destruct (decide (id ∈ i :: ids)) as [Hin'|Hnin']; try done.
    + exfalso. apply Hnin'. by right.
    + apply elem_of_cons in Hin' as [->|?]; [|done]. apply lookup_delete_eq.
    + apply lookup_delete_ne. intros ->. apply Hnin'. by left.
Qed.

Lemma remove_ids_jobs ids m id :
  jobs (remove_ids ids m) !! id =
    if decide (id ∈ ids) then None else jobs m !! id.
Proof.
  revert m. induction ids as [|i ids IH]; intros m; cbn [remove_ids].
  - destruct (decide (id ∈ [])) as [Hin|_]; [by apply elem_of_nil in Hin | done].
  - rewrite IH. cbn [delete_job jobs].
    destruct (decide (id ∈ ids)) as [Hin|Hnin];
      destruct (decide (id ∈ i :: ids)) as [Hin'|Hnin']; try done.
    + exfalso. apply Hnin'. by right.
    + apply elem_of_cons in Hin' as [->|?]; [|done]. apply lookup_delete_eq.
    + apply lookup_delete_ne. intros ->. apply Hnin'. by left.
Qed.

(** ** Every step has one of the four shapes *)

Lemma step_has_shape op m : step_shape (submitted_ids [op]) m (step op m).
Proof.
  destruct op as [request uuid t1 t2|id|id|id now|r percent msg|r v now|r e now|now];
    simpl.
  - destruct (Z.ltb_spec (Z.of_nat (size (jobs m))) (maxJobs (config m))).
    + rewrite submitJob_room by done. simpl. constructor. by left.
    + rewrite submitJob_full by lia. constructor.
  - rewrite pollJob_readonly. constructor.
  - rewrite resumeJob_readonly. constructor.
  - destruct (jobs m !! id) as [r|] eqn:Hid.
    2:{ rewrite cancelJob_unknown by done. constructor. }
    destruct (heap m !! r) as [j|] eqn:Hj.
    2:{ eff_unfold. rewrite Hid; simpl. rewrite Hj. constructor. }
    destruct (decide (status j = Success ∨ status j = Error)) as [Hfin|Hact].
    + rewrite (cancelJob_finished m id r j) by done. constructor.
    + rewrite (cancelJob_effective m id r j) by tauto. simpl.
      econstructor; [exact Hj|]. constructor; tauto.
  - destruct (heap m !! r) as [j|] eqn:Hj.
    + rewrite (onProgress_eq m r j) by done. simpl.
      econstructor; [exact Hj | constructor].
    + eff_unfold. rewrite Hj. constructor.
  - destruct (heap m !! r) as [j|] eqn:Hj.
    + rewrite (executeJob_resolve_eq m r j) by done. simpl.
      econstructor; [exact Hj | constructor].
    + eff_unfold. rewrite Hj. constructor.
  - destruct (heap m !! r) as [j|] eqn:Hj.
    + rewrite (executeJob_reject_eq m r j) by done. simpl.
      econstructor; [exact Hj | constructor].
    + eff_unfold. rewrite Hj. constructor.
  - rewrite cleanupExpiredJobs_eq. simpl. constructor.
Qed.

Lemma step_shape_mono ids ids' m m' :
  (∀ id, id ∈ ids → id ∈ ids') → step_shape ids m m' → step_shape ids' m m'.
Proof. intros Hsub []; econstructor; eauto. Qed.

Lemma submitted_ids_cons op ops :
  submitted_ids (op :: ops) = submitted_ids [op] ++ submitted_ids ops.
Proof. unfold submitted_ids. simpl. destruct op; reflexivity. Qed.

(** An invariant that every shape keeps holds after every run. *)
Lemma run_invariant (Inv : Manager → Prop) ids ops m :
  (∀ m1 m2, Inv m1 → step_shape ids m1 m2 → Inv m2) →
  (∀ id, id ∈ submitted_ids ops → id ∈ ids) →
  Inv m → Inv (run ops m).
Proof.
  intros Hstep. revert m. induction ops as [|op ops IH]; intros m Hids Hm; [done|].
  simpl. rewrite submitted_ids_cons in Hids. apply IH.
  - intros id Hid. apply Hids, elem_of_app. by right.
  - eapply Hstep; [exact Hm|].
    eapply step_shape_mono; [|apply step_has_shape].
    intros id Hid. apply Hids, elem_of_app. by left.
Qed.

Lemma job_change_job_id j j' : job_change j j' → job_id j' = job_id j.
Proof. by intros []. Qed.

(** ** Invariants of runs *)

Lemma well_formed_change j j' : well_formed j → job_change j j' → well_formed j'.
Proof.
  intros (Hp & Hs & Hsucc & Herr & Hcan & Hq) [percent msg|v now|e now|now Hns Hne];
    unfold well_formed; simpl; split_and!; try done; try lia; eauto;
    naive_solver.
Qed.

Lemma well_formed_started request uuid t1 t2 :
  well_formed (set_started_at t2 (set_status Running (new_job request uuid t1))).
Proof. unfold well_formed; simpl. repeat split; try done; eauto. Qed.

Lemma all_jobs_shape (P : Job → Prop) ids m m' :
  (∀ j j', P j → job_change j j' → P j') →
  (∀ request uuid t1 t2,
     P (set_started_at t2 (set_status Running (new_job request uuid t1)))) →
  all_jobs P m → step_shape ids m m' → all_jobs P m'.
Proof.
  intros Hchange Hnew [Hheap Hpers] [|r j j' Hj Hjj'|request uuid t1 t2 _|removed].
  - by split.
  - split; simpl; intros k x; rewrite lookup_insert; case_decide; eauto;
      intros [= <-]; eauto.
  - split; simpl; intros k x; rewrite lookup_insert; case_decide; eauto;
      intros [= <-]; eauto.
  - split.
    + intros r j. rewrite remove_ids_heap. apply Hheap.
    + intros id j. rewrite remove_ids_persistence. case_decide; [done|]. apply Hpers.
Qed.

Lemma keyed_shape ids m m' : keyed m → step_shape ids m m' → keyed m'.
Proof.
  intros Hk [|r j j' Hj Hjj'|request uuid t1 t2 _|removed]; [done|..].
  - intros id x. simpl. rewrite lookup_insert. case_decide; [|apply Hk].
    by intros [= <-].
  - intros id x. simpl. rewrite lookup_insert. case_decide; [|apply Hk].
    by intros [= <-].
  - intros id x. rewrite remove_ids_persistence. case_decide; [done|]. apply Hk.
Qed.

Lemma run_well_formed c ops : all_jobs well_formed (run ops (new_manager c)).
Proof.
  apply (run_invariant _ (submitted_ids ops)); [|done|].
  - intros m1 m2 H1. apply all_jobs_shape;
      [apply well_formed_change | apply well_formed_started | exact H1].
  - split; intros ? ?; simpl; rewrite lookup_empty; discriminate.
Qed.

Lemma run_keyed c ops : keyed (run ops (new_manager c)).
Proof.
  apply (run_invariant _ (submitted_ids ops)); [|done|].
  - intros m1 m2. apply keyed_shape.
  - intros ? ?. simpl. rewrite lookup_empty. discriminate.
Qed.

(** ** What a client reads *)


(** X2.  In every run, a result that [resumeJob] reports as [success]
    carries the stored result and a duration and no error; one it reports
    as [error] carries an error payload with code EXECUTION_ERROR and a
    non-empty message. *)
Theorem resume_terminal_complete c ops id res :
  (resumeJob id (run ops (new_manager c))).1 = Return res →
  (r_status res = st_success →
     is_Some (r_result res) ∧ is_Some (r_duration_ms res) ∧ r_error res = None) ∧
  (r_status res = st_error →
     ∃ payload, r_error res = Some payload ∧
                e_code payload = "EXECUTION_ERROR" ∧ e_message payload ≠ "" ∧
                is_Some (e_details payload)).
Proof.
  destruct (run_well_formed c ops) as [_ Hpers].
  revert Hpers. generalize (run ops (new_manager c)) as m. intros m Hpers.
  eff_unfold. destruct (persistence m !! id) as [j|] eqn:Hj; [|discriminate].
  destruct (Hpers id j Hj) as (_ & Hst & Hsucc & Herr & _).
  unfold response_status.
  destruct (decide (status j = Success)) as [Hs|Hns]; simpl.
  { intros [= <-]. simpl. split; [intros _ | discriminate].
    destruct (Hsucc Hs) as [Hres [tc Hc]]. destruct Hst as [ts Hts].
    rewrite Hc, Hts. eauto. }
  destruct (decide (status j = Error)) as [He|Hne]; simpl.
  { intros [= <-]. simpl. split; [discriminate | intros _].
    destruct (Herr He) as [Herror _].
    eexists. split; [reflexivity|]. simpl. split; [done|]. split; [|done].
    unfold str_or. destruct (_ ≫= _) as [s|]; [|done]. by case_decide. }
  intros [= <-]. simpl. split; discriminate.
Qed.

(** X3.  Once the executor of a started job is fulfilled with [v],
    [resumeJob] returns [v] as the result, with the time between the start
    and the completion as duration. *)
Theorem resume_after_resolve m r j ts v now :
  heap m !! r = Some j → started_at j = Some ts →
  (resumeJob (job_id j) (executeJob_resolve r v now m).2).1 =
    Return {| r_request_id := request_id j; r_status := st_success;
              r_result := Some v; r_duration_ms := Some (now - ts)%Z;
              r_error := None; r_progress := None |}.
Proof.
  intros Hj Hts. rewrite (executeJob_resolve_eq m r j v now Hj).
  eff_unfold. rewrite lookup_insert_eq. simpl. by rewrite Hts.
Qed.



Lemma resume_terminal_complete_witness :
  let res := {| r_request_id := "req-1"; r_status := st_success;
                r_result := Some "done"; r_duration_ms := Some 19%Z;
                r_error := None; r_progress := None |} in
  (resumeJob "job-1" (run two_jobs_run (new_manager no_config))).1 = Return res ∧
  is_Some (r_result res) ∧ is_Some (r_duration_ms res) ∧ r_error res = None.
Proof.
  intros res.
  assert ((resumeJob "job-1" (run two_jobs_run (new_manager no_config))).1 =
          Return res) as Hres by (vm_compute; reflexivity).
  split; [exact Hres|].
  exact (proj1 (resume_terminal_complete no_config two_jobs_run "job-1" res Hres)
           eq_refl).
Defined.

Lemma resume_after_resolve_witness :
  let m := run [OpSubmit sample_request "job-1" 10 11] (new_manager no_config) in
  (resumeJob "job-1" (executeJob_resolve 0 "done" 30 m).2).1 =
    Return {| r_request_id := "req-1"; r_status := st_success;
              r_result := Some "done"; r_duration_ms := Some 19%Z;
              r_error := None; r_progress := None |}.
Proof.
  intros m.
  assert (heap m !! 0 =
          Some (set_started_at 11
                  (set_status Running (new_job sample_request "job-1" 10)))) as Hj
    by (vm_compute; reflexivity).
  exact (resume_after_resolve m 0 _ 11 "done" 30 Hj eq_refl).
Defined.


(** ** The sweep *)

Lemma expired_ids_spec now m id :
  keyed m →
  id ∈ job_id <$> expired_jobs now m ↔
  ∃ j, persistence m !! id = Some j ∧ expired now (jobTTL (config m)) j = true.
Proof.
  intros Hk. unfold expired_jobs. rewrite list_elem_of_fmap. split.
  - intros (j & -> & Hin). apply list_elem_of_filter in Hin as [Hexp Hin].
    apply list_elem_of_fmap in Hin as ([k x] & -> & Hin).
    apply elem_of_map_to_list in Hin. simpl in *.
    exists x. split; [|done]. by rewrite (Hk k x Hin).
  - intros (j & Hj & Hexp). exists j. split; [by rewrite (Hk id j Hj)|].
    apply list_elem_of_filter. split; [done|].
    apply list_elem_of_fmap. exists (id, j). split; [done|].
    by apply elem_of_map_to_list.
Qed.

(** X5.  In every run, the sweep removes from the persistence and from
    the job map exactly the identifiers whose persisted copy is older than
    the TTL and not running, returns their number, and leaves every other
    entry, in particular every running job, as it was. *)
Theorem sweep_removes_exactly_the_expired c ops now :
  let m := run ops (new_manager c) in
  let m' := (cleanupExpiredJobs now m).2 in
  let gone id := ∃ j, persistence m !! id = Some j ∧
                      (now - created_at j > jobTTL (config m))%Z ∧
                      status j ≠ Running in
  (cleanupExpiredJobs now m).1 = Return (Z.of_nat (length (expired_jobs now m))) ∧
  (∀ id, gone id → persistence m' !! id = None ∧ jobs m' !! id = None) ∧
  (∀ id, ¬ gone id →
         persistence m' !! id = persistence m !! id ∧ jobs m' !! id = jobs m !! id) ∧
  heap m' = heap m.
Proof.
  intros m m' gone. subst m'. rewrite cleanupExpiredJobs_eq. simpl.
  assert (∀ id, gone id ↔ id ∈ job_id <$> expired_jobs now m) as Hgone.
  { intros id. rewrite (expired_ids_spec now m id (run_keyed c ops)).
    unfold gone, expired. split; intros (j & Hj & H); exists j; (split; [done|]).
    - destruct H as [Hold Hrun]. apply andb_true_iff. split.
      + apply Z.gtb_lt. lia.
      + by apply bool_decide_eq_true.
    - apply andb_true_iff in H as [Hold Hrun].
      apply Z.gtb_lt in Hold. apply bool_decide_eq_true in Hrun. split; [lia | done]. }
  split; [done|]. split; [|split].
  - intros id Hid. apply Hgone in Hid.
    rewrite remove_ids_persistence, remove_ids_jobs. by rewrite !decide_True.
  - intros id Hid. rewrite Hgone in Hid.
    rewrite remove_ids_persistence, remove_ids_jobs. by rewrite !decide_False.
  - apply remove_ids_heap.
Qed.

Lemma sweep_removes_exactly_the_expired_witness :
  let m := run two_jobs_run (new_manager no_config) in
  let m' := (cleanupExpiredJobs sweep_time m).2 in
  (persistence m' !! "job-1" = None ∧ jobs m' !! "job-1" = None) ∧
  (persistence m' !! "job-2" = persistence m !! "job-2" ∧
   jobs m' !! "job-2" = jobs m !! "job-2").
Proof.
  intros m m'.
  destruct (sweep_removes_exactly_the_expired no_config two_jobs_run sweep_time)
    as (_ & Hgone & Hkept & _).
  split.
  - apply Hgone. exists finished_job.
    split; [vm_compute; reflexivity|]. split; [reflexivity | discriminate].
  - apply Hkept. intros (j & Hj & _ & Hrun).
    vm_compute in Hj. injection Hj as <-. by apply Hrun.
Defined.

(** ** The job map and the persistence agree *)

Lemma in_sync_shape ids m m' :
  in_sync m →
  (∀ r j, heap m !! r = Some j → job_id j ∉ ids) →
  step_shape ids m m' → in_sync m'.
Proof.
  intros (Hjobs & Hinj & Hlt) Hfresh
    [|r j j' Hj Hjj'|request uuid t1 t2 Huuid|removed]; [done|..].
  - pose proof (job_change_job_id _ _ Hjj') as Hid.
    split; [|split]; simpl.
    + intros id r0 Hr0. destruct (Hjobs id r0 Hr0) as (j0 & Hj0 & Hid0 & Hp0).
      destruct (decide (r0 = r)) as [->|Hne].
      * rewrite lookup_insert_eq. exists j'. rewrite Hj in Hj0. injection Hj0 as <-.
        rewrite Hid, Hid0, lookup_insert_eq. by rewrite <- Hid0, <- Hid.
      * rewrite lookup_insert_ne by done. exists j0. split; [done|]. split; [done|].
        rewrite lookup_insert_ne; [done|].
        rewrite Hid. intros Heq. apply Hne. symmetry.
        apply (Hinj r r0 j j0 Hj Hj0). congruence.
    + intros r1 r2 j1 j2.
      destruct (decide (r1 = r)) as [->|Hn1], (decide (r2 = r)) as [->|Hn2];
        rewrite ?lookup_insert_eq, ?lookup_insert_ne by done.
      * done.
      * intros [= <-] H2 Heq. apply (Hinj r r2 j j2 Hj H2). congruence.
      * intros H1 [= <-] Heq. apply (Hinj r1 r j1 j H1 Hj). congruence.
      * apply Hinj.
    + intros r0 j0. destruct (decide (r0 = r)) as [->|Hn0];
        rewrite ?lookup_insert_eq, ?lookup_insert_ne by done.
      * intros _. eapply Hlt, Hj.
      * apply Hlt.
  - set (job := set_started_at t2 (set_status Running (new_job request uuid t1))).
    assert (heap m !! next_ref m = None) as Hnew.
    { destruct (heap m !! next_ref m) eqn:E; [|done].
      apply Hlt in E. lia. }
    split; [|split]; simpl.
    + intros id r0. destruct (decide (id = uuid)) as [->|Hnid].
      * rewrite lookup_insert_eq. intros [= <-]. exists job.
        by rewrite !lookup_insert_eq.
      * rewrite lookup_insert_ne by done.
        intros Hr0. destruct (Hjobs id r0 Hr0) as (j0 & Hj0 & Hid0 & Hp0).
        exists j0. rewrite !lookup_insert_ne; [done|done|].
        intros <-. congruence.
    + intros r1 r2 j1 j2.
      destruct (decide (r1 = next_ref m)) as [->|Hn1],
               (decide (r2 = next_ref m)) as [->|Hn2];
        rewrite ?lookup_insert_eq, ?lookup_insert_ne by done.
      * done.
      * intros [= <-] H2 Heq. exfalso. apply (Hfresh r2 j2 H2).
        by rewrite <- Heq.
      * intros H1 [= <-] Heq. exfalso. apply (Hfresh r1 j1 H1).
        by rewrite Heq.
      * apply Hinj.
    + intros r0 j0. destruct (decide (r0 = next_ref m)) as [->|Hn0];
        rewrite ?lookup_insert_eq, ?lookup_insert_ne by done.
      * intros _. lia.
      * intros H0. apply Hlt in H0. lia.
  - split; [|split].
    + intros id r0. rewrite remove_ids_jobs, remove_ids_heap, remove_ids_persistence.
      case_decide; [done|]. apply Hjobs.
    + intros r1 r2 j1 j2. rewrite !remove_ids_heap. apply Hinj.
    + intros r0 j0. rewrite remove_ids_heap, remove_ids_next_ref. apply Hlt.
Qed.

Lemma heap_ids_shape (known : string → Prop) ids m m' :
  (∀ r j, heap m !! r = Some j → known (job_id j)) →
  step_shape ids m m' →
  ∀ r j, heap m' !! r = Some j → known (job_id j) ∨ job_id j ∈ ids.
Proof.
  intros Hknown [|r0 j0 j' Hj Hjj'|request uuid t1 t2 Huuid|removed] r j; simpl.
  - eauto.
  - rewrite lookup_insert. case_decide; [|eauto].
    intros [= <-]. left. rewrite (job_change_job_id _ _ Hjj'). eauto.
  - rewrite lookup_insert. case_decide; [|eauto].
    intros [= <-]. by right.
  - rewrite remove_ids_heap. eauto.
Qed.

Lemma run_in_sync ops : ∀ (known : string → Prop) m,
  NoDup (submitted_ids ops) →
  (∀ id, id ∈ submitted_ids ops → ¬ known id) →
  (∀ r j, heap m !! r = Some j → known (job_id j)) →
  in_sync m → in_sync (run ops m).
Proof.
  induction ops as [|op ops IH]; intros known m Hnd Hnew Hknown Hsync; [done|].
  simpl. rewrite submitted_ids_cons in Hnd, Hnew.
  apply NoDup_app in Hnd as (Hnd1 & Hdisj & Hnd2).
  apply (IH (λ id, known id ∨ id ∈ submitted_ids [op])); [done|..].
  - intros id Hid [Hk|Hin].
    + apply (Hnew id); [|done]. apply elem_of_app. by right.
    + by apply (Hdisj id).
  - apply (heap_ids_shape known _ m); [done | apply step_has_shape].
  - eapply in_sync_shape; [done| |apply step_has_shape].
    intros r j Hj Hin. apply (Hnew (job_id j)); [|eauto].
    apply elem_of_app. by left.
Qed.



(** ** The ceiling *)

Lemma step_config op m : config (step op m) = config m.
Proof.
  destruct (step_has_shape op m); simpl; try done. apply remove_ids_config.
Qed.

Lemma remove_ids_size ids m : size (jobs (remove_ids ids m)) ≤ size (jobs m).
Proof.
  revert m. induction ids as [|id ids IH]; intros m; simpl; [done|].
  etransitivity; [apply IH|]. simpl.
  apply map_subseteq_size, delete_subseteq.
Qed.

Lemma shape_size_without_submit m m' :
  step_shape [] m m' → size (jobs m') ≤ size (jobs m).
Proof.
  intros [| |? ? ? ? Hin|removed]; simpl; try lia.
  - by apply elem_of_nil in Hin.
  - apply remove_ids_size.
Qed.

Lemma step_size op m :
  (Z.of_nat (size (jobs (step op m))) <=
   Z.max (Z.of_nat (size (jobs m))) (maxJobs (config m)))%Z.
Proof.
  destruct op as [request uuid t1 t2| | | | | | |].
  - simpl. destruct (Z.ltb_spec (Z.of_nat (size (jobs m))) (maxJobs (config m))).
    + rewrite submitJob_room by done. simpl.
      destruct (jobs m !! uuid) eqn:E.
      * rewrite map_size_insert_Some by eauto. lia.
      * rewrite map_size_insert_None by done. lia.
    + rewrite submitJob_full by lia. simpl. lia.
  - pose proof (shape_size_without_submit _ _ (step_has_shape (OpPoll id) m)). lia.
  - pose proof (shape_size_without_submit _ _ (step_has_shape (OpResume id) m)). lia.
  - pose proof (shape_size_without_submit _ _ (step_has_shape (OpCancel id now) m)). lia.
  - pose proof (shape_size_without_submit _ _ (step_has_shape (OpProgress r percent msg) m)). lia.
  - pose proof (shape_size_without_submit _ _ (step_has_shape (OpResolve r v now) m)). lia.
  - pose proof (shape_size_without_submit _ _ (step_has_shape (OpReject r e now) m)). lia.
  - pose proof (shape_size_without_submit _ _ (step_has_shape (OpCleanup now) m)). lia.
Qed.


(** ** Listing *)

Lemma slice0_sublist {A} n (l : list A) : slice0 n l `sublist_of` l.
Proof. unfold slice0. destruct (n <? 0)%Z; apply sublist_take. Qed.

Lemma slice0_length {A} n (l : list A) :
  (0 <= n)%Z → length (slice0 n l) = Nat.min (Z.to_nat n) (length l).
Proof.
  intros Hn. unfold slice0. destruct (Z.ltb_spec n 0); [lia|].
  apply length_take.
Qed.

(** X8.  [list(filter)] returns stored jobs in their stored order; with a
    status it returns exactly the jobs of that status when no limit is
    given; a positive limit [n] keeps the first [n] of them; and a limit of
    0 is no limit at all. *)
Theorem list_jobs_filtered status limit values :
  let result := list_jobs (Some {| f_status := status; f_limit := limit |}) values in
  result `sublist_of` values ∧
  (∀ s, status = Some s → s ≠ "" →
        ∀ j, j ∈ result → status_name (JobManager.status j) = s) ∧
  (∀ s, status = Some s → s ≠ "" → limit = None →
        result = filter (λ j, status_name (JobManager.status j) = s) values) ∧
  (∀ n, limit = Some n → (0 < n)%Z →
        result = take (Z.to_nat n)
                   (list_jobs (Some {| f_status := status; f_limit := None |}) values)) ∧
  (limit = Some 0%Z →
   result = list_jobs (Some {| f_status := status; f_limit := None |}) values).
Proof.
  intros result. subst result. unfold list_jobs. simpl.
  set (jobs1 := match status with
                | Some s => if decide (s = "") then values
                            else filter (λ j, status_name (JobManager.status j) = s) values
                | None => values
                end).
  assert (jobs1 `sublist_of` values) as Hsub.
  { subst jobs1. destruct status as [s|]; [|done].
    case_decide; [done | apply sublist_filter]. }
  split; [|split; [|split; [|split]]].
  - destruct limit as [n|]; [|done].
    destruct (n =? 0)%Z; [done|].
    etransitivity; [apply slice0_sublist | done].
  - intros s -> Hs j Hin. subst jobs1. rewrite decide_False in * by done.
    assert (j ∈ filter (λ j, status_name (JobManager.status j) = s) values) as Hj.
    { destruct limit as [n|]; [|done].
      destruct (n =? 0)%Z; [done|].
      eapply elem_of_sublist; [exact Hin | apply slice0_sublist]. }
    by apply list_elem_of_filter in Hj as [? _].
  - intros s -> Hs ->. subst jobs1. by rewrite decide_False.
  - intros n -> Hn. destruct (Z.eqb_spec n 0); [lia|].
    unfold slice0. destruct (Z.ltb_spec n 0); [lia | done].
  - by intros ->.
Qed.

Lemma list_jobs_filtered_witness :
  let values := [cancelled_job;
                 set_started_at 11 (set_status Running (new_job sample_request "job-2" 10));
                 set_started_at 13 (set_status Running (new_job sample_request "job-3" 12))] in
  list_jobs running_filter values =
    [set_started_at 11 (set_status Running (new_job sample_request "job-2" 10))] ∧
  list_jobs running_filter values =
    take 1 (list_jobs (Some {| f_status := Some "running"; f_limit := None |}) values).
Proof.
  intros values. split; [reflexivity|].
  destruct (list_jobs_filtered (Some "running") (Some 1%Z) values)
    as (_ & _ & _ & Hlimit & _).
  apply (Hlimit 1%Z); [reflexivity | lia].
Defined.

End JobQueriesProps.

(* ===================================================================== *)
(** * Further properties of negotiation, compatibility and the handshake   *)
(* ===================================================================== *)

Module CompatibilityProps.

Import VersionNegotiation Compatibility VersionNegotiationProps.

(** ** Changing the advertised capabilities *)

Lemma remove_first_NoDup c l : NoDup l → NoDup (remove_first c l).
Proof.
  induction 1 as [|x l Hx Hl IH]; simpl; [constructor|].
  case_decide; [done|]. constructor; [|done].
  intros Hin. apply Hx. clear -Hin.
  induction l as [|y l IH]; simpl in *; [done|].
  case_decide; [by right|].
  apply elem_of_cons in Hin as [->|Hin]; [by left | right; auto].
Qed.

Lemma remove_first_elem c l x :
  NoDup l → x ∈ remove_first c l ↔ x ∈ l ∧ x ≠ c.
Proof.
  induction 1 as [|y l Hy Hl IH]; simpl.
  - split; [by intros ?%elem_of_nil | by intros [?%elem_of_nil _]].
  - case_decide as Hyc.
    + subst y. split.
      * intros Hin. split; [by right|]. by intros ->.
      * intros [[->|Hin]%elem_of_cons Hne]; done.
    + rewrite !elem_of_cons, IH. split.
      * intros [->|[Hin Hne]]; [split; [by left|done] | split; [by right|done]].
      * intros [[->|Hin] Hne]; [by left | right; done].
Qed.

Lemma change_NoDup n c :
  NoDup (serverCapabilities n) → NoDup (serverCapabilities (change n c)).
Proof.
  intros Hn. destruct c as [c|c]; simpl.
  - unfold addCapability. case_decide; [done|]. simpl.
    apply NoDup_app. split; [done|]. split; [|apply NoDup_singleton].
    intros x Hx Hc. apply list_elem_of_singleton in Hc as ->. done.
  - by apply remove_first_NoDup.
Qed.

Lemma changes_NoDup cs n :
  NoDup (serverCapabilities n) → NoDup (serverCapabilities (changes cs n)).
Proof.
  revert n. induction cs as [|c cs IH]; intros n Hn; [done|].
  simpl. apply IH, change_NoDup, Hn.
Qed.

Lemma new_negotiator_NoDup : NoDup (serverCapabilities new_negotiator).
Proof. simpl. apply (bool_decide_unpack (NoDup _)). by vm_compute. Qed.

Lemma agreed_subset n h c :
  c ∈ agreed_capabilities (negotiate n h) → c ∈ serverCapabilities n.
Proof.
  unfold negotiate. destruct (negb (isValidHandshake h)); [by intros ?%elem_of_nil|].
  destruct (negb (compatible _)); [by intros ?%elem_of_nil|].
  simpl. intros Hin. by apply negotiateCapabilities_elem in Hin as [_ ?].
Qed.

(** X9.  However the advertised capabilities were changed before, once a
    capability is removed no negotiation agrees on it. *)
Theorem removed_capability_never_agreed cs c h :
  let n := removeCapability (changes cs new_negotiator) c in
  (c ∉ serverCapabilities n) ∧ (c ∉ agreed_capabilities (negotiate n h)).
Proof.
  intros n.
  assert (c ∉ serverCapabilities n) as Hout.
  { subst n. simpl. intros Hin.
    apply remove_first_elem in Hin as [_ Hne]; [done|].
    apply changes_NoDup, new_negotiator_NoDup. }
  split; [done|]. intros Hin. by apply Hout, (agreed_subset n h).
Qed.

Lemma addCapability_versions n c :
  serverVersion (addCapability n c) = serverVersion n ∧
  supportedVersions (addCapability n c) = supportedVersions n.
Proof. unfold addCapability. by case_decide. Qed.

Lemma checkVersionCompatibility_versions n n' v :
  serverVersion n' = serverVersion n → supportedVersions n' = supportedVersions n →
  checkVersionCompatibility n' v = checkVersionCompatibility n v.
Proof. intros Hv Hs. unfold checkVersionCompatibility. by rewrite Hv, Hs. Qed.

(** X10.  Adding a capability makes it negotiable and changes nothing
    else: the negotiation of any handshake succeeds or fails as before, on
    the same version, a client that lists the capability now gets it, and
    adding it a second time changes nothing. *)
Theorem added_capability_is_negotiable n c h :
  success (negotiate (addCapability n c) h) = success (negotiate n h) ∧
  agreed_version (negotiate (addCapability n c) h) = agreed_version (negotiate n h) ∧
  (∀ A, capabilities h = Some A → c ∈ A →
        success (negotiate n h) = true →
        c ∈ agreed_capabilities (negotiate (addCapability n c) h)) ∧
  addCapability (addCapability n c) c = addCapability n c.
Proof.
  destruct (addCapability_versions n c) as [Hv Hs].
  assert (c ∈ serverCapabilities (addCapability n c)) as Hin.
  { unfold addCapability. case_decide; [done|]. simpl.
    apply elem_of_app. right. by left. }
  unfold negotiate.
  rewrite (checkVersionCompatibility_versions n (addCapability n c) _ Hv Hs), Hv.
  destruct (negb (isValidHandshake h)) eqn:Hvalid; simpl.
  { repeat split; try done. unfold addCapability at 1. by rewrite decide_True. }
  destruct (negb (compatible _)) eqn:Hcomp; simpl.
  { repeat split; try done. unfold addCapability at 1. by rewrite decide_True. }
  repeat split; try done.
  - intros A -> HA _. simpl. by apply negotiateCapabilities_elem.
  - unfold addCapability at 1. by rewrite decide_True.
Qed.

Lemma added_capability_is_negotiable_witness :
  agreed_capabilities
    (negotiate (addCapability new_negotiator "tools")
       (handshake (convertToModern legacy_request))) = ["stream"; "tools"].
Proof.
  assert ("tools" ∈ agreed_capabilities
            (negotiate (addCapability new_negotiator "tools")
               (handshake (convertToModern legacy_request)))) as Hin.
  { destruct (added_capability_is_negotiable new_negotiator "tools"
                (handshake (convertToModern legacy_request))) as (_ & _ & Hadd & _).
    apply (Hadd ["stream"; "tools"]); [reflexivity| |reflexivity].
    apply elem_of_cons. right. by left. }
  reflexivity.
Defined.

(** ** The outcome of a negotiation *)

(** X11.  A failed negotiation carries a non-empty error, the server's
    version and no capability; a successful one carries no error, the
    client's or the server's version, and capabilities the server has. *)
Theorem negotiate_outcome n h :
  (success (negotiate n h) = false →
     (∃ e, error (negotiate n h) = Some e ∧ e ≠ "") ∧
     agreed_version (negotiate n h) = serverVersion n ∧
     agreed_capabilities (negotiate n h) = []) ∧
  (success (negotiate n h) = true →
     error (negotiate n h) = None ∧
     isValidHandshake h = true ∧
     (mcp_version h = Some (agreed_version (negotiate n h)) ∨
      agreed_version (negotiate n h) = serverVersion n) ∧
     ∀ c, c ∈ agreed_capabilities (negotiate n h) → c ∈ serverCapabilities n).
Proof.
  split.
  - unfold negotiate. destruct (isValidHandshake h) eqn:Hvalid; simpl.
    2:{ intros _. split; [|done]. eexists; split; [done|discriminate]. }
    destruct (mcp_version h) as [v|] eqn:Hv; simpl.
    2:{ unfold isValidHandshake in Hvalid. by rewrite Hv in Hvalid. }
    unfold checkVersionCompatibility.
    destruct (decide (v = serverVersion n)); [discriminate|].
    destruct (decide (v ∈ supportedVersions n)); [discriminate|].
    destruct (abs_exceeds_1 _); [|discriminate]. simpl.
    intros _. split; [|done]. eexists; split; [done|discriminate].
  - intros Hok. split; [|split; [|split]].
    + revert Hok. unfold negotiate.
      destruct (negb (isValidHandshake h)); [discriminate|].
      by destruct (negb (compatible _)).
    + revert Hok. unfold negotiate.
      by destruct (isValidHandshake h).
    + revert Hok. unfold negotiate.
      destruct (isValidHandshake h) eqn:Hvalid; [|discriminate]. simpl.
      destruct (mcp_version h) as [v|] eqn:Hv; simpl.
      2:{ unfold isValidHandshake in Hvalid. by rewrite Hv in Hvalid. }
      unfold checkVersionCompatibility.
      destruct (decide (v = serverVersion n)); [by left|].
      destruct (decide (v ∈ supportedVersions n)); [by left|].
      destruct (abs_exceeds_1 _); [discriminate|]. by right.
    + intros c. apply agreed_subset.
Qed.

Lemma negotiate_outcome_witness :
  (∃ e, error (negotiate new_negotiator stale_client) = Some e ∧ e ≠ "") ∧
  agreed_version (negotiate new_negotiator stale_client) = "2025-11" ∧
  agreed_capabilities (negotiate new_negotiator stale_client) = [].
Proof.
  apply (proj1 (negotiate_outcome new_negotiator stale_client)). reflexivity.
Defined.

(** X12.  A valid handshake at the server's version or at a version of
    the supported list is accepted with the client's own version, and the
    agreed capabilities are the client's capabilities the server has. *)
Theorem listed_version_accepted n h v A :
  isValidHandshake h = true →
  mcp_version h = Some v → capabilities h = Some A →
  v = serverVersion n ∨ v ∈ supportedVersions n →
  negotiate n h =
    {| success := true; agreed_version := v;
       agreed_capabilities := negotiateCapabilities n A; error := None |}.
Proof.
  intros Hvalid Hv HA Hlisted. unfold negotiate. rewrite Hvalid, Hv, HA. simpl.
  unfold checkVersionCompatibility.
  destruct (decide (v = serverVersion n)); [done|].
  destruct (decide (v ∈ supportedVersions n)); [done|].
  by destruct Hlisted.
Qed.

Lemma listed_version_accepted_witness :
  negotiate new_negotiator current_client =
    {| success := true; agreed_version := "2025-11";
       agreed_capabilities := ["async"]; error := None |}.
Proof.
  apply (listed_version_accepted new_negotiator current_client "2025-11" ["async"]);
    [reflexivity | reflexivity | reflexivity | by left].
Defined.

(** ** Versions that are no calendar tokens *)

Lemma split_without_dash v : has_dash v = false → split "-" v = [v].
Proof.
  induction v as [|c v IH]; simpl; [done|].
  intros [Hc Hv]%orb_false_iff. rewrite Hc, (IH Hv). done.
Qed.

(** X13.  A version string without a dash has no month, the month
    difference is not a number and no comparison with it holds: a valid
    handshake with such a version outside the supported list is accepted,
    pinned to the server's version, whatever the string says. *)
Theorem dashless_version_accepted n h v A :
  isValidHandshake h = true →
  mcp_version h = Some v → capabilities h = Some A →
  has_dash v = false →
  v ≠ serverVersion n → v ∉ supportedVersions n →
  negotiate n h =
    {| success := true; agreed_version := serverVersion n;
       agreed_capabilities := negotiateCapabilities n A; error := None |}.
Proof.
  intros Hvalid Hv HA Hdash Hne Hout.
  unfold negotiate. rewrite Hvalid, Hv, HA. simpl.
  unfold checkVersionCompatibility.
  destruct (decide (v = serverVersion n)); [done|].
  destruct (decide (v ∈ supportedVersions n)); [done|].
  assert (parseVersion v = InvalidDate) as ->.
  { unfold parseVersion. rewrite (split_without_dash v Hdash). simpl.
    by destruct (Number v). }
  reflexivity.
Qed.

Lemma dashless_version_accepted_witness :
  negotiate new_negotiator latest_client =
    {| success := true; agreed_version := "2025-11";
       agreed_capabilities := ["async"]; error := None |}.
Proof.
  apply (dashless_version_accepted new_negotiator latest_client "latest" ["async"]);
    try reflexivity; try discriminate.
  simpl. intros [?|?%list_elem_of_singleton]%elem_of_cons; discriminate.
Defined.

(** ** Legacy requests *)

Lemma or_string_truthy a d : d ≠ "" → truthy (Some (or_string a d)) = true.
Proof.
  intros Hd. unfold or_string, truthy. destruct a as [s|].
  - destruct (String.eqb_spec s ""); apply negb_true_iff, String.eqb_neq; done.
  - apply negb_true_iff, String.eqb_neq; done.
Qed.

(** X14.  A converted legacy request negotiates at version 2025-11 with
    the capabilities it lists that the server has, whatever else it lacks;
    the one exception is a [capabilities] field holding a truthy value
    that is no array, which makes the handshake invalid. *)
Theorem converted_legacy_request_negotiates n request :
  serverVersion n = "2025-11" →
  let h := handshake (convertToModern request) in
  (q_capabilities request ≠ caps_other true →
   ∃ A, capabilities h = Some A ∧
        A = match q_capabilities request with caps_array caps => caps | _ => [] end ∧
        negotiate n h =
          {| success := true; agreed_version := "2025-11";
             agreed_capabilities := negotiateCapabilities n A; error := None |}) ∧
  (q_capabilities request = caps_other true →
   negotiate n h =
     {| success := false; agreed_version := "2025-11"; agreed_capabilities := [];
        error := Some "Invalid handshake structure" |}).
Proof.
  intros Hserver h. split.
  - intros Hcaps.
    assert (∃ A, capabilities h = Some A ∧
                 A = match q_capabilities request with
                     | caps_array caps => caps | _ => [] end) as (A & HA & HAeq).
    { subst h. simpl. destruct (q_capabilities request) as [|caps|[|]]; eauto.
      done. }
    exists A. split; [done|]. split; [done|].
    rewrite <- Hserver.
    apply listed_version_accepted; [|by rewrite Hserver|done|by left; rewrite Hserver].
    unfold isValidHandshake. rewrite HA. subst h.
    cbn [convertToModern handshake mcp_version transport].
    rewrite or_string_truthy by done. reflexivity.
  - intros Hcaps. subst h. unfold negotiate, isValidHandshake.
    cbn [convertToModern handshake mcp_version transport capabilities].
    rewrite Hcaps, or_string_truthy by done. simpl.
    by rewrite Hserver.
Qed.

Lemma converted_legacy_request_negotiates_witness :
  negotiate new_negotiator (handshake (convertToModern legacy_request)) =
    {| success := true; agreed_version := "2025-11";
       agreed_capabilities := ["stream"]; error := None |} ∧
  negotiate new_negotiator (handshake (convertToModern odd_legacy_request)) =
    {| success := false; agreed_version := "2025-11"; agreed_capabilities := [];
       error := Some "Invalid handshake structure" |}.
Proof.
  split.
  - destruct (proj1 (converted_legacy_request_negotiates new_negotiator
                       legacy_request eq_refl)) as (A & HA & -> & Hn);
      [discriminate|]. exact Hn.
  - apply (proj2 (converted_legacy_request_negotiates new_negotiator
                    odd_legacy_request eq_refl)). reflexivity.
Defined.

(** X15.  [convertToLegacy] returns the response itself unless the legacy
    shape is requested; then it keeps every property of the modern
    response with its value and adds [version], [serverId] and
    [capabilities] only where the response has no property of that name. *)
Theorem convertToLegacy_keeps_modern_fields response :
  convertToLegacy response false = response ∧
  (∀ key value, response !! key = Some value →
                convertToLegacy response true !! key = Some value) ∧
  (response !! "version" = None →
   get (convertToLegacy response true) "version" = get response "mcp_version") ∧
  (response !! "serverId" = None →
   get (convertToLegacy response true) "serverId" = get response "server_id") ∧
  get (convertToLegacy response true) "capabilities" = get response "capabilities" ∧
  (∀ key, key ∉ ["version"; "serverId"; "capabilities"] →
          convertToLegacy response true !! key = response !! key).
Proof.
  unfold convertToLegacy, get. simpl. split; [done|]. split; [|split; [|split; [|split]]].
  - intros key value Hk. by apply lookup_union_Some_l.
  - intros Hnone. rewrite lookup_union_r by done. by rewrite lookup_insert_eq.
  - intros Hnone. rewrite lookup_union_r by done.
    rewrite lookup_insert_ne by done. by rewrite lookup_insert_eq.
  - destruct (response !! "capabilities") as [v|] eqn:E.
    + by rewrite (lookup_union_Some_l _ _ _ _ E).
    + rewrite lookup_union_r by done.
      rewrite !lookup_insert_ne by done. by rewrite lookup_insert_eq.
  - intros key Hkey.
    destruct (response !! key) as [v|] eqn:E.
    + by apply lookup_union_Some_l.
    + rewrite lookup_union_r by done.
      rewrite !lookup_insert_ne; [apply lookup_empty|..];
        intros <-; apply Hkey; repeat constructor.
Qed.

Lemma convertToLegacy_keeps_modern_fields_witness :
  let response : gmap string (option string) :=
    {[ "mcp_version" := Some "2025-11"; "version" := Some "modern" ]} in
  get (convertToLegacy response true) "version" = Some "modern" ∧
  get (convertToLegacy response true) "serverId" = None.
Proof.
  intros response.
  destruct (convertToLegacy_keeps_modern_fields response)
    as (_ & Hkeep & _ & Hid & _).
  split.
  - unfold get. by rewrite (Hkeep "version" (Some "modern")).
  - rewrite Hid by (by vm_compute). by vm_compute.
Defined.

End CompatibilityProps.

Module HandshakingProps.

Import JobManager Server VersionNegotiation Compatibility Handshaking.
Import JobManagerProps JobQueries JobQueriesProps VersionNegotiationProps
  CompatibilityProps ServerProps.

(** X16.  A handshake either fails, throwing "Version negotiation failed:
    ..." and leaving the server as it was, or stores a session for the
    identifier, with the version and the capabilities that are returned to
    the client: the negotiated ones, all of which the server has.  No
    other session and no job is touched. *)
Theorem handleHandshake_outcome n supportLegacy serverId transport s request sid :
  let out := handleHandshake n supportLegacy serverId transport s request sid in
  match out.1 with
  | Return sh =>
      (∃ sess, sessions out.2 !! sid = Some sess ∧
               s_version sess = sh_mcp_version sh ∧
               s_capabilities sess = sh_capabilities sh ∧
               isLegacy sess = isLegacyRequest request) ∧
      (∀ c, c ∈ sh_capabilities sh → c ∈ serverCapabilities n) ∧
      (∀ other, other ≠ sid → sessions out.2 !! other = sessions s !! other) ∧
      jobManager out.2 = jobManager s
  | Throw msg =>
      out.2 = s ∧ ∃ e, e ≠ "" ∧ msg = "Version negotiation failed: " +:+ e
  end.
Proof.
  unfold handleHandshake.
  set (h := if isLegacyRequest request && supportLegacy
            then handshake (convertToModern request) else as_handshake request).
  destruct (success (negotiate n h)) eqn:Hok; simpl.
  - split; [|split; [|split]]; try done.
    + eexists. rewrite lookup_insert_eq. split; [done|]. done.
    + intros c. apply agreed_subset.
    + intros other Hne. by rewrite lookup_insert_ne.
  - split; [done|].
    destruct (proj1 (negotiate_outcome n h) Hok) as ((e & He & Hne) & _).
    exists e. rewrite He. done.
Qed.

(** X17.  A client that was not granted [async] in its handshake never
    receives a job handle afterwards, whatever mode its requests ask for,
    and its tool calls leave the server state as it is. *)
Theorem no_job_handle_without_granted_async
    getTool validateInput n supportLegacy serverId transport s hello sid sh
    request uuid t0 t1 :
  let s' := (handleHandshake n supportLegacy serverId transport s hello sid).2 in
  (handleHandshake n supportLegacy serverId transport s hello sid).1 = Return sh →
  "async" ∉ sh_capabilities sh →
  (handleToolCall getTool validateInput s' request sid uuid t0 t1).2 = s' ∧
  ∀ h, (handleToolCall getTool validateInput s' request sid uuid t0 t1).1
       ≠ Return (JobHandle h).
Proof.
  intros s' Hsh Hcap.
  pose proof (handleHandshake_outcome n supportLegacy serverId transport s hello sid)
    as Hout. simpl in Hout. rewrite Hsh in Hout.
  destruct Hout as ((sess & Hsess & _ & Hcaps & _) & _).
  apply (no_job_without_capability getTool validateInput s' request sid sess);
    [done | by rewrite Hcaps].
Qed.

Lemma no_job_handle_without_granted_async_witness :
  let s' := (handleHandshake new_negotiator true "srv" "stdio" empty_server
               modern_request "session-1").2 in
  (handleToolCall sample_getTool accept_all s' async_request "session-1"
     "job-1" 100 130).1 = Return (SyncResponse "req-7" st_success "{}" 30) ∧
  (handleToolCall sample_getTool accept_all s' async_request "session-1"
     "job-1" 100 130).2 = s'.
Proof.
  intros s'. split; [by vm_compute|].
  apply (no_job_handle_without_granted_async sample_getTool accept_all
           new_negotiator true "srv" "stdio" empty_server modern_request "session-1"
           {| sh_mcp_version := "2025-11"; sh_server_id := "srv";
              sh_transport := "stdio"; sh_capabilities := ["stream"];
              sh_name := "Claude Flow"; sh_version := "2.7.32";
              sh_description :=
                "Enterprise AI orchestration with MCP 2025-11 support" |}).
  - by vm_compute.
  - simpl. intros ?%list_elem_of_singleton. discriminate.
Defined.

Section Dispatch.
Context (getTool : string → option Tool)
        (validateInput : string → option Json → Validation).

#[local] Abbreviation handleToolCall := (handleToolCall getTool validateInput).

(** X18.  A modern request with mode [async] on a session that has the
    [async] capability is handed to the job manager without running the
    handler: below the ceiling the answer is the handle of a job started
    under the generated identifier, at the ceiling the call throws "Job
    queue full" and the manager is unchanged. *)
Theorem async_request_is_submitted
    s request sid sess tool_id tool m uuid t0 t1 :
  sessions s !! sid = Some sess →
  isLegacy sess = false →
  "async" ∈ s_capabilities sess →
  c_mode request = Some "async" →
  present (c_tool_id request) = Some tool_id →
  getTool tool_id = Some tool →
  (validation_enabled s = true →
   valid (validateInput (t_inputSchema tool) (c_arguments request)) = true) →
  jobManager s = Some m →
  let job_request :=
    {| req_request_id := c_request_id request; req_tool_id := tool_id;
       req_arguments := c_arguments request; req_mode := c_mode request;
       req_context := c_context request |} in
  ((Z.of_nat (size (jobs m)) < maxJobs (config m))%Z →
   handleToolCall s request sid uuid t0 t1 =
     (Return (JobHandle {| h_request_id := c_request_id request; h_job_id := uuid;
                           h_status := st_in_progress;
                           h_poll_after := defaultPollInterval (config m);
                           h_progress := None |}),
      with_jobManager s (submitted m job_request uuid t0 t1))) ∧
  ((Z.of_nat (size (jobs m)) >= maxJobs (config m))%Z →
   handleToolCall s request sid uuid t0 t1 =
     (Throw "Job queue full. Please try again later.", with_jobManager s m)).
Proof.
  intros Hsess Hmodern Hcap Hmode Htid Htool Hvalid Hm job_request.
  unfold Server.handleToolCall. rewrite Hsess. cbn -[submitJob].
  rewrite Hmodern, Htid, Htool, Hmode, Hm.
  rewrite (bool_decide_eq_true_2 _ Hcap), bool_decide_eq_true_2 by done.
  assert (validation_enabled s &&
          negb (valid (validateInput (t_inputSchema tool) (c_arguments request)))
          = false) as ->.
  { destruct (validation_enabled s); [|done]. by rewrite Hvalid. }
  cbn -[submitJob]. subst job_request. rewrite Hmode. split; intros Hsize.
  - by rewrite submitJob_room.
  - by rewrite submitJob_full.
Qed.

(** X19.  With async jobs disabled there is no job manager, and a request
    with mode [async] is executed at once even on a session that has the
    [async] capability. *)
Theorem async_request_without_job_manager
    s request sid sess tool_id tool result uuid t0 t1 :
  jobManager s = None →
  sessions s !! sid = Some sess →
  isLegacy sess = false →
  present (c_tool_id request) = Some tool_id →
  getTool tool_id = Some tool →
  (validation_enabled s = true →
   valid (validateInput (t_inputSchema tool) (c_arguments request)) = true) →
  handler tool (c_arguments request) sid = Resolves result →
  handleToolCall s request sid uuid t0 t1 =
    (Return (SyncResponse (c_request_id request) st_success result (t1 - t0)%Z), s).
Proof.
  intros Hm Hsess Hmodern Htid Htool Hvalid Hrun.
  unfold Server.handleToolCall. rewrite Hsess. simpl.
  rewrite Hmodern, Htid, Htool, Hm.
  assert (validation_enabled s &&
          negb (valid (validateInput (t_inputSchema tool) (c_arguments request)))
          = false) as ->.
  { destruct (validation_enabled s); [|done]. by rewrite Hvalid. }
  rewrite Hrun. by destruct (_ && _).
Qed.


End Dispatch.

Lemma async_request_is_submitted_witness :
  (handleToolCall sample_getTool accept_all async_session_server async_request
     "session-2" "job-1" 100 101).1 =
    Return (JobHandle {| h_request_id := "req-7"; h_job_id := "job-1";
                         h_status := st_in_progress; h_poll_after := 5;
                         h_progress := None |}).
Proof.
  assert (sessions async_session_server !! "session-2" =
          Some {| clientId := "client-2"; s_version := "2025-11";
                  s_capabilities := ["async"]; isLegacy := false |}) as Hsess
    by (by vm_compute).
  assert ("async" ∈ ["async"]) as Hcap by (by apply list_elem_of_singleton).
  assert ((Z.of_nat (size (jobs (new_manager no_config)))
           < maxJobs (config (new_manager no_config)))%Z) as Hroom
    by (by vm_compute).
  rewrite (proj1 (async_request_is_submitted sample_getTool accept_all
                    async_session_server async_request "session-2" _
                    "system/echo" echo_tool (new_manager no_config) "job-1" 100 101
                    Hsess eq_refl Hcap eq_refl eq_refl eq_refl (λ _, eq_refl) eq_refl)
             Hroom).
  reflexivity.
Defined.

Lemma async_request_without_job_manager_witness :
  handleToolCall sample_getTool accept_all no_jobs_server async_request
    "session-2" "job-1" 100 130 =
    (Return (SyncResponse "req-7" st_success "{}" 30), no_jobs_server).
Proof.
  assert (sessions no_jobs_server !! "session-2" =
          Some {| clientId := "client-2"; s_version := "2025-11";
                  s_capabilities := ["async"]; isLegacy := false |}) as Hsess
    by (by vm_compute).
  exact (async_request_without_job_manager sample_getTool accept_all
           no_jobs_server async_request "session-2" _
           "system/echo" echo_tool "{}" "job-1" 100 130
           eq_refl Hsess eq_refl eq_refl eq_refl (λ _, eq_refl) eq_refl).
Defined.


End HandshakingProps.

(* ===================================================================== *)
(** * Further properties of the tool loader                                *)
(* ===================================================================== *)

Module ToolCatalogProps.

Import ToolLoader ToolCatalog ToolLoaderProps.

(** ** Insertion-ordered maps *)

Lemma map_set_keys {V} key (v : V) entries x :
  x ∈ (map_set key v entries).*1 ↔ x = key ∨ x ∈ entries.*1.
Proof.
  induction entries as [|[k y] entries IH]; simpl.
  - rewrite list_elem_of_singleton. split; [by left | intros [?|?%elem_of_nil]; done].
  - case_decide as Hk; simpl; rewrite !elem_of_cons.
    + subst k. tauto.
    + rewrite IH. tauto.
Qed.

Lemma map_set_NoDup {V} key (v : V) entries :
  NoDup entries.*1 → NoDup (map_set key v entries).*1.
Proof.
  induction entries as [|[k y] entries IH]; simpl; intros Hnd.
  - apply NoDup_singleton.
  - apply NoDup_cons in Hnd as [Hk Hnd]. case_decide; simpl.
    + by apply NoDup_cons.
    + apply NoDup_cons. split; [|by apply IH].
      rewrite map_set_keys. intros [?|?]; [congruence|done].
Qed.

Lemma map_set_elem {V} key (v : V) entries k x :
  (k, x) ∈ map_set key v entries → (k = key ∧ x = v) ∨ (k, x) ∈ entries.
Proof.
  induction entries as [|[k' y] entries IH]; simpl.
  - intros [= -> ->]%list_elem_of_singleton. by left.
  - case_decide; rewrite !elem_of_cons.
    + intros [[= -> ->]|Hin]; [by left | right; by right].
    + intros [Heq|Hin]; [right; by left|].
      destruct (IH Hin); [by left | right; by right].
Qed.

Lemma map_get_set {V} key (v : V) entries k :
  map_get k (map_set key v entries) =
    if decide (k = key) then Some v else map_get k entries.
Proof.
  induction entries as [|[k' y] entries IH]; simpl.
  - destruct (decide (key = k)), (decide (k = key)); congruence.
  - destruct (decide (k' = key)) as [->|Hne]; simpl.
    + destruct (decide (key = k)), (decide (k = key)); congruence.
    + rewrite IH. destruct (decide (k' = k)), (decide (k = key)); congruence.
Qed.

Section Scan.
Context (readdir_entries : string → option (list Dirent))
        (readdir_names : string → option (list string))
        (join : string → string → string)
        (extname : string → string)
        (import_toolMetadata : string → option (option ToolMetadata)).

#[local] Abbreviation scanTools :=
  (scanTools readdir_entries readdir_names join extname import_toolMetadata).
#[local] Abbreviation scan_category :=
  (scan_category readdir_names join extname import_toolMetadata).
#[local] Abbreviation scan_file := (scan_file join import_toolMetadata).

#[local] Abbreviation scanned_entry :=
  (scanned_entry join extname import_toolMetadata).

Lemma scan_file_keeps (P : string * ToolMetadata → Prop) category categoryPath l f :
  (∀ exported,
     import_toolMetadata (join categoryPath f) = Some (Some exported) →
     P (name exported,
        {| name := name exported; description := description exported;
           category := category; detailLevel := detailLevel exported;
           tags := tags exported; filePath := join categoryPath f |})) →
  Forall P (metadataCache l) → NoDup (metadataCache l).*1 →
  let l' := scan_file category categoryPath l f in
  Forall P (metadataCache l') ∧ NoDup (metadataCache l').*1 ∧ same_tools l l'.
Proof.
  intros Hnew HP Hnd. unfold ToolCatalog.scan_file.
  destruct (import_toolMetadata (join categoryPath f)) as [[exported|]|];
    simpl; [|done..].
  split; [|split; [|done]].
  - apply Forall_forall. intros [k x] Hin.
    apply map_set_elem in Hin as [[-> ->]|Hin]; [by apply Hnew|].
    by apply (proj1 (Forall_forall _ _) HP).
  - by apply map_set_NoDup.
Qed.

Lemma scan_files_keep (P : string * ToolMetadata → Prop) category categoryPath fs :
  ∀ l,
  (∀ f exported, f ∈ fs →
     import_toolMetadata (join categoryPath f) = Some (Some exported) →
     P (name exported,
        {| name := name exported; description := description exported;
           category := category; detailLevel := detailLevel exported;
           tags := tags exported; filePath := join categoryPath f |})) →
  Forall P (metadataCache l) → NoDup (metadataCache l).*1 →
  let l' := foldl (scan_file category categoryPath) l fs in
  Forall P (metadataCache l') ∧ NoDup (metadataCache l').*1 ∧ same_tools l l'.
Proof.
  induction fs as [|f fs IH]; intros l Hnew HP Hnd; simpl; [done|].
  destruct (scan_file_keeps P category categoryPath l f) as (HP1 & Hnd1 & Hs1);
    [intros; apply Hnew; [by left|done] | done | done |].
  destruct (IH (scan_file category categoryPath l f)) as (HP2 & Hnd2 & Hs2);
    [intros; apply Hnew; [by right|done] | done | done |].
  split; [done|]. split; [done|].
  destruct Hs1 as (? & ? & ?), Hs2 as (? & ? & ?). repeat split; congruence.
Qed.

Lemma scan_categories_keep dir entries cats :
  ∀ l,
  (∀ e, e ∈ cats → e ∈ entries ∧ d_isDirectory e = true ∧ hidden (d_name e) = false) →
  Forall (scanned_entry dir entries) (metadataCache l) → NoDup (metadataCache l).*1 →
  let l' := foldl (scan_category dir) l cats in
  Forall (scanned_entry dir entries) (metadataCache l') ∧
  NoDup (metadataCache l').*1 ∧ same_tools l l'.
Proof.
  induction cats as [|e cats IH]; intros l Hcats HP Hnd; simpl; [done|].
  destruct (Hcats e) as (He & Hdir & Hvis); [by left|].
  assert (let l1 := scan_category dir l e in
          Forall (scanned_entry dir entries) (metadataCache l1) ∧
          NoDup (metadataCache l1).*1 ∧ same_tools l l1) as (HP1 & Hnd1 & Hs1).
  { unfold ToolCatalog.scan_category.
    destruct (readdir_names (join dir (d_name e))) as [fs|]; [|done].
    apply scan_files_keep; [|done..].
    intros f exported Hf Himp. apply list_elem_of_In, filter_In in Hf as [_ Hf].
    unfold valid_tool_file in Hf. apply andb_true_iff in Hf as [Hext Hvisf].
    apply negb_true_iff in Hvisf.
    split; [done|]. split; [by exists e|].
    exists f, exported. simpl. repeat split; try done.
    apply orb_true_iff in Hext as [?%String.eqb_eq|?%String.eqb_eq]; auto. }
  destruct (IH (scan_category dir l e)) as (HP2 & Hnd2 & Hs2);
    [intros; apply Hcats; by right | done | done |].
  split; [done|]. split; [done|].
  destruct Hs1 as (? & ? & ?), Hs2 as (? & ? & ?). repeat split; congruence.
Qed.


End Scan.


(** ** Groups by category *)

Lemma push_to_category_get c md groups k :
  map_get k (push_to_category c md groups) =
    if decide (k = c) then Some (default [] (map_get c groups) ++ [md])
    else map_get k groups.
Proof.
  induction groups as [|[c' tools] groups IH]; simpl.
  - destruct (decide (c = k)), (decide (k = c)); congruence.
  - destruct (decide (c' = c)) as [->|Hne]; simpl.
    + destruct (decide (c = k)), (decide (k = c)); congruence.
    + rewrite IH. destruct (decide (c' = k)), (decide (k = c)); congruence.
Qed.

Lemma push_to_category_keys c md groups x :
  x ∈ (push_to_category c md groups).*1 ↔ x = c ∨ x ∈ groups.*1.
Proof.
  induction groups as [|[k y] groups IH]; simpl.
  - rewrite list_elem_of_singleton. split; [by left | intros [?|?%elem_of_nil]; done].
  - case_decide as Hk; simpl; rewrite !elem_of_cons.
    + subst k. tauto.
    + rewrite IH. tauto.
Qed.

Lemma push_to_category_NoDup c md groups :
  NoDup groups.*1 → NoDup (push_to_category c md groups).*1.
Proof.
  induction groups as [|[k y] groups IH]; simpl; intros Hnd.
  - apply NoDup_singleton.
  - apply NoDup_cons in Hnd as [Hk Hnd]. case_decide; simpl.
    + by apply NoDup_cons.
    + apply NoDup_cons. split; [|by apply IH].
      rewrite push_to_category_keys. intros [?|?]; [congruence|done].
Qed.

Lemma grouped_snoc values groups md :
  grouped values groups →
  grouped (values ++ [md]) (push_to_category (category md) md groups).
Proof.
  intros [Hnd Hget]. split; [by apply push_to_category_NoDup|].
  intros c. rewrite push_to_category_get. unfold in_category in *.
  rewrite filter_app, filter_cons, filter_nil.
  destruct (decide (c = category md)) as [->|Hne].
  - rewrite (decide_True (P := category md = category md)) by done.
    rewrite Hget.
    destruct (decide (filter (λ metadata, category metadata = category md) values = []))
      as [Hempty|Hne']; simpl.
    + rewrite Hempty. reflexivity.
    + rewrite decide_False; [done|].
      intros Happ. by apply app_eq_nil in Happ as [_ ?].
  - rewrite (decide_False (P := category md = c)) by congruence.
    rewrite app_nil_r. apply Hget.
Qed.

Lemma getToolsByCategory_grouped l :
  grouped ((metadataCache l).*2) (getToolsByCategory l).
Proof.
  unfold getToolsByCategory.
  generalize ((metadataCache l).*2) as values. intros values.
  assert (∀ done groups, grouped done groups →
            grouped (done ++ values)
              (foldl (λ byCategory metadata,
                        push_to_category (category metadata) metadata byCategory)
                     groups values)) as Hgen.
  { induction values as [|md values IH]; intros done groups Hg; simpl.
    - by rewrite app_nil_r.
    - rewrite cons_middle, app_assoc. apply IH. by apply grouped_snoc. }
  apply (Hgen [] []). split; [constructor|]. intros c. by rewrite decide_True.
Qed.

Lemma map_get_elem {V} (entries : list (string * V)) k v :
  NoDup entries.*1 → (k, v) ∈ entries ↔ map_get k entries = Some v.
Proof.
  induction entries as [|[k' x] entries IH]; simpl; intros Hnd.
  - split; [by intros ?%elem_of_nil | discriminate].
  - apply NoDup_cons in Hnd as [Hk Hnd]. rewrite elem_of_cons.
    destruct (decide (k' = k)) as [->|Hne].
    + split.
      * intros [[= ->]|Hin]; [done|]. exfalso. apply Hk.
        apply list_elem_of_fmap. by exists (k, v).
      * intros [= ->]. by left.
    + rewrite <- IH by done. split; [intros [[= ]|?]; congruence | by right].
Qed.

(** X22.  [getToolsByCategory] has one group for each category that has a
    tool and no other; the group of a category holds exactly the cache
    entries of that category, in the order of the cache. *)
Theorem tools_by_category_groups l c tools :
  (c, tools) ∈ getToolsByCategory l ↔
  tools = in_category c ((metadataCache l).*2) ∧ tools ≠ [].
Proof.
  destruct (getToolsByCategory_grouped l) as [Hnd Hget].
  rewrite (map_get_elem _ c tools Hnd), Hget.
  case_decide as Hempty.
  - split; [discriminate|]. intros [-> Hne]. done.
  - split; [by intros [= <-] | by intros [-> _]].
Qed.

(** ** Statistics *)

Lemma insert_string_Permutation x l : insert_string x l ≡ₚ x :: l.
Proof.
  induction l as [|y l IH]; simpl; [done|].
  destruct (String.leb y x); [|done]. rewrite IH. apply perm_swap.
Qed.

Lemma sort_strings_Permutation l : sort_strings l ≡ₚ l.
Proof.
  unfold sort_strings.
  assert (∀ acc, foldl (λ sorted x, insert_string x sorted) acc l ≡ₚ l ++ acc) as H.
  { induction l as [|x l IH]; intros acc; simpl; [done|].
    rewrite IH, insert_string_Permutation. by rewrite Permutation_middle. }
  by rewrite H, app_nil_r.
Qed.

Lemma leb_codeunit a b : String.leb a b = true ↔ (codeunit_compare a b <= 0)%Z.
Proof.
  rewrite codeunit_compare_le. unfold String.leb.
  destruct (String.compare a b); split; done.
Qed.

Lemma insert_string_sorted x l :
  StronglySorted (λ a b, String.leb a b = true) l →
  StronglySorted (λ a b, String.leb a b = true) (insert_string x l).
Proof.
  induction 1 as [|y l Hl IH Hy]; simpl.
  - repeat constructor.
  - destruct (String.leb y x) eqn:E.
    + constructor; [exact IH|].
      rewrite insert_string_Permutation. by constructor.
    + assert (String.leb x y = true) as Hxy.
      { destruct (String.leb_total x y); congruence. }
      constructor; [by constructor|]. constructor; [done|].
      eapply Forall_impl; [exact Hy|]. intros z Hz. simpl in *.
      apply leb_codeunit. eapply codeunit_compare_trans; by apply leb_codeunit.
Qed.

Lemma sort_strings_sorted l :
  StronglySorted (λ a b, String.leb a b = true) (sort_strings l).
Proof.
  unfold sort_strings.
  assert (∀ acc, StronglySorted (λ a b, String.leb a b = true) acc →
            StronglySorted (λ a b, String.leb a b = true)
              (foldl (λ sorted x, insert_string x sorted) acc l)) as H.
  { induction l as [|x l IH]; intros acc Hacc; simpl; [done|].
    by apply IH, insert_string_sorted. }
  apply H. constructor.
Qed.

Lemma sum_list_fmap_add {A} (f g : A → nat) (l : list A) :
  sum_list ((λ x, f x + g x) <$> l) = sum_list (f <$> l) + sum_list (g <$> l).
Proof.
  induction l as [|x l IH]; [done|].
  rewrite !fmap_cons. cbn [sum_list sum_list_with id]. rewrite IH. lia.
Qed.

Lemma sum_list_indicator (x : string) K :
  NoDup K → x ∈ K →
  sum_list ((λ c, if decide (x = c) then 1 else 0) <$> K) = 1.
Proof.
  induction 1 as [|c K Hc HK IH]; [by intros ?%elem_of_nil|].
  intros [->|Hin]%elem_of_cons; rewrite fmap_cons; cbn [sum_list sum_list_with id].
  - rewrite decide_True by done.
    assert (sum_list ((λ c0, if decide (c = c0) then 1 else 0) <$> K) = 0) as ->; [|done].
    clear IH HK. induction K as [|c' K IHK]; [done|].
    apply not_elem_of_cons in Hc as [Hne Hc].
    rewrite fmap_cons; cbn [sum_list sum_list_with id].
    rewrite decide_False by done. by rewrite IHK.
  - rewrite decide_False by (intros ->; done). by rewrite IH.
Qed.

Lemma count_by_category (K : list string) values :
  NoDup K → (∀ md, md ∈ values → category md ∈ K) →
  sum_list ((λ c, length (in_category c values)) <$> K) = length values.
Proof.
  intros HK. induction values as [|md values IH]; intros Hcat.
  - clear. induction K as [|c K IHK]; [done|].
    rewrite fmap_cons; cbn [sum_list sum_list_with id]. by rewrite IHK.
  - transitivity
      (sum_list ((λ c, (if decide (category md = c) then 1 else 0)
                       + length (in_category c values)) <$> K)).
    + f_equal. apply list_fmap_ext. intros i c _.
      unfold in_category. rewrite filter_cons. by case_decide.
    + rewrite sum_list_fmap_add, IH by (intros; apply Hcat; by right).
      rewrite sum_list_indicator; [done | done | apply Hcat; by left].
Qed.

Lemma counted_keys {A} (groups : list (string * list A)) :
  (map (λ '(cat, tools), (cat, length tools)) groups).*1 = groups.*1.
Proof.
  induction groups as [|[c tools] groups IH]; [done|].
  change ((c :: (map (λ '(cat, tools), (cat, length tools)) groups).*1)
          = c :: groups.*1). by f_equal.
Qed.

(** X23.  In the statistics of the loader the numbers of tools per
    category add up to the total number of tools; the categories listed
    are those that have a tool, each once, in ascending order; and the
    number given for a category is the number of its cache entries. *)
Theorem getStats_counts_add_up sl :
  let st := getStats sl in
  let values := (metadataCache (loader sl)).*2 in
  sum_list ((λ c, default 0 (toolsByCategory st !! c)) <$> categories st)
    = totalTools st ∧
  NoDup (categories st) ∧
  StronglySorted (λ a b, String.leb a b = true) (categories st) ∧
  (∀ c, c ∈ categories st ↔ ∃ md, md ∈ values ∧ category md = c) ∧
  (∀ c, c ∈ categories st →
        toolsByCategory st !! c = Some (length (in_category c values))).
Proof.
  intros st values.
  destruct (getToolsByCategory_grouped (loader sl)) as [Hnd Hget].
  fold values in Hget.
  set (groups := getToolsByCategory (loader sl)) in *.
  assert (∀ c, c ∈ groups.*1 ↔ in_category c values ≠ []) as Hkeys.
  { intros c. rewrite list_elem_of_fmap. split.
    - intros ([c' tools] & -> & Hin). simpl.
      apply (map_get_elem _ _ _ Hnd) in Hin. rewrite Hget in Hin.
      by case_decide.
    - intros Hne. exists (c, in_category c values). split; [done|].
      apply (map_get_elem _ _ _ Hnd). rewrite Hget. by rewrite decide_False. }
  assert (∀ c, c ∈ groups.*1 →
               toolsByCategory st !! c = Some (length (in_category c values)))
    as Hcount.
  { intros c Hc. subst st. simpl. fold groups.
    apply elem_of_list_to_map.
    - by rewrite counted_keys.
    - apply list_elem_of_In, in_map_iff.
      exists (c, in_category c values). split; [done|].
      apply list_elem_of_In, (map_get_elem _ _ _ Hnd). rewrite Hget.
      rewrite decide_False; [done|]. by apply Hkeys. }
  assert (categories st ≡ₚ groups.*1) as Hperm by apply sort_strings_Permutation.
  split; [|split; [|split; [|split]]].
  - rewrite Hperm.
    transitivity (sum_list ((λ c, length (in_category c values)) <$> groups.*1)).
    + f_equal. apply list_fmap_ext. intros i c Hc. rewrite Hcount; [done|]. by eapply list_elem_of_lookup_2.
    + subst st. simpl. rewrite (count_by_category _ values Hnd).
      * subst values. by rewrite length_fmap.
      * intros md Hmd. apply Hkeys. intros Hempty.
        assert (md ∈ in_category (category md) values) as Hin
          by (by apply list_elem_of_filter).
        rewrite Hempty in Hin. by apply elem_of_nil in Hin.
  - by rewrite Hperm.
  - apply sort_strings_sorted.
  - intros c. rewrite Hperm, Hkeys. split.
    + intros Hne. destruct (in_category c values) as [|md rest] eqn:E; [done|].
      exists md. assert (md ∈ in_category c values) as Hin by (rewrite E; by left).
      by apply list_elem_of_filter in Hin as [? ?].
    + intros (md & Hmd & Hc) Hempty.
      assert (md ∈ in_category c values) as Hin by (by apply list_elem_of_filter).
      rewrite Hempty in Hin. by apply elem_of_nil in Hin.
  - intros c Hc. apply Hcount. by rewrite <- Hperm.
Qed.

Lemma tools_by_category_groups_witness :
  getToolsByCategory sample_loader =
    [("system", [search_metadata; status_metadata]); ("agents", [spawn_metadata])] ∧
  [search_metadata; status_metadata] =
    in_category "system" ((metadataCache sample_loader).*2).
Proof.
  split; [reflexivity|].
  apply (proj1 (tools_by_category_groups sample_loader "system"
                  [search_metadata; status_metadata])).
  apply elem_of_cons. by left.
Defined.

Lemma getStats_counts_add_up_witness :
  categories (getStats scanned_loader) = ["agents"; "system"] ∧
  toolsByCategory (getStats scanned_loader) !! "system" = Some 2.
Proof.
  split; [reflexivity|].
  destruct (getStats_counts_add_up scanned_loader) as (_ & _ & _ & _ & Hcount).
  rewrite (Hcount "system"); [reflexivity|]. apply elem_of_cons. right. by left.
Defined.

(** ** Loading *)

Section Loading.
Context (import_module : string → option (list Export)).

#[local] Abbreviation loadTool := (loadTool import_module).
#[local] Abbreviation load_all := (load_all import_module).

(** A load that creates an instance, spelled out. *)
Lemma loadTool_miss toolName l r l' :
  toolCache l !! toolName = None →
  loadTool toolName l = (Some r, l') →
  ∃ metadata exports fname tool,
    map_get toolName (metadataCache l) = Some metadata ∧
    import_module (filePath metadata) = Some exports ∧
    find is_creator exports = Some (ExpFunction fname (Creates tool)) ∧
    r = length (instances l) ∧
    l' = {| metadataCache := metadataCache l;
            toolCache := <[toolName := r]> (toolCache l);
            instances := instances l ++ [tool];
            imported := imported l ++ [filePath metadata];
            created := created l ++ [fname] |}.
Proof.
  intros Hmiss. unfold ToolLoader.loadTool. rewrite Hmiss.
  destruct (map_get toolName (metadataCache l)) as [metadata|] eqn:Hmeta;
    [|discriminate].
  destruct (import_module (filePath metadata)) as [exports|] eqn:Himp;
    [|discriminate].
  destruct (find is_creator exports) as [[fname call|]|] eqn:Hfind;
    try discriminate.
  destruct call as [tool| |]; try discriminate.
  simpl. intros [= <- <-]. by exists metadata, exports, fname, tool.
Qed.

(** X24.  A load that returns [null] caches nothing: the tool cache, the
    instances and the metadata are as before, and for a name the metadata
    cache does not know nothing at all happens, no import included. *)
Theorem failed_load_caches_nothing toolName l l' :
  loadTool toolName l = (None, l') →
  toolCache l' = toolCache l ∧ instances l' = instances l ∧
  metadataCache l' = metadataCache l ∧
  (map_get toolName (metadataCache l) = None → l' = l).
Proof.
  unfold ToolLoader.loadTool.
  destruct (toolCache l !! toolName); [discriminate|].
  destruct (map_get toolName (metadataCache l)) as [metadata|].
  2:{ by intros [= <-]. }
  destruct (import_module (filePath metadata)) as [exports|].
  2:{ by intros [= <-]. }
  destruct (find is_creator exports) as [[fname call|]|].
  - destruct call; [discriminate| |]; by intros [= <-].
  - by intros [= <-].
  - by intros [= <-].
Qed.

Lemma loadTool_keeps toolName l a t :
  toolCache l !! a = Some t →
  toolCache (loadTool toolName l).2 !! a = Some t ∧
  instances l `prefix_of` instances (loadTool toolName l).2 ∧
  metadataCache (loadTool toolName l).2 = metadataCache l.
Proof.
  intros Ha. destruct (loadTool toolName l) as [[r|] l'] eqn:Hload; simpl.
  - destruct (toolCache l !! toolName) as [cached|] eqn:Hc.
    + rewrite (loadTool_hit import_module toolName l cached Hc) in Hload.
      by injection Hload as <- <-.
    + apply (loadTool_miss _ _ _ _ Hc) in Hload
        as (metadata & exports & fname & tool & _ & _ & _ & _ & ->). simpl.
      split; [|split; [by apply prefix_app_r | done]].
      rewrite lookup_insert_ne; [done|]. intros <-. congruence.
  - apply failed_load_caches_nothing in Hload as (-> & -> & -> & _). done.
Qed.

Lemma load_all_keeps names : ∀ l a t,
  toolCache l !! a = Some t →
  toolCache (load_all names l) !! a = Some t ∧
  instances l `prefix_of` instances (load_all names l) ∧
  metadataCache (load_all names l) = metadataCache l.
Proof.
  induction names as [|b names IH]; intros l a t Ha; simpl; [done|].
  destruct (loadTool_keeps b l a t Ha) as (Ha' & Hpre & Hmeta).
  destruct (IH _ a t Ha') as (Ha'' & Hpre' & Hmeta').
  split; [done|]. split; [by etransitivity | congruence].
Qed.

(** X25.  The tool cache only grows: once a load of a name has returned
    an instance, however many other loads follow, a load of that name
    returns the same reference from the cache and changes nothing, and the
    instances created before are still the same. *)
Theorem loaded_tools_stay_loaded toolName l t l1 names :
  loadTool toolName l = (Some t, l1) →
  let l2 := load_all names l1 in
  loadTool toolName l2 = (Some t, l2) ∧
  instances l1 `prefix_of` instances l2.
Proof.
  intros Hfirst l2. apply loadTool_caches in Hfirst.
  destruct (load_all_keeps names l1 toolName t Hfirst) as (Hkept & Hpre & _).
  split; [by apply loadTool_hit | done].
Qed.

(** X26.  After [clearCache] a tool that had been created by a load is
    created again by the next load of its name: the file is imported and
    the creator called once more, and the result is a new instance of the
    same tool under a reference different from the first. *)
Theorem clearCache_forces_a_new_instance toolName l t l1 :
  toolCache l !! toolName = None →
  loadTool toolName l = (Some t, l1) →
  ∃ t' l2,
    loadTool toolName (clearCache l1) = (Some t', l2) ∧
    t' ≠ t ∧ instances l2 !! t' = instances l1 !! t ∧
    is_Some (instances l1 !! t) ∧
    length (imported l2) = S (length (imported l1)) ∧
    length (created l2) = S (length (created l1)).
Proof.
  intros Hmiss Hfirst.
  apply (loadTool_miss _ _ _ _ Hmiss) in Hfirst
    as (metadata & exports & fname & tool & Hmeta & Himp & Hfind & -> & ->).
  do 2 eexists. split.
  - unfold ToolLoader.loadTool, clearCache. simpl.
    rewrite lookup_empty, Hmeta, Himp, Hfind. reflexivity.
  - simpl. rewrite !length_app. simpl. split; [lia|].
    rewrite lookup_app_r by (rewrite length_app; simpl; lia).
    rewrite lookup_app_r by lia.
    rewrite length_app. simpl.
    replace (length (instances l) + 1 - (length (instances l) + 1)) with 0 by lia.
    replace (length (instances l) - length (instances l)) with 0 by lia.
    simpl. split; [done|]. split; [eauto|]. lia.
Qed.

End Loading.

Lemma failed_load_caches_nothing_witness :
  ToolLoader.loadTool sample_import "agents/spawn" sample_loader =
    (None, with_import sample_loader "tools/agents/spawn.js") ∧
  toolCache (ToolLoader.loadTool sample_import "agents/spawn" sample_loader).2 =
    toolCache sample_loader.
Proof.
  split; [reflexivity|].
  apply (failed_load_caches_nothing sample_import "agents/spawn" sample_loader
           (with_import sample_loader "tools/agents/spawn.js")).
  reflexivity.
Defined.

Lemma loaded_tools_stay_loaded_witness :
  let l1 := (ToolLoader.loadTool sample_import "system/status" sample_loader).2 in
  let l2 := load_all sample_import ["agents/spawn"; "tools/search"; "nope"] l1 in
  ToolLoader.loadTool sample_import "system/status" l2 = (Some 0, l2).
Proof.
  intros l1 l2.
  apply (loaded_tools_stay_loaded sample_import "system/status" sample_loader 0 l1
           ["agents/spawn"; "tools/search"; "nope"]).
  reflexivity.
Defined.

Lemma clearCache_forces_a_new_instance_witness :
  let l1 := (ToolLoader.loadTool sample_import "system/status" sample_loader).2 in
  ∃ l2, ToolLoader.loadTool sample_import "system/status" (clearCache l1) = (Some 1, l2) ∧
        instances l2 = [status_tool; status_tool].
Proof.
  intros l1.
  destruct (clearCache_forces_a_new_instance sample_import "system/status"
              sample_loader 0 l1) as (t' & l2 & Hload & _); [done|done|].
  exists l2. vm_compute in Hload. injection Hload as <- <-.
  by vm_compute.
Defined.

End ToolCatalogProps.

(* ========================================================================= *)
(** * Properties of the search tool *)
(* ========================================================================= *)

Module SearchToolProps.
Import ToolLoader ToolCatalog SearchTool ToolLoaderProps ToolCatalogProps.

Section Handler.
Context (toLowerCase : string → string) (localeCompare : string → string → Z).
Context (import_module : string → option (list Export)).

#[local] Abbreviation loadTool := (loadTool import_module).
#[local] Abbreviation load_all := (load_all import_module).
#[local] Abbreviation push_result := (push_result import_module).
#[local] Abbreviation handler :=
  (handler toLowerCase localeCompare import_module).
#[local] Abbreviation matches l input :=
  (searchTools toLowerCase localeCompare l (search_query input)).

Lemma push_names_only metas : ∀ acc l,
  foldl (push_result "names-only") (acc, l) metas =
    (acc ++ ((λ meta, NameOnly (name meta)) <$> metas), l).
Proof.
  induction metas as [|meta metas IH]; intros acc l; simpl.
  - by rewrite app_nil_r.
  - rewrite IH. by rewrite <- app_assoc.
Qed.

Lemma push_basic metas : ∀ acc l,
  foldl (push_result "basic") (acc, l) metas =
    (acc ++ ((λ meta, Basic (name meta) (description meta) (category meta)
                            (tags meta)) <$> metas), l).
Proof.
  induction metas as [|meta metas IH]; intros acc l; simpl.
  - by rewrite app_nil_r.
  - rewrite IH. by rewrite <- app_assoc.
Qed.

Lemma push_other detail metas : ∀ acc l,
  detail ≠ "names-only" → detail ≠ "basic" → detail ≠ "full" →
  foldl (push_result detail) (acc, l) metas = (acc, l).
Proof.
  intros acc l H1 H2 H3.
  induction metas as [|meta metas IH]; simpl; [done|].
  by rewrite !decide_False by done.
Qed.

(** X27.  Below the level [full] a search loads nothing: the loader is
    left as it was, and the tools returned are the first matches of
    [searchTools], cut by [slice(0, limit)], each reduced to its name at
    [names-only] and to name, description, category and tags at [basic];
    at any other level the list is empty.  [totalMatches] counts all the
    matches, before the cut. *)
Theorem search_below_full_loads_nothing input l r l' :
  let detail := JobManager.str_or (i_detailLevel input) "basic" in
  let limited := JobQueries.slice0 (limit_or_20 (i_limit input)) (matches l input) in
  detail ≠ "full" →
  handler input l = (r, l') →
  l' = l ∧ r_detailLevel r = detail ∧
  totalMatches r = length (matches l input) ∧
  length (tools r) ≤ totalMatches r ∧
  tools r =
    if decide (detail = "names-only")
    then (λ meta, NameOnly (name meta)) <$> limited
    else if decide (detail = "basic")
    then (λ meta, Basic (name meta) (description meta) (category meta)
                        (tags meta)) <$> limited
    else [].
Proof.
  intros detail limited Hfull. unfold SearchTool.handler.
  fold detail. fold limited.
  assert (length limited ≤ length (matches l input)) as Hlen.
  { apply sublist_length, JobQueriesProps.slice0_sublist. }
  destruct (decide (detail = "names-only")) as [Hn|Hn].
  { rewrite Hn, push_names_only. intros [= <- <-]. simpl.
    rewrite length_fmap. done. }
  destruct (decide (detail = "basic")) as [Hb|Hb].
  { rewrite Hb, push_basic. intros [= <- <-]. simpl.
    rewrite length_fmap. done. }
  rewrite push_other by done. intros [= <- <-]. simpl.
  split_and!; try done. lia.
Qed.

(** When a load gives no tool. *)
Lemma loadTool_none toolName l :
  (loadTool toolName l).1 = None ↔
  toolCache l !! toolName = None ∧ creator_of import_module l toolName = None.
Proof.
  unfold ToolLoader.loadTool, creator_of.
  destruct (toolCache l !! toolName); simpl; [intuition congruence|].
  destruct (map_get toolName (metadataCache l)) as [metadata|]; simpl;
    [|intuition congruence].
  destruct (import_module (filePath metadata)) as [exports|]; simpl;
    [|intuition congruence].
  destruct (find is_creator exports) as [[fname call|]|]; simpl;
    [|intuition congruence..].
  destruct call; simpl; intuition congruence.
Qed.

Lemma loadTool_metadata toolName l :
  metadataCache (loadTool toolName l).2 = metadataCache l.
Proof.
  destruct (loadTool toolName l) as [[r|] l1] eqn:Hload; simpl.
  - destruct (toolCache l !! toolName) as [cached|] eqn:Hc.
    + rewrite (loadTool_hit import_module toolName l cached Hc) in Hload.
      by injection Hload as <- <-.
    + apply (loadTool_miss import_module _ _ _ _ Hc) in Hload
        as (? & ? & ? & ? & _ & _ & _ & _ & ->). done.
  - by apply failed_load_caches_nothing in Hload as (_ & _ & -> & _).
Qed.

Lemma load_all_metadata names : ∀ l,
  metadataCache (load_all names l) = metadataCache l.
Proof.
  induction names as [|b names IH]; intros l; simpl; [done|].
  by rewrite IH, loadTool_metadata.
Qed.

(** A load that fails, fails again after any other load. *)
Lemma failed_load_stays_failed a b l :
  (loadTool a l).1 = None → (loadTool a (loadTool b l).2).1 = None.
Proof.
  rewrite !loadTool_none. intros [Hc Hcr]. split.
  - destruct (loadTool b l) as [[r|] l1] eqn:Hload; simpl.
    + destruct (toolCache l !! b) as [cached|] eqn:Hb.
      * rewrite (loadTool_hit import_module b l cached Hb) in Hload.
        by injection Hload as <- <-.
      * destruct (decide (a = b)) as [->|Hne].
        { assert ((loadTool b l).1 = None) as Hnone
            by (apply loadTool_none; done).
          rewrite Hload in Hnone. done. }
        apply (loadTool_miss import_module _ _ _ _ Hb) in Hload
          as (? & ? & ? & ? & _ & _ & _ & _ & ->). simpl.
        by rewrite lookup_insert_ne.
    + apply failed_load_caches_nothing in Hload as (-> & _). done.
  - unfold creator_of in *. by rewrite loadTool_metadata.
Qed.

Lemma failed_load_after_all names : ∀ a l,
  (loadTool a l).1 = None → toolCache (load_all names l) !! a = None.
Proof.
  induction names as [|b names IH]; intros a l Hnone; simpl.
  - by apply loadTool_none in Hnone as [? _].
  - apply IH. by apply failed_load_stays_failed.
Qed.

Lemma loadTool_refs_valid toolName l :
  refs_valid l → refs_valid (loadTool toolName l).2.
Proof.
  intros Hvalid. destruct (loadTool toolName l) as [[r|] l1] eqn:Hload; simpl.
  - destruct (toolCache l !! toolName) as [cached|] eqn:Hc.
    + rewrite (loadTool_hit import_module toolName l cached Hc) in Hload.
      by injection Hload as <- <-.
    + apply (loadTool_miss import_module _ _ _ _ Hc) in Hload
        as (? & ? & ? & tool & _ & _ & _ & -> & ->).
      intros a ref. simpl. rewrite length_app. simpl.
      destruct (decide (toolName = a)) as [->|Hne].
      * rewrite lookup_insert_eq. intros [= <-]. lia.
      * rewrite lookup_insert_ne by done. intros Ha%Hvalid. lia.
  - apply failed_load_caches_nothing in Hload as (Hc & Hi & _).
    intros a ref. rewrite Hc, Hi. apply Hvalid.
Qed.

Lemma push_full metas : ∀ acc l,
  refs_valid l →
  let l' := load_all (name <$> metas) l in
  foldl (push_result "full") (acc, l) metas =
    (acc ++ omap (full_result l') metas, l').
Proof.
  induction metas as [|meta metas IH]; intros acc l Hvalid; simpl.
  { by rewrite app_nil_r. }
  pose proof (loadTool_refs_valid (name meta) l Hvalid) as Hvalid1.
  destruct (loadTool (name meta) l) as [[ref|] l1] eqn:Hload;
    cbn [fst snd] in *.
  - pose proof (loadTool_caches import_module _ _ _ _ Hload) as Hcached.
    destruct (load_all_keeps import_module (name <$> metas) l1 _ _ Hcached)
      as (Hkept & Hpre & _).
    destruct (lookup_lt_is_Some_2 (instances l1) ref) as [tool Htool].
    { by eapply Hvalid1. }
    assert (full_result (load_all (name <$> metas) l1) meta =
              Some (Full (tool_name tool) (tool_description tool) (category meta)
                         (tags meta) (inputSchema tool))) as Hres.
    { unfold full_result, cached_tool. rewrite Hkept. simpl.
      by rewrite (prefix_lookup_Some _ _ _ _ Htool Hpre). }
    rewrite Htool, IH by done. f_equal.
    change (list_fmap ToolMetadata string name metas) with (name <$> metas).
    rewrite Hres. by rewrite <- app_assoc.
  - assert (full_result (load_all (name <$> metas) l1) meta = None) as Hres.
    { unfold full_result, cached_tool.
      rewrite (failed_load_after_all (name <$> metas) (name meta) l1); [done|].
      replace l1 with (loadTool (name meta) l).2 by by rewrite Hload.
      apply failed_load_stays_failed. by rewrite Hload. }
    rewrite IH by done. f_equal.
    change (list_fmap ToolMetadata string name metas) with (name <$> metas).
    by rewrite Hres.
Qed.

Lemma omap_length_le {A B} (f : A → option B) (xs : list A) :
  length (omap f xs) ≤ length xs.
Proof.
  induction xs as [|x xs IH]; [done|].
  change (omap f (x :: xs))
    with (match f x with Some y => y :: omap f xs | None => omap f xs end).
  destruct (f x); simpl; lia.
Qed.

(** X28.  At the level [full] a search loads the first matches, cut by
    [slice(0, limit)], one after the other in the order of the search, and
    returns one element for each of them that could be loaded, built from
    the instance the loader then holds under the name of the match; a match
    that cannot be loaded is left out without an error.  The metadata are
    not changed. *)
Theorem search_full_loads_the_listed_tools input l r l' :
  let limited := JobQueries.slice0 (limit_or_20 (i_limit input)) (matches l input) in
  refs_valid l →
  JobManager.str_or (i_detailLevel input) "basic" = "full" →
  handler input l = (r, l') →
  l' = load_all (name <$> limited) l ∧
  tools r = omap (full_result l') limited ∧
  length (tools r) ≤ totalMatches r ∧
  metadataCache l' = metadataCache l.
Proof.
  intros limited Hvalid Hfull. unfold SearchTool.handler.
  fold limited. rewrite Hfull, push_full by done.
  intros [= <- <-]. simpl. split_and!; try done.
  - etransitivity; [apply omap_length_le|].
    apply sublist_length, JobQueriesProps.slice0_sublist.
  - apply load_all_metadata.
Qed.

End Handler.

Lemma search_below_full_loads_nothing_witness :
  ∃ r, handler ascii_toLowerCase codeunit_compare sample_import names_input
         sample_loader = (r, sample_loader) ∧
       tools r = [NameOnly "system/status"] ∧ totalMatches r = 2.
Proof.
  destruct (handler ascii_toLowerCase codeunit_compare sample_import names_input
              sample_loader) as [r l'] eqn:Hrun.
  destruct (search_below_full_loads_nothing ascii_toLowerCase codeunit_compare
              sample_import names_input sample_loader r l')
    as (-> & _ & Htotal & _ & Htools); [done|done|].
  exists r. split; [done|]. rewrite Htools, Htotal. by vm_compute.
Defined.

Lemma search_full_loads_the_listed_tools_witness :
  ∃ r l', handler ascii_toLowerCase codeunit_compare sample_import full_input
            sample_loader = (r, l') ∧
          tools r = [Full "system/status" "Get system health status" "system"
                          None "{}"] ∧
          totalMatches r = 2 ∧
          imported l' = ["tools/system/status.js"; "tools/system/search.js"].
Proof.
  destruct (handler ascii_toLowerCase codeunit_compare sample_import full_input
              sample_loader) as [r l'] eqn:Hrun.
  destruct (search_full_loads_the_listed_tools ascii_toLowerCase codeunit_compare
              sample_import full_input sample_loader r l')
    as (Hl' & Htools & _ & _); [by intros ? ? [=]|done|done|].
  exists r, l'. split; [done|]. rewrite Htools, Hl'. clear Htools Hl'.
  vm_compute in Hrun. injection Hrun as <- <-. by vm_compute.
Defined.

End SearchToolProps.

(* ========================================================================= *)
(** * Properties of the cache of compiled schemas *)
(* ========================================================================= *)

Module SchemaValidationProps.
Import SchemaValidation.

Section Cache.
Context {Schema Validator : Type} (stringify : Schema → string).

#[local] Abbreviation getValidator := (getValidator stringify).
#[local] Abbreviation Cache := (gmap string (@CacheEntry Schema Validator)).

Lemma getValidator_hit compiled t_check t_set s (cache : Cache) entry :
  cache !! stringify s = Some entry →
  served t_check entry →
  getValidator compiled t_check t_set s cache = (Some (validate entry), cache).
Proof.
  intros Hentry Hfresh. unfold SchemaValidation.getValidator. rewrite Hentry.
  unfold served in Hfresh.
  by destruct (Z.ltb_spec (t_check - timestamp entry) cacheTTL); [|lia].
Qed.

(** X29.  A validator that [getValidator] has returned is kept in the
    cache under the JSON text of its schema: it came from an entry younger
    than [cacheTTL], with the cache unchanged, or was compiled in this call
    and stored with the time of the call.  Until that entry is
    [cacheTTL] old, every call for a schema of the same JSON text returns
    this validator without compiling and leaves the cache as it is. *)
Theorem compiled_validator_is_reused compiled t_check t_set s (cache : Cache)
    v cache' :
  getValidator compiled t_check t_set s cache = (Some v, cache') →
  ∃ entry,
    cache' !! stringify s = Some entry ∧ validate entry = v ∧
    (cache' = cache ∧ served t_check entry ∨
     compiled = Some v ∧ timestamp entry = t_set ∧
     cache' = <[stringify s := entry]> cache) ∧
    ∀ compiled' t t' s',
      stringify s' = stringify s → served t entry →
      getValidator compiled' t t' s' cache' = (Some v, cache').
Proof.
  unfold SchemaValidation.getValidator.
  assert (compile_and_store stringify compiled t_set s cache = (Some v, cache') →
          ∃ entry,
            cache' !! stringify s = Some entry ∧ validate entry = v ∧
            (cache' = cache ∧ served t_check entry ∨
             compiled = Some v ∧ timestamp entry = t_set ∧
             cache' = <[stringify s := entry]> cache) ∧
            ∀ compiled' t t' s',
              stringify s' = stringify s → served t entry →
              getValidator compiled' t t' s' cache' = (Some v, cache')) as Hstore.
  { unfold compile_and_store. destruct compiled as [v'|]; [|discriminate].
    intros [= <- <-].
    exists {| schema := s; validate := v'; timestamp := t_set |}.
    split; [by rewrite lookup_insert_eq|]. split; [done|]. split; [by right|].
    intros compiled' t t' s' Hkey Hfresh.
    apply (getValidator_hit compiled' t t' s' _
             {| schema := s; validate := v'; timestamp := t_set |});
      [by rewrite Hkey, lookup_insert_eq | done]. }
  destruct (cache !! stringify s) as [cached|] eqn:Hcached; [|exact Hstore].
  destruct (Z.ltb_spec (t_check - timestamp cached) cacheTTL) as [Hfresh|Hold];
    [|exact Hstore].
  intros [= <- <-]. exists cached. split; [done|]. split; [done|].
  split; [by left|].
  intros compiled' t t' s' Hkey Hserved.
  apply getValidator_hit; [by rewrite Hkey | done].
Qed.

Lemma cleanupCache_fold now (cache0 m : Cache) :
  let r := map_fold (cleanup_entry now) (0, cache0) m in
  (∀ key, r.2 !! key =
          match m !! key with
          | Some entry => if (cacheTTL <? now - timestamp entry)%Z then None
                          else cache0 !! key
          | None => cache0 !! key
          end) ∧
  r.1 = size (filter (λ kv, stale now kv.2) m).
Proof.
  apply (map_fold_weak_ind
    (λ (r : nat * Cache) (m : Cache),
       (∀ key, r.2 !! key =
               match m !! key with
               | Some entry => if (cacheTTL <? now - timestamp entry)%Z then None
                               else cache0 !! key
               | None => cache0 !! key
               end) ∧
       r.1 = size (filter (λ kv, stale now kv.2) m))).
  - split; [done|]. by rewrite map_filter_empty, map_size_empty.
  - intros key entry m' r Hnone [Hlook Hcount].
    unfold cleanup_entry.
    destruct (Z.ltb_spec cacheTTL (now - timestamp entry)) as [Hstale|Hkeep];
      simpl.
    + split.
      * intros key'. destruct (decide (key' = key)) as [->|Hne].
        { rewrite lookup_delete_eq, lookup_insert_eq.
          by destruct (Z.ltb_spec cacheTTL (now - timestamp entry)); [|lia]. }
        rewrite lookup_delete_ne, lookup_insert_ne by done. apply Hlook.
      * rewrite map_filter_insert_True by done.
        rewrite map_size_insert_None; [by rewrite Hcount|].
        by rewrite map_lookup_filter, Hnone.
    + split.
      * intros key'. destruct (decide (key' = key)) as [->|Hne].
        { rewrite lookup_insert_eq, Hlook, Hnone.
          by destruct (Z.ltb_spec cacheTTL (now - timestamp entry)); [lia|]. }
        rewrite lookup_insert_ne by done. apply Hlook.
      * rewrite map_filter_insert_False by (unfold stale; simpl; lia).
        by rewrite delete_id.
Qed.

(** X30.  [cleanupCache] deletes exactly the entries older than
    [cacheTTL] and returns their number; an entry of age [cacheTTL] or
    less is kept.  It never changes what [getValidator] returns at the same
    time: an entry [getValidator] would serve is kept, and one that is
    deleted would have been compiled again.  An entry whose age is exactly
    [cacheTTL] is kept by the sweep although [getValidator] no longer
    serves it. *)
Theorem cleanupCache_removes_only_stale now (cache : Cache) :
  let cleaned := (cleanupCache now cache).1 in
  let cache' := (cleanupCache now cache).2 in
  (∀ key entry, cache' !! key = Some entry ↔
                cache !! key = Some entry ∧ ¬ stale now entry) ∧
  cleaned = size (filter (λ kv, stale now kv.2) cache) ∧
  cleaned + size cache' = size cache ∧
  (∀ compiled t_set s,
     (getValidator compiled now t_set s cache').1 =
     (getValidator compiled now t_set s cache).1) ∧
  (∀ compiled t_set s entry,
     cache !! stringify s = Some entry → (now - timestamp entry = cacheTTL)%Z →
     cache' !! stringify s = Some entry ∧
     (getValidator compiled now t_set s cache').1 = compiled).
Proof.
  intros cleaned cache'.
  destruct (cleanupCache_fold now cache cache) as [Hlook Hcount].
  fold (cleanupCache now cache) in Hlook, Hcount.
  fold cache' in Hlook. fold cleaned in Hcount.
  assert (∀ key entry, cache' !! key = Some entry ↔
                       cache !! key = Some entry ∧ ¬ stale now entry) as Hkept.
  { intros key entry. rewrite Hlook. unfold stale.
    destruct (cache !! key) as [e|] eqn:He; [|intuition congruence].
    destruct (Z.ltb_spec cacheTTL (now - timestamp e)).
    - split; [done|]. intros [[= ->] ?]. lia.
    - split; [|by intros [? _]]. intros [= ->]. split; [done|lia]. }
  assert (cache' = filter (λ kv, ¬ stale now kv.2) cache) as Hfilter.
  { apply map_eq. intros key. apply option_eq. intros entry.
    rewrite Hkept, map_lookup_filter_Some. done. }
  split; [done|]. split; [done|]. split.
  { rewrite Hcount, Hfilter.
    rewrite <- map_size_disj_union by apply map_disjoint_filter_complement.
    by rewrite map_filter_union_complement. }
  split.
  - intros compiled t_set s. unfold SchemaValidation.getValidator.
    rewrite Hlook.
    destruct (cache !! stringify s) as [entry|] eqn:Hentry;
      [|unfold compile_and_store; by destruct compiled].
    destruct (Z.ltb_spec cacheTTL (now - timestamp entry));
      destruct (Z.ltb_spec (now - timestamp entry) cacheTTL);
      try lia; try done; unfold compile_and_store; by destruct compiled.
  - intros compiled t_set s entry Hentry Hage.
    assert (cache' !! stringify s = Some entry) as Hstill.
    { apply Hkept. split; [done|]. unfold stale. lia. }
    split; [done|]. unfold SchemaValidation.getValidator. rewrite Hstill.
    destruct (Z.ltb_spec (now - timestamp entry) cacheTTL); [lia|].
    unfold compile_and_store. by destruct compiled.
Qed.

End Cache.

Lemma compiled_validator_is_reused_witness :
  SchemaValidation.getValidator sample_stringify None 3600999 3600999 "{}"
    sample_cache = (Some 7, sample_cache) ∧
  (SchemaValidation.getValidator sample_stringify (Some 8) 3601000 3601000 "{}"
     sample_cache).1 = Some 8.
Proof.
  split; [|by vm_compute].
  destruct (compiled_validator_is_reused sample_stringify (Some 7) 0 1000 "{}" ∅
              7 sample_cache) as (entry & Hentry & _ & Hhow & Hreuse).
  { by vm_compute. }
  apply Hreuse; [done|].
  destruct Hhow as [[Hsame _]|(_ & Hstamp & _)].
  - by vm_compute in Hsame.
  - unfold served. rewrite Hstamp. by vm_compute.
Defined.

End SchemaValidationProps.
